(** * Résumé structuring pipeline (parsers/resume_analyzer.py)

    A shallow embedding of [find_sections], [extract_contact], [call_llm],
    [ensure_projects], [ensure_certifications] and the module-level assembly
    code, together with the parts of Python's [str] and [re] that they use;
    and of [load_inputs] of generator/question_generator.py, which reads the
    record back.

    A Python [str] is a list of Unicode code points.  The small character
    tables ([str.isspace], the line boundaries of [str.splitlines]) are
    written out in full; the large ones (decimal digits, alphanumerics, case
    mappings) and the third-party libraries (nameparser, spaCy, json, the
    ollama subprocess) are fields of the class [Library], so every theorem
    holds whatever those tables and libraries answer.

    Effects are explicit: a computation of type [M A] takes the world (the
    prompts sent so far, the lines printed so far) and gives back a value or
    an exception, and the new world.

    Layout: Python strings; JSON values; the [Library]; regular expressions
    and the module constants; the program; a scripted [Library] and sample
    documents; what patterns denote and the definitions the statements use;
    then the proofs, and the theorems run on the samples. *)

From Stdlib Require Import NArith Ascii String List Bool Lia Floats.SpecFloat.
From stdpp Require Import gmap list sorting.

Import ListNotations.
Set Warnings "-register-all".
Local Open Scope bool_scope.
Local Open Scope list_scope.

(** ** Python strings *)

Abbreviation str := (list N).

Module Str.
Local Open Scope N_scope.

(** Decoding of the UTF-8 bytes of a literal into code points; string
    constants of the source are written as literals and decoded by [u]. *)
Fixpoint utf8 (bs : list N) : str :=
  match bs with
  | [] => []
  | b0 :: r0 =>
      if b0 <? 128 then b0 :: utf8 r0
      else match r0 with
      | [] => [b0]
      | b1 :: r1 =>
          if b0 <? 224 then ((b0 - 192) * 64 + (b1 - 128)) :: utf8 r1
          else match r1 with
          | [] => [b0; b1]
          | b2 :: r2 =>
              if b0 <? 240
              then ((b0 - 224) * 4096 + (b1 - 128) * 64 + (b2 - 128)) :: utf8 r2
              else match r2 with
              | [] => [b0; b1; b2]
              | b3 :: r3 =>
                  ((b0 - 240) * 262144 + (b1 - 128) * 4096
                   + (b2 - 128) * 64 + (b3 - 128)) :: utf8 r3
              end
          end
      end
  end.

Definition u (s : string) : str :=
  utf8 (List.map N_of_ascii (list_ascii_of_string s)).
Arguments u : simpl never.

(** The code point of a one-character literal. *)
Definition ch (s : string) : N := hd 0 (u s).

Definition LF : N := 10.
Definition CR : N := 13.
Definition DQUOTE : N := 34.

(** [str.isspace] of one code point. *)
Definition isspace (c : N) : bool :=
  ((9 <=? c) && (c <=? 13)) || ((28 <=? c) && (c <=? 32))
  || (c =? 133) || (c =? 160) || (c =? 5760)
  || ((8192 <=? c) && (c <=? 8202))
  || (c =? 8232) || (c =? 8233) || (c =? 8239) || (c =? 8287) || (c =? 12288).

(** The line boundaries recognised by [str.splitlines]. *)
Definition islinebreak (c : N) : bool :=
  ((10 <=? c) && (c <=? 13)) || ((28 <=? c) && (c <=? 30))
  || (c =? 133) || (c =? 8232) || (c =? 8233).

(** [s.splitlines()]: boundaries are dropped, CR LF counts once, and a final
    boundary does not open an empty last line. *)
Fixpoint splitlines (s : str) : list str :=
  match s with
  | [] => []
  | c :: s' =>
      if islinebreak c then
        [] :: match s' with
              | d :: s'' => if (c =? CR) && (d =? LF) then splitlines s''
                            else splitlines s'
              | [] => []
              end
      else match splitlines s' with
           | [] => [[c]]
           | l :: ls => (c :: l) :: ls
           end
  end.

Fixpoint lstrip (s : str) : str :=
  match s with
  | c :: s' => if isspace c then lstrip s' else s
  | [] => []
  end.

Definition rstrip (s : str) : str := rev (lstrip (rev s)).

(** [s.strip()] *)
Definition strip (s : str) : str := rstrip (lstrip s).

(** [s.split()]: the maximal runs of non-whitespace characters. *)
Fixpoint split_ws (s : str) : list str :=
  match s with
  | [] => []
  | c :: s' =>
      if isspace c then split_ws s'
      else match s' with
           | d :: _ => if isspace d then [c] :: split_ws s'
                       else match split_ws s' with
                            | w :: ws => (c :: w) :: ws
                            | [] => [[c]]
                            end
           | [] => [[c]]
           end
  end.

(** [sep.join(parts)] *)
Fixpoint join (sep : str) (parts : list str) : str :=
  match parts with
  | [] => []
  | [p] => p
  | p :: ps => p ++ sep ++ join sep ps
  end.

Definition str_eqb (a b : str) : bool := bool_decide (a = b).

Fixpoint startswith (p s : str) : bool :=
  match p, s with
  | [], _ => true
  | a :: p', b :: s' => (a =? b) && startswith p' s'
  | _ :: _, [] => false
  end.

(** [p in s] for strings: [p] occurs as a substring of [s]. *)
Fixpoint contains (p s : str) : bool :=
  startswith p s || match s with
                    | [] => false
                    | _ :: s' => contains p s'
                    end.

(** [s.split(sep)[0]] for a one-character separator. *)
Fixpoint before (sep : N) (s : str) : str :=
  match s with
  | [] => []
  | c :: s' => if c =? sep then [] else c :: before sep s'
  end.

(** [s.replace(c, '')] for a one-character [c]. *)
Definition remove_char (c : N) (s : str) : str :=
  List.filter (fun x => negb (x =? c)) s.

(** [xs[a:b]] for [0 <= a], [0 <= b]. *)
Definition slice {A} (xs : list A) (a b : nat) : list A :=
  firstn (b - a) (skipn a xs).

(** Lexicographic comparison of strings by code point, Python's [<=]. *)
Fixpoint str_leb (a b : str) : bool :=
  match a, b with
  | [], _ => true
  | _ :: _, [] => false
  | x :: a', y :: b' => (x <? y) || ((x =? y) && str_leb a' b')
  end.

End Str.
Import Str.

(** ** JSON values, as [json.loads] builds them *)

Inductive json :=
| JNull
| JBool (b : bool)
| JInt (z : Z)
| JFloat (f : spec_float)
| JStr (s : str)
| JArr (items : list json)
| JObj (members : list (str * json)).

(** Python truthiness of a decoded value ([if parsed:]). *)
Definition truthy (v : json) : bool :=
  match v with
  | JNull => false
  | JBool b => b
  | JInt z => negb (Z.eqb z 0)
  | JFloat (S754_zero _) => false
  | JFloat _ => true
  | JStr s => negb (str_eqb s [])
  | JArr l => match l with [] => false | _ => true end
  | JObj kv => match kv with [] => false | _ => true end
  end.

(** [d.get(key, default)] on the members of a dict (its keys are distinct). *)
Fixpoint dict_get (members : list (str * json)) (key : str) (default : json) : json :=
  match members with
  | [] => default
  | (k, v) :: rest => if str_eqb k key then v else dict_get rest key default
  end.

(** ** What the program takes from outside

    The Unicode character database behind [\d], [\w], [re.IGNORECASE],
    [str.lower] and [str.title]; nameparser's [HumanName] (its [first] and
    [last] attributes); spaCy's pipeline (the [text] and [label_] of each
    entity of [doc.ents]); [json.loads] ([None] for [JSONDecodeError]); and
    the ollama subprocess, whose standard output may depend on how many
    requests came before as well as on the prompt. *)
Class Library := {
  uni_isdecimal : N -> bool;        (* [\d]: the decimal digits *)
  uni_isalnum : N -> bool;          (* [\w] without the underscore *)
  uni_ieq : N -> N -> bool;         (* under [re.I], a pattern letter and a
                                       subject character that differ only
                                       by case *)
  str_lower : str -> str;           (* [s.lower()] *)
  str_title : str -> str;           (* [s.title()] *)
  HumanName : str -> str * str;     (* [(h.first, h.last)] of [HumanName(s)] *)
  nlp : str -> list (str * str);    (* [(ent.text, ent.label_)] over [nlp(s).ents] *)
  json_loads : str -> option json;  (* [json.loads(s)] *)
  ollama : nat -> str -> str        (* the reply to the n-th request *)
}.

(** ** Regular expressions

    The compiled form of the patterns of the program.  Every quantifier in
    them applies to a single character or character set, so repetition is
    over an [atom]; a literal compiled under [re.I] is [LitI], [Dot] is [.]
    under [re.S]. *)

Inductive item :=
| IChar (c : N)
| IRange (lo hi : N)
| IDigit
| ISpace.

Inductive atom :=
| Lit (c : N)
| LitI (c : N)
| Dot
| Cls (i : item)
| OneOf (items : list item).

Inductive re :=
| Eps
| One (a : atom)
| Cat (r1 r2 : re)
| Alt (r1 r2 : re)
| Rep (a : atom) (lo : nat) (hi : option nat)
| Bol
| Eol
| WordB.

Definition seq (rs : list re) : re := fold_right Cat Eps rs.

Fixpoint alt (rs : list re) : re :=
  match rs with
  | [] => Eps
  | [r] => r
  | r :: rs' => Alt r (alt rs')
  end.

Definition lit (s : string) : re := seq (List.map (fun c => One (Lit c)) (u s)).
Definition ci (s : string) : re := seq (List.map (fun c => One (LitI c)) (u s)).
Definition star (a : atom) : re := Rep a 0 None.
Definition plus (a : atom) : re := Rep a 1 None.
Definition opt (a : atom) : re := Rep a 0 (Some 1).

Section Engine.
Context `{Library}.

Definition item_ok (i : item) (c : N) : bool :=
  match i with
  | IChar x => N.eqb c x
  | IRange lo hi => N.leb lo c && N.leb c hi
  | IDigit => uni_isdecimal c
  | ISpace => isspace c
  end.

Definition atom_ok (a : atom) (c : N) : bool :=
  match a with
  | Lit x => N.eqb c x
  | LitI x => N.eqb c x || uni_ieq x c
  | Dot => true
  | Cls i => item_ok i c
  | OneOf items => existsb (fun i => item_ok i c) items
  end.

(** [\w] *)
Definition isword (c : option N) : bool :=
  match c with
  | Some x => uni_isalnum x || N.eqb x 95
  | None => false
  end.

Definition more (hi : option nat) : bool :=
  match hi with Some O => false | _ => true end.

(** The matcher backtracks as [re] does: it runs a pattern at the current
    position, knowing the character before it ([prev]) and the characters
    matched so far ([acc], reversed), and hands every way of matching to the
    continuation [k] in priority order until one is accepted. *)
Fixpoint rep {R} (a : atom) (lo : nat) (hi : option nat)
    (prev : option N) (acc suf : str)
    (k : option N -> str -> str -> option R) {struct suf} : option R :=
  let stop := match lo with O => k prev acc suf | S _ => None end in
  match suf with
  | c :: suf' =>
      if atom_ok a c && more hi then
        match rep a (Nat.pred lo) (option_map Nat.pred hi) (Some c) (c :: acc) suf' k with
        | Some x => Some x
        | None => stop
        end
      else stop
  | [] => stop
  end.

Fixpoint run {R} (r : re) (prev : option N) (acc suf : str)
    (k : option N -> str -> str -> option R) : option R :=
  match r with
  | Eps => k prev acc suf
  | One a =>
      match suf with
      | c :: suf' => if atom_ok a c then k (Some c) (c :: acc) suf' else None
      | [] => None
      end
  | Cat r1 r2 => run r1 prev acc suf (fun p a s => run r2 p a s k)
  | Alt r1 r2 =>
      match run r1 prev acc suf k with
      | Some x => Some x
      | None => run r2 prev acc suf k
      end
  | Rep a lo hi => rep a lo hi prev acc suf k
  | Bol => match prev with None => k prev acc suf | Some _ => None end
  | Eol =>
      match suf with
      | [] => k prev acc suf
      | [c] => if N.eqb c LF then k prev acc suf else None
      | _ => None
      end
  | WordB => if xorb (isword prev) (isword (head suf)) then k prev acc suf else None
  end.

(** Accept wherever the pattern ends; the result is [m.group()]. *)
Definition group_here (_ : option N) (acc _ : str) : option str := Some (rev acc).

(** Accept only at the end of the subject ([fullmatch]). *)
Definition group_at_end (_ : option N) (acc suf : str) : option str :=
  match suf with [] => Some (rev acc) | _ => None end.

(** [re.search] from a position inside the subject: leftmost start. *)
Fixpoint search_from (r : re) (prev : option N) (s : str) : option str :=
  match run r prev [] s group_here with
  | Some g => Some g
  | None =>
      match s with
      | [] => None
      | c :: s' => search_from r (Some c) s'
      end
  end.

(** [pattern.search(s)], [re.match(pattern, s)] and [pattern.fullmatch(s)],
    each giving [m.group()]. *)
Definition re_search (r : re) (s : str) : option str := search_from r None s.
Definition re_match (r : re) (s : str) : option str := run r None [] s group_here.
Definition re_fullmatch (r : re) (s : str) : option str := run r None [] s group_at_end.

(** [re.sub(pattern, repl, s)] with [repl] a function of the matched text. *)
Fixpoint sub_from (fuel : nat) (r : re) (repl : str -> str)
    (prev : option N) (s : str) : str :=
  match fuel with
  | O => s
  | S fuel' =>
      match run r prev [] s group_here with
      | Some [] =>
          repl [] ++ match s with
                     | [] => []
                     | c :: s' => c :: sub_from fuel' r repl (Some c) s'
                     end
      | Some g =>
          repl g ++ sub_from fuel' r repl (match last g with Some c => Some c | None => prev end)
                    (skipn (length g) s)
      | None =>
          match s with
          | [] => []
          | c :: s' => c :: sub_from fuel' r repl (Some c) s'
          end
      end
  end.

Definition re_sub (r : re) (repl : str -> str) (s : str) : str :=
  sub_from (S (length s)) r repl None s.

End Engine.

(** ** Module constants *)

Definition az : item := IRange (ch "a") (ch "z").
Definition AZ : item := IRange (ch "A") (ch "Z").
Definition d09 : item := IRange (ch "0") (ch "9").

(** [[A-Za-z0-9+._%-]+@[A-Za-z0-9._%-]+\.[A-Za-z]{2,6}] *)
Definition EMAIL_RE : re :=
  seq [ plus (OneOf [AZ; az; d09; IChar (ch "+"); IChar (ch "."); IChar (ch "_");
                     IChar (ch "%"); IChar (ch "-")]);
        One (Lit (ch "@"));
        plus (OneOf [AZ; az; d09; IChar (ch "."); IChar (ch "_"); IChar (ch "%");
                     IChar (ch "-")]);
        One (Lit (ch "."));
        Rep (OneOf [AZ; az]) 2 (Some 6) ].

(** [\+?\d[\d ()\-]{7,}\d] *)
Definition PHONE_RE : re :=
  seq [ opt (Lit (ch "+"));
        One (Cls IDigit);
        Rep (OneOf [IDigit; IChar (ch " "); IChar (ch "("); IChar (ch ")");
                    IChar (ch "-")]) 7 None;
        One (Cls IDigit) ].

Definition SECTION_ORDER : list str :=
  [ u "Contact Information";
    u "Target Title";
    u "Professional Summary";
    u "Work Experience";
    u "Education";
    u "Skills & Interests";
    u "Certifications";
    u "Awards & Scholarships";
    u "Projects";
    u "Volunteering & Leadership";
    u "Publications" ].

(** The patterns are compiled with [re.I]; [x?] after a word is [opt]. *)
Definition HEADING_PATTERNS : list (str * re) :=
  [ (u "Contact Information", seq [ci "contact"; lit " "; ci "information"]);
    (u "Target Title", seq [ci "target"; lit " "; ci "title"]);
    (u "Professional Summary",
       alt [seq [ci "professional"; lit " "; ci "summary"]; ci "summary"; ci "profile"]);
    (u "Work Experience",
       alt [seq [ci "work"; lit " "; ci "experience"]; ci "experience";
            seq [ci "professional"; lit " "; ci "experience"]]);
    (u "Education", ci "education");
    (u "Skills & Interests",
       alt [seq [ci "skills"; star (Cls ISpace); alt [lit "&"; ci "and"];
                 star (Cls ISpace); ci "interests"];
            ci "skills"; ci "interests"; ci "compétences"]);
    (u "Certifications",
       alt [seq [ci "certification"; opt (LitI (ch "s"))];
            seq [ci "certificat"; opt (LitI (ch "s"))]]);
    (u "Awards & Scholarships", alt [ci "awards"; ci "scholarships"; ci "récompenses"]);
    (u "Projects",
       alt [seq [ci "project"; opt (LitI (ch "s"))]; seq [ci "projet"; opt (LitI (ch "s"))]]);
    (u "Volunteering & Leadership", alt [ci "volunteering"; ci "leadership"; ci "bénévolat"]);
    (u "Publications", seq [ci "publication"; opt (LitI (ch "s"))]) ].

(** [rf"^{pat}\s*:?\s*$"] *)
Definition heading_re (pat : re) : re :=
  seq [Bol; pat; star (Cls ISpace); opt (Lit (ch ":")); star (Cls ISpace); Eol].

Definition LOCATION_STOP : list str :=
  [ u "morocco"; u "maroc"; u "rabat"; u "casablanca";
    u "tanger"; u "agadir"; u "meknes"; u "fes"; u "marrakesh" ].

(** [\b(project|built|developed|created|designed)\b], compiled with [re.I] *)
Definition PROJECT_LINE_RE : re :=
  seq [ WordB;
        alt [ci "project"; ci "built"; ci "developed"; ci "created"; ci "designed"];
        WordB ].

(** [\{.*\}], compiled with [re.S] *)
Definition JSON_SPAN_RE : re := seq [One (Lit (ch "{")); star Dot; One (Lit (ch "}"))].

(** [[._\-]+] and [([a-z])([A-Z])] of the e-mail fallback *)
Definition SEPARATORS_RE : re :=
  plus (OneOf [IChar (ch "."); IChar (ch "_"); IChar (ch "-")]).
Definition CAMEL_RE : re := seq [One (Cls az); One (Cls AZ)].

(** The replacement template [r"\1 \2"] applied to a match of [CAMEL_RE]. *)
Definition camel_repl (g : str) : str :=
  match g with
  | [a; b] => [a; ch " "; b]
  | _ => g
  end.

(** ** Effects: the requests sent to the service, the lines printed, and
    the exceptions the code can raise *)

Inductive exn :=
| KeyError (key : str)
| AttributeError.

Inductive outcome (A : Type) :=
| Return (a : A)
| Raise (e : exn).
Arguments Return {A} a.
Arguments Raise {A} e.

Record world := World {
  requests : list str;   (* prompts given to [ollama run], oldest first *)
  printed : list str     (* lines written by [print], oldest first *)
}.

Definition M (A : Type) : Type := world -> outcome A * world.

Definition ret {A} (a : A) : M A := fun w => (Return a, w).
Definition raise {A} (e : exn) : M A := fun w => (Raise e, w).
Definition bind {A B} (m : M A) (f : A -> M B) : M B :=
  fun w => match m w with
           | (Return a, w') => f a w'
           | (Raise e, w') => (Raise e, w')
           end.

#[global] Instance M_ret : MRet M := @ret.
#[global] Instance M_bind : MBind M := fun A B f m => bind m f.

Definition print (line : str) : M unit :=
  fun w => (Return tt, World (requests w) (printed w ++ [line])).

(** [d[key]] *)
Definition getitem {V} (d : gmap str V) (key : str) : M V :=
  match d !! key with
  | Some v => ret v
  | None => raise (KeyError key)
  end.

Definition quoted (s : str) : str := DQUOTE :: s ++ [DQUOTE].
Definition nonempty (s : str) : bool := negb (str_eqb s []).

Section Program.
Context `{Library}.

(** [subprocess.run(["ollama", "run", LLM_MODEL], input=prompt, ...).stdout] *)
Definition run_ollama (prompt : str) : M str :=
  fun w => (Return (ollama (length (requests w)) prompt),
            World (requests w ++ [prompt]) (printed w)).

(** *** find_sections *)

Definition marker_leb (a b : nat * str) : bool :=
  Nat.ltb (fst a) (fst b) || (Nat.eqb (fst a) (fst b) && str_leb (snd a) (snd b)).

Fixpoint insert_marker (m : nat * str) (ms : list (nat * str)) : list (nat * str) :=
  match ms with
  | [] => [m]
  | x :: ms' => if marker_leb m x then m :: ms else x :: insert_marker m ms'
  end.

(** [markers.sort()] *)
Definition sort_markers (ms : list (nat * str)) : list (nat * str) :=
  fold_right insert_marker [] ms.

Definition is_heading (pat : re) (ln : str) : bool :=
  match re_match (heading_re pat) ln with Some _ => true | None => false end.

(** The names appended for one line, in the order of [HEADING_PATTERNS]. *)
Definition headings_of (ln : str) : list str :=
  List.map fst (List.filter (fun np => is_heading (snd np) ln) HEADING_PATTERNS).

Fixpoint scan_markers (i : nat) (lines : list str) : list (nat * str) :=
  match lines with
  | [] => []
  | ln :: rest => List.map (fun name => (i, name)) (headings_of ln) ++ scan_markers (S i) rest
  end.

Definition section_body (lines : list str) (start stop : nat) : str :=
  strip (join [LF] (slice lines (start + 1) stop)).

(** [sections[name] = "\n".join(lines[start + 1 : end]).strip()] *)
Definition assign_body (lines : list str) (sections : gmap str str)
    (span : nat * str * nat) : gmap str str :=
  let '((start, name), stop) := span in
  <[name := section_body lines start stop]> sections.

Definition find_sections (text : str) : gmap str str :=
  let lines := List.map strip (splitlines text) in
  let markers := sort_markers (scan_markers 0 lines) in
  let sections : gmap str str := list_to_map (List.map (fun k => (k, [])) SECTION_ORDER) in
  fold_left (assign_body lines)
    (combine markers (List.map fst (tl markers) ++ [length lines]))
    sections.

(** *** extract_contact *)

Record ContactRecord := Contact {
  First_Name : str;
  Last_Name : str;
  Email : str;
  Phone : str;
  Location : str
}.

(** [next((m.group() for ln in lines if (m := r.search(ln))), '')] *)
Fixpoint first_group (r : re) (lines : list str) : str :=
  match lines with
  | [] => []
  | ln :: rest =>
      match re_search r ln with
      | Some g => g
      | None => first_group r rest
      end
  end.

Definition found (r : re) (ln : str) : bool :=
  match re_search r ln with Some _ => true | None => false end.

Definition is_name_line (ln : str) : bool :=
  Nat.leb 2 (length (split_ws ln)) && Nat.leb (length (split_ws ln)) 5
  && negb (found EMAIL_RE ln) && negb (found PHONE_RE ln).

(** [max(ents, key=len)]: the first entity of greatest length. *)
Fixpoint max_by_len (best : str) (rest : list str) : str :=
  match rest with
  | [] => best
  | e :: rest' => if Nat.ltb (length best) (length e) then max_by_len e rest'
                  else max_by_len best rest'
  end.

Definition in_list (s : str) (l : list str) : bool := existsb (str_eqb s) l.

Definition person_ents (text : str) : list str :=
  List.map fst
    (List.filter
       (fun ent => str_eqb (snd ent) (u "PERSON")
                   && Nat.leb 2 (length (split_ws (fst ent)))
                   && negb (existsb (fun tok => in_list (str_lower tok) LOCATION_STOP)
                                    (split_ws (fst ent))))
       (nlp text)).

Definition contact_lines (text : str) : list str :=
  List.filter nonempty (List.map strip (firstn 30 (splitlines text))).

Definition extract_contact (text : str) : ContactRecord :=
  let lines := contact_lines text in
  let email := first_group EMAIL_RE lines in
  let phone := first_group PHONE_RE lines in
  let name_line := List.hd [] (List.filter is_name_line (firstn 10 lines)) in
  let human :=
    if nonempty name_line then HumanName name_line
    else
      match person_ents (join (u " ") (firstn 15 lines)) with
      | e :: ents => HumanName (max_by_len e ents)
      | [] =>
          let local := before (ch "@") email in
          let local := re_sub SEPARATORS_RE (fun _ => u " ") local in
          let local := re_sub CAMEL_RE camel_repl local in
          HumanName local
      end in
  let location :=
    List.hd []
      (List.map fst
         (List.filter (fun ent => in_list (snd ent) [u "GPE"; u "LOC"])
                      (nlp (join (u " ") (firstn 12 lines))))) in
  {| First_Name := str_title (fst human);
     Last_Name := str_title (snd human);
     Email := email;
     Phone := phone;
     Location := location |}.

(** *** call_llm *)

Definition sentinel (section : str) : json :=
  if negb (str_eqb section (u "Professional Summary")) then JArr [] else JStr [].

Definition PROMPTS : list (str * str) :=
  [ (u "Professional Summary",
       u "Extract one ≤70‑word professional summary." ++ [LF]
       ++ u "Return JSON: { " ++ quoted (u "Professional Summary") ++ u ": "
       ++ quoted (u "...") ++ u " }");
    (u "Skills & Interests",
       u "Group skills into" ++ [LF]
       ++ u "[" ++ quoted (u "Programming Languages") ++ u ","
       ++ quoted (u "Frameworks & Libraries") ++ u ","
       ++ quoted (u "Tools & Platforms") ++ u ","
       ++ quoted (u "Soft Skills") ++ u "," ++ quoted (u "Languages") ++ u "]." ++ [LF]
       ++ u "Return JSON exactly in that form.");
    (u "Certifications",
       u "List each certification with fields" ++ [LF]
       ++ quoted (u "Certificate") ++ u "," ++ quoted (u "Issuer") ++ u ","
       ++ quoted (u "Date") ++ u " (Date may be empty)." ++ [LF]
       ++ u "Return JSON: { " ++ quoted (u "Certifications") ++ u ": [ {...}, ... ] }");
    (u "Projects",
       u "For each project provide " ++ quoted (u "Title") ++ u ","
       ++ quoted (u "Description") ++ u "," ++ quoted (u "Technologies") ++ u "." ++ [LF]
       ++ u "Return JSON: { " ++ quoted (u "Projects") ++ u ": [...] }") ].

Fixpoint lookup_prompt (table : list (str * str)) (section : str) : option str :=
  match table with
  | [] => None
  | (k, v) :: rest => if str_eqb k section then Some v else lookup_prompt rest section
  end.

Definition prompt_for (section : str) : str :=
  match lookup_prompt PROMPTS section with
  | Some p => p
  | None =>
      u "Extract structured data for " ++ quoted section
      ++ u ". Return JSON: { " ++ quoted section ++ u ": [...] }"
  end.

Definition full_prompt (section body : str) : str :=
  prompt_for section ++ [LF; LF] ++ u "---" ++ [LF] ++ body ++ [LF] ++ u "---".

(** [parsed.get(section, parsed)]; only a dict has [get]. *)
Definition get_or_self (parsed : json) (section : str) : M json :=
  match parsed with
  | JObj members => ret (dict_get members section parsed)
  | _ => raise AttributeError
  end.

Definition warn_no_json (section : str) : str :=
  u "⚠️  " ++ section ++ u ": no JSON found in LLM output.".
Definition warn_invalid_json (section : str) : str :=
  u "⚠️  " ++ section ++ u ": invalid JSON.".

Definition call_llm (section body : str) : M json :=
  if negb (nonempty (strip body)) then ret (sentinel section)
  else
    stdout ← run_ollama (full_prompt section body);
    match re_search JSON_SPAN_RE stdout with
    | None => print (warn_no_json section);; ret (sentinel section)
    | Some span =>
        match json_loads span with
        | Some parsed => get_or_self parsed section
        | None => print (warn_invalid_json section);; ret (sentinel section)
        end
    end.

(** *** ensure_projects, ensure_certifications

    Both mutate [output] in place; here they return the dict they leave. *)

Definition is_project_line (ln : str) : bool := found PROJECT_LINE_RE ln.

Definition ensure_projects (sections : gmap str str) (output : gmap str json)
    : M (gmap str json) :=
  projects ← getitem output (u "Projects");
  if truthy projects then ret output
  else
    work ← getitem sections (u "Work Experience");
    let candidate := List.filter is_project_line (splitlines work) in
    match candidate with
    | [] => ret output
    | _ =>
        parsed ← call_llm (u "Projects") (join [LF] candidate);
        if truthy parsed then ret (<[u "Projects" := parsed]> output)
        else ret output
    end.

Definition is_cert_line (ln : str) : bool := contains (u "cert") (str_lower ln).

Definition ensure_certifications (sections : gmap str str) (output : gmap str json)
    : M (gmap str json) :=
  certs ← getitem output (u "Certifications");
  if truthy certs then ret output
  else
    let lines :=
      List.filter is_cert_line (splitlines (default [] (sections !! u "Skills & Interests")))
      ++ List.filter is_cert_line (splitlines (default [] (sections !! u "Work Experience"))) in
    match lines with
    | [] => ret output
    | _ =>
        parsed ← call_llm (u "Certifications") (join [LF] lines);
        if truthy parsed then ret (<[u "Certifications" := parsed]> output)
        else ret output
    end.

(** *** The module body after the helpers *)

Definition contact_json (c : ContactRecord) : json :=
  JObj [ (u "First Name", JStr (First_Name c));
         (u "Last Name", JStr (Last_Name c));
         (u "Email", JStr (Email c));
         (u "Phone", JStr (Phone c));
         (u "Location", JStr (Location c)) ].

(** [for sec in names: out[sec] = call_llm(sec, sections[sec])] *)
Fixpoint extract_each (names : list str) (sections : gmap str str)
    (out : gmap str json) : M (gmap str json) :=
  match names with
  | [] => ret out
  | sec :: rest =>
      body ← getitem sections sec;
      v ← call_llm sec body;
      extract_each rest sections (<[sec := v]> out)
  end.

(** [for sec in names: out[sec] = out.get(sec, [])] *)
Definition fill_placeholders (names : list str) (out : gmap str json) : gmap str json :=
  fold_left (fun out sec => <[sec := default (JArr []) (out !! sec)]> out) names out.

(** [pdf_text] is what [extract_text(str(PDF_PATH))] returned. *)
Definition main (pdf_text : str) : M (gmap str json) :=
  let raw := remove_char CR pdf_text in
  let sections := find_sections raw in
  let out : gmap str json := ∅ in
  contact_body ← getitem sections (u "Contact Information");
  let out := <[u "Contact Information" :=
                 contact_json (if nonempty contact_body then extract_contact contact_body
                               else extract_contact raw)]> out in
  title_body ← getitem sections (u "Target Title");
  let tt_lines := List.filter (fun ln => nonempty (strip ln)) (splitlines title_body) in
  let out := <[u "Target Title" := JStr (List.hd [] tt_lines)]> out in
  summary_body ← getitem sections (u "Professional Summary");
  summary ← call_llm (u "Professional Summary") summary_body;
  let out := <[u "Professional Summary" := summary]> out in
  out ← extract_each [u "Work Experience"; u "Education"] sections out;
  out ← extract_each [u "Skills & Interests"; u "Certifications"; u "Projects"] sections out;
  out ← ensure_projects sections out;
  out ← ensure_certifications sections out;
  ret (fill_placeholders
         [u "Awards & Scholarships"; u "Volunteering & Leadership"; u "Publications"] out).

End Program.

(** ** A scripted library for running the model

    The character tables restricted to Latin-1 letters and ASCII digits, a
    name parser that takes the first and the last token, an entity
    recogniser and a JSON decoder that answer from a table, and a service
    that replies from a script.  On ASCII text the tables agree with
    Unicode's; the recogniser, the decoder and the service say only what
    they are scripted to say. *)

Module Sample.
Local Open Scope N_scope.

Definition lower1 (c : N) : N :=
  if ((65 <=? c) && (c <=? 90)) || ((192 <=? c) && (c <=? 222) && negb (c =? 215))
  then c + 32 else c.

Definition upper1 (c : N) : N :=
  if (97 <=? c) && (c <=? 122) then c - 32 else c.

Definition isdecimal (c : N) : bool := (48 <=? c) && (c <=? 57).

Definition isalpha (c : N) : bool :=
  ((65 <=? c) && (c <=? 90)) || ((97 <=? c) && (c <=? 122)).

Definition isalnum (c : N) : bool := isdecimal c || isalpha c.

Definition ieq (x c : N) : bool := lower1 x =? lower1 c.

Fixpoint title_from (previous_is_cased : bool) (s : str) : str :=
  match s with
  | [] => []
  | c :: s' => (if previous_is_cased then lower1 c else upper1 c) :: title_from (isalpha c) s'
  end.

Definition title (s : str) : str := title_from false s.

Definition human_name (s : str) : str * str :=
  match split_ws s with
  | [] => ([], [])
  | [w] => (w, [])
  | w :: ws => (w, List.last ws [])
  end.

Fixpoint assoc {V} (table : list (str * V)) (key : str) : option V :=
  match table with
  | [] => None
  | (k, v) :: rest => if str_eqb k key then Some v else assoc rest key
  end.

Definition scripted (entities : list (str * list (str * str)))
    (documents : list (str * json)) (replies : list str) : Library :=
  {| uni_isdecimal := isdecimal;
     uni_isalnum := isalnum;
     uni_ieq := ieq;
     str_lower := List.map lower1;
     str_title := title;
     HumanName := human_name;
     nlp := fun text => default [] (assoc entities text);
     json_loads := assoc documents;
     ollama := fun n _ => nth n replies [] |}.

Definition w0 : world := World [] [].

(** Nothing recognised, nothing decoded, empty replies. *)
Definition plain : Library := scripted [] [] [].


(** One object with one project; the service wraps it in commentary. *)
Definition projects_doc : str :=
  u "{" ++ quoted (u "Projects") ++ u ": [" ++ quoted (u "Compiler") ++ u "]}".
Definition projects_value : json := JObj [(u "Projects", JArr [JStr (u "Compiler")])].
Definition polite_lib : Library :=
  scripted [] [(projects_doc, projects_value)]
           [u "Here it is: " ++ projects_doc ++ u " Anything else?"].

Definition work_body : str :=
  u "Acme Corp 2019-2023" ++ [LF] ++ u "Built a compiler for the billing team" ++ [LF]
  ++ u "Managed five engineers" ++ [LF] ++ u "Designed the release process".

Definition work_sections : gmap str str := <[u "Work Experience" := work_body]> ∅.
Definition no_projects : gmap str json := <[u "Projects" := JArr []]> ∅.
Definition with_projects : gmap str json := <[u "Projects" := JArr [JStr (u "Compiler")]]> ∅.
Definition with_certifications : gmap str json :=
  <[u "Certifications" := JArr [JStr (u "AWS")]]> ∅.

Definition resume : str :=
  u "John Smith" ++ [LF] ++ u "john.smith@example.org" ++ [LF] ++ u "+212 6 12 34 56 78"
  ++ [LF] ++ u "Education" ++ [LF] ++ u "BSc Rabat 2015" ++ [LF]
  ++ u "Skills:" ++ [LF] ++ u "Python, Rocq" ++ [LF]
  ++ u "EDUCATION" ++ [LF] ++ u "MSc Paris 2017" ++ [LF] ++ u "PhD Lyon 2021".

End Sample.

(** ** What a pattern denotes

    [matches r prev w next]: the pattern [r] matches the characters [w] when
    the character before them is [prev] and the rest of the subject after
    them is [next]. *)

Section Denotation.
Context `{Library}.

Definition last_of (prev : option N) (w : str) : option N :=
  match last w with Some c => Some c | None => prev end.

Inductive matches : re -> option N -> str -> str -> Prop :=
| matches_eps p n : matches Eps p [] n
| matches_one a c p n : atom_ok a c = true -> matches (One a) p [c] n
| matches_cat r1 r2 p w1 w2 n :
    matches r1 p w1 (w2 ++ n) -> matches r2 (last_of p w1) w2 n ->
    matches (Cat r1 r2) p (w1 ++ w2) n
| matches_alt_l r1 r2 p w n : matches r1 p w n -> matches (Alt r1 r2) p w n
| matches_alt_r r1 r2 p w n : matches r2 p w n -> matches (Alt r1 r2) p w n
| matches_rep a lo hi p w n :
    Forall (fun c => atom_ok a c = true) w ->
    lo <= length w -> (forall h, hi = Some h -> length w <= h) ->
    matches (Rep a lo hi) p w n
| matches_bol n : matches Bol None [] n
| matches_eol p n : n = [] \/ n = [LF] -> matches Eol p [] n
| matches_wordb p n : xorb (isword p) (isword (head n)) = true -> matches WordB p [] n.

(** Patterns without [^], [$] and [\b]. *)
Fixpoint anchor_free (r : re) : bool :=
  match r with
  | Eps | One _ | Rep _ _ _ => true
  | Cat r1 r2 | Alt r1 r2 => anchor_free r1 && anchor_free r2
  | Bol | Eol | WordB => false
  end.

(** Patterns that can match without consuming a character. *)
Fixpoint nullable (r : re) : bool :=
  match r with
  | Eps | Bol | Eol | WordB => true
  | One _ => false
  | Cat r1 r2 => nullable r1 && nullable r2
  | Alt r1 r2 => nullable r1 || nullable r2
  | Rep _ lo _ => Nat.eqb lo 0
  end.

(** Every character an atom accepts satisfies [P]. *)
Definition atom_within (P : N -> bool) (a : atom) : Prop :=
  forall c, atom_ok a c = true -> P c = true.

(** Patterns without anchors all of whose characters satisfy [P]. *)
Fixpoint confined (P : N -> bool) (r : re) : Prop :=
  match r with
  | Eps => True
  | One a | Rep a _ _ => atom_within P a
  | Cat r1 r2 | Alt r1 r2 => confined P r1 /\ confined P r2
  | Bol | Eol | WordB => False
  end.

End Denotation.

(** ** Specification-side definitions *)

Section Spec.
Context `{Library}.

(** The stripped lines [find_sections] works on. *)
Definition doc_lines (text : str) : list str := List.map strip (splitlines text).

(** No line of the document is a heading of any section. *)
Definition no_heading (text : str) : Prop :=
  Forall (fun ln => Forall (fun np => is_heading (snd np) ln = false) HEADING_PATTERNS)
         (doc_lines text).

End Spec.


Section SpecSpans.
Context `{Library}.

(** Line [k] of the document is a heading of section [name]. *)
Definition heading_at (lines : list str) (k : nat) (name : str) : Prop :=
  name ∈ headings_of (nth k lines []).

(** Python's [<] on strings. *)
Definition str_ltb (a b : str) : bool := negb (str_leb b a).

(** The first line at or after position [k] that is a heading of any
    section, or the number of lines when there is none; [rest] are the
    lines from position [k] on. *)
Fixpoint next_heading_line (k : nat) (rest : list str) : nat :=
  match rest with
  | [] => k
  | ln :: rest' =>
      match headings_of ln with
      | [] => next_heading_line (S k) rest'
      | _ :: _ => k
      end
  end.

(** Where the span of the heading [name] at line [j] stops: at the next
    heading in the order of the sorted markers, that is at line [j] itself
    when that line is also a heading of a section whose name sorts after
    [name], and otherwise at the next heading line or at the end of the
    document. *)
Definition span_end (lines : list str) (j : nat) (name : str) : nat :=
  if existsb (str_ltb name) (headings_of (nth j lines []))
  then j
  else next_heading_line (S j) (skipn (S j) lines).

Definition marker_le (a b : nat * str) : Prop := marker_leb a b = true.

(** [zip(markers, markers[1:] + [(len(lines), None)])], one marker at a
    time. *)
Fixpoint pair_up (ms : list (nat * str)) (len : nat) : list (nat * str * nat) :=
  match ms with
  | [] => []
  | m :: ms' => (m, List.hd len (List.map fst ms')) :: pair_up ms' len
  end.

End SpecSpans.

Section SpecContact.
Context `{Library}.

(** The first text matched by [r] in the first line that has one. *)
Fixpoint first_found (r : re) (lines : list str) : option str :=
  match lines with
  | [] => None
  | ln :: rest =>
      match re_search r ln with
      | Some g => Some g
      | None => first_found r rest
      end
  end.

(** The first match of the e-mail pattern in document order:
    [EMAIL_RE.search(text).group()]. *)
Definition first_email (text : str) : option str := re_search EMAIL_RE text.

(** Printable ASCII: the only characters the e-mail pattern accepts. *)
Definition printable (c : N) : bool := N.leb 33 c && N.leb c 126.

End SpecContact.

(** A syntactic check that a pattern has no anchor and accepts printable ASCII
    only. *)
Definition item_printable (i : item) : bool :=
  match i with
  | IChar c => printable c
  | IRange lo hi => printable lo && printable hi
  | IDigit | ISpace => false
  end.

Definition atom_printable (a : atom) : bool :=
  match a with
  | Lit c => printable c
  | Cls i => item_printable i
  | OneOf items => forallb item_printable items
  | LitI _ | Dot => false
  end.

Fixpoint re_printable (r : re) : bool :=
  match r with
  | Eps => true
  | One a | Rep a _ _ => atom_printable a
  | Cat r1 r2 | Alt r1 r2 => re_printable r1 && re_printable r2
  | Bol | Eol | WordB => false
  end.

(** The document of the counterexample to C1: thirty empty lines, then a
    line with an address. *)
Definition late_email_doc : str := repeat LF 30 ++ u "a@b.co".

Section SpecName.
Context `{Library}.

(** The explicit name line: the first of the first ten lines of the window
    that has 2 to 5 tokens and no e-mail or phone match. *)
Definition name_line_of (text : str) : option str :=
  head (List.filter is_name_line (firstn 10 (contact_lines text))).

(** No strategy resolves a name: no name line, no qualifying PERSON entity,
    no e-mail address. *)
Definition unresolvable (text : str) : Prop :=
  name_line_of text = None
  /\ person_ents (join (u " ") (firstn 15 (contact_lines text))) = []
  /\ Email (extract_contact text) = [].

(** The non-empty lines of a text, stripped, wherever they are. *)
Definition nonempty_lines (text : str) : list str :=
  List.filter nonempty (List.map strip (splitlines text)).

(** Every token of the line is a location stop word. *)
Definition all_location_words (ln : str) : bool :=
  forallb (fun tok => in_list (str_lower tok) LOCATION_STOP) (split_ws ln).

(** The document of the counterexample to C9: thirty empty lines, then a
    line of two location words. *)
Definition late_name_doc : str := repeat LF 30 ++ u "Rabat Morocco".

End SpecName.

Section SpecService.
Context `{Library}.

(** The body is empty or whitespace-only ([not body.strip()]). *)
Definition blank (body : str) : Prop := strip body = [].

(** [json.loads] of a text that begins with a brace is a dict. *)
Definition decodes_objects : Prop :=
  forall (s : str) (v : json),
    json_loads (ch "{" :: s) = Some v -> exists members, v = JObj members.

(** What is left of [\{.*\}] once [.*] has run: the closing brace. *)
Definition after_span : option N -> str -> str -> option str :=
  fun p a s => run (Cat (One (Lit (ch "}"))) Eps) p a s group_here.

End SpecService.

Section SpecEnrichment.
Context `{Library}.

(** The lines of the Work Experience body that carry a project keyword. *)
Definition project_lines (work : str) : list str :=
  List.filter is_project_line (splitlines work).

(** Running a computation in a world gives a value, and the value satisfies
    [Q]; and: whenever it gives a value, the value satisfies [Q]. *)
Definition yields {A} (m : M A) (w : world) (Q : A -> Prop) : Prop :=
  exists a w', m w = (Return a, w') /\ Q a.
Definition ensures {A} (m : M A) (w : world) (Q : A -> Prop) : Prop :=
  forall a w', m w = (Return a, w') -> Q a.

Definition PLACEHOLDERS : list str :=
  [u "Awards & Scholarships"; u "Volunteering & Leadership"; u "Publications"].

(** [out'] has every key of [out], with the same value except at [key]. *)
Definition same_but (key : str) (out out' : gmap str json) : Prop :=
  (forall k, k <> key -> out' !! k = out !! k)
  /\ (forall k, is_Some (out !! k) -> is_Some (out' !! k)).

End SpecEnrichment.

(** ** Definitions for the further properties of the analyzer *)

Section SpecEffects.
Context `{Library}.

(** From [w] to [w'] the requests [rs] were sent and the lines [ps] printed,
    and nothing else happened to the log. *)
Definition appended (w w' : world) (rs ps : list str) : Prop :=
  requests w' = requests w ++ rs /\ printed w' = printed w ++ ps.

(** Whatever the outcome, the computation sends at most [n] requests and
    prints at most one line per request. *)
Definition sends_at_most {A} (n : nat) (m : M A) : Prop :=
  forall w, exists rs ps,
    appended w (snd (m w)) rs ps /\ length ps <= length rs /\ length rs <= n.

(** The computation does not raise [KeyError]; when it returns, the value
    satisfies [Q]. *)
Definition no_key_error {A} (m : M A) (w : world) (Q : A -> Prop) : Prop :=
  match fst (m w) with
  | Return a => Q a
  | Raise AttributeError => True
  | Raise (KeyError _) => False
  end.

(** The lines [ensure_certifications] gives to the service: those of the
    Skills & Interests body that mention a certificate, then those of the
    Work Experience body; a section that is missing counts as empty. *)
Definition cert_lines (sections : gmap str str) : list str :=
  List.filter is_cert_line (splitlines (default [] (sections !! u "Skills & Interests")))
  ++ List.filter is_cert_line (splitlines (default [] (sections !! u "Work Experience"))).

(** The value [main] stores under Target Title. *)
Definition target_title (body : str) : str :=
  List.hd [] (List.filter (fun ln => nonempty (strip ln)) (splitlines body)).

End SpecEffects.

Section SpecImproved.
Context `{Library}.

(** [out'] is [out], or [out] with a falsy value under [key] replaced by a
    truthy one. *)
Definition improved (key : str) (out out' : gmap str json) : Prop :=
  out' = out
  \/ exists old v, out !! key = Some old /\ truthy old = false /\ truthy v = true
                   /\ out' = <[key := v]> out.

End SpecImproved.

Section SpecEntities.
Context `{Library}.

(** The text given to the entity recogniser for the name: the first fifteen
    lines of the window, joined with spaces. *)
Definition person_text (text : str) : str := join (u " ") (firstn 15 (contact_lines text)).

(** No token of the entity is a location stop word. *)
Definition no_location_word (ent : str) : Prop :=
  Forall (fun tok => in_list (str_lower tok) LOCATION_STOP = false) (split_ws ent).

End SpecEntities.

Section SpecEmailName.
Context `{Library}.

(** The text the e-mail fallback gives to the name parser: the part of the
    address before the first [@], runs of separators replaced by a space and
    a space put between a lower-case and an upper-case letter. *)
Definition email_words (email : str) : str :=
  re_sub CAMEL_RE camel_repl
    (re_sub SEPARATORS_RE (fun _ => u " ") (before (ch "@") email)).

(** [c] is one of the separators of [SEPARATORS_RE]. *)
Definition is_separator (c : N) : bool :=
  atom_ok (OneOf [IChar (ch "."); IChar (ch "_"); IChar (ch "-")]) c.

End SpecEmailName.

(** ** The consumer of the record: load_inputs of question_generator.py

    [load_inputs] reads the record back with [json.loads] and builds the
    candidate overview.  Its arguments here are the decoded record and the
    text of the job offer; [py_repr] is [repr] on the decoded values that
    are not strings, which an f-string prints for them. *)

Module QuestionGenerator.

Inductive error :=
| KeyError (key : json)   (* a dict subscripted with a key it lacks *)
| TypeError
| IndexError
| AttributeError
| SliceOfDict.            (* [d[:n]] on a dict: TypeError (unhashable slice)
                             before Python 3.12, KeyError from 3.12 on *)

Inductive result (A : Type) :=
| Ok (a : A)
| Raised (e : error).
Arguments Ok {A} a.
Arguments Raised {A} e.

#[global] Instance result_ret : MRet result := @Ok.
#[global] Instance result_bind : MBind result :=
  fun A B f m => match m with Ok a => f a | Raised e => Raised e end.

Fixpoint dict_find (members : list (str * json)) (key : str) : option json :=
  match members with
  | [] => None
  | (k, v) :: rest => if str_eqb k key then Some v else dict_find rest key
  end.

(** [v[key]] for a string [key] *)
Definition subscript (v : json) (key : str) : result json :=
  match v with
  | JObj members =>
      match dict_find members key with
      | Some x => Ok x
      | None => Raised (KeyError (JStr key))
      end
  | _ => Raised TypeError
  end.

(** [v.get(key, default)]: only a dict has [get]. *)
Definition get (v : json) (key : str) (default : json) : result json :=
  match v with
  | JObj members => Ok (dict_get members key default)
  | _ => Raised AttributeError
  end.

(** [v[:n]] *)
Definition slice_to (n : nat) (v : json) : result json :=
  match v with
  | JStr s => Ok (JStr (firstn n s))
  | JArr items => Ok (JArr (firstn n items))
  | JObj _ => Raised SliceOfDict
  | _ => Raised TypeError
  end.

(** [v[0]]; the keys of a decoded dict are strings. *)
Definition first_item (v : json) : result json :=
  match v with
  | JArr (x :: _) => Ok x
  | JStr (c :: _) => Ok (JStr [c])
  | JArr [] | JStr [] => Raised IndexError
  | JObj _ => Raised (KeyError (JInt 0))
  | _ => Raised TypeError
  end.

Fixpoint strings_of (items : list json) : option (list str) :=
  match items with
  | [] => Some []
  | JStr s :: rest => option_map (cons s) (strings_of rest)
  | _ :: _ => None
  end.

(** [sep.join(v)]: the items of a list must be strings, a string gives its
    characters and a dict its keys. *)
Definition join_items (sep : str) (v : json) : result str :=
  match v with
  | JArr items =>
      match strings_of items with
      | Some parts => Ok (join sep parts)
      | None => Raised TypeError
      end
  | JStr s => Ok (join sep (List.map (fun c => [c]) s))
  | JObj members => Ok (join sep (List.map fst members))
  | _ => Raised TypeError
  end.

Section LoadInputs.
Variable py_repr : json -> str.

(** What an f-string prints for a decoded value. *)
Definition py_str (v : json) : str :=
  match v with
  | JStr s => s
  | _ => py_repr v
  end.

Definition load_inputs (resume_data : json) (job_offer : str) : result (str * str) :=
  contact ← subscript resume_data (u "Contact Information");
  first ← subscript contact (u "First Name");
  contact ← subscript resume_data (u "Contact Information");
  last ← subscript contact (u "Last Name");
  let name := py_str first ++ u " " ++ py_str last in
  summary ← get resume_data (u "Professional Summary") (JStr []) ≫= slice_to 300;
  last_job ← get resume_data (u "Work Experience") (JArr [JObj []]) ≫= first_item;
  interests ← get resume_data (u "Skills & Interests") (JObj []);
  languages ← get interests (u "Programming Languages") (JArr []) ≫= slice_to 6;
  skills ← join_items (u ", ") languages;
  position ← get last_job (u "Position") (JStr []);
  company ← get last_job (u "Company") (JStr []);
  let resume_overview :=
    u "Name: " ++ name ++ [LF]
    ++ u "Summary: " ++ py_str summary ++ [LF]
    ++ u "Latest role: " ++ py_str position ++ u " at " ++ py_str company ++ [LF]
    ++ u "Key skills: " ++ skills in
  mret (resume_overview, firstn 4000 job_offer).

End LoadInputs.

(** The record as [json.loads] reads it back from the file the analyzer
    writes with [json.dumps]: an object with the keys and values of [out]. *)
Definition record_json (out : gmap str json) : json := JObj (map_to_list out).

End QuestionGenerator.

(** ** More data for running the model *)

Module Cases.

(** Two lines, neither of them a heading. *)
Definition unstructured : str := u "John Smith" ++ [LF] ++ u "Rabat".

(** A Skills & Interests body with one line about a certificate. *)
Definition cert_sections : gmap str str :=
  <[u "Skills & Interests" := u "AWS Certified Developer" ++ [LF] ++ u "Python"]> ∅.
Definition no_certifications : gmap str json := <[u "Certifications" := JArr []]> ∅.

(** One line of more than five words, in which the recogniser is scripted
    to find two persons and a place. *)
Definition team_line : str :=
  u "Team page of John Smith and Maria Garcia Lopez in Rabat today".
Definition team_lib : Library :=
  Sample.scripted
    [(team_line, [(u "John Smith", u "PERSON"); (u "Maria Garcia Lopez", u "PERSON");
                  (u "Rabat", u "GPE")])]
    [] [].

(** A window that holds an address and nothing else. *)
Definition address_only : str := u "jane.doe-smith@example.org".

(** [repr] is not needed where the overview is not built. *)
Definition no_repr : json -> str := fun _ => [].

End Cases.

(** ** Proofs *)

(** Two keys written as literals differ. *)
Ltac key_ne := let E := fresh in intros E; vm_compute in E; discriminate E.

Lemma nonempty_false (s : str) : nonempty s = false <-> s = [].
Proof.
  unfold nonempty, str_eqb. rewrite negb_false_iff, bool_decide_eq_true. reflexivity.
Qed.

Lemma nonempty_true (s : str) : nonempty s = true <-> s <> [].
Proof.
  unfold nonempty, str_eqb. rewrite negb_true_iff, bool_decide_eq_false. reflexivity.
Qed.


(** *** The matcher against the denotation *)

Section Matcher.
Context `{Library}.

Lemma last_of_nil (p : option N) : last_of p [] = p.
Proof. reflexivity. Qed.

Lemma last_of_cons (p : option N) (c : N) (w : str) :
  last_of p (c :: w) = last_of (Some c) w.
Proof.
  unfold last_of. destruct w as [|d w]; [reflexivity|].
  change (last (c :: d :: w)) with (last (d :: w)).
  destruct (last (d :: w)) eqn:E; [reflexivity|].
  apply last_None in E. discriminate E.
Qed.

Lemma last_of_app (p : option N) (w1 w2 : str) :
  last_of p (w1 ++ w2) = last_of (last_of p w1) w2.
Proof.
  revert p. induction w1 as [|c w1 IH]; intros p; [reflexivity|].
  rewrite <- app_comm_cons, !last_of_cons. apply IH.
Qed.

Lemma rev_cons_app (c : N) (w acc : str) : rev (c :: w) ++ acc = rev w ++ c :: acc.
Proof. simpl. rewrite <- app_assoc. reflexivity. Qed.

Lemma rep_sound {R} (a : atom) (s : str) :
  forall (lo : nat) (hi : option nat) (p : option N) (acc : str)
         (k : option N -> str -> str -> option R) (x : R),
  rep a lo hi p acc s k = Some x ->
  exists w rest, s = w ++ rest /\ Forall (fun c => atom_ok a c = true) w
    /\ lo <= length w /\ (forall h, hi = Some h -> length w <= h)
    /\ k (last_of p w) (rev w ++ acc) rest = Some x.
Proof.
  assert (Hstop : forall lo hi p acc s0 (k : option N -> str -> str -> option R) x,
    match lo with O => k p acc s0 | S _ => None end = Some x ->
    exists w rest, s0 = w ++ rest /\ Forall (fun c => atom_ok a c = true) w
      /\ lo <= length w /\ (forall h, hi = Some h -> length w <= h)
      /\ k (last_of p w) (rev w ++ acc) rest = Some x).
  { intros lo hi p acc s0 k x E. destruct lo; [|discriminate].
    exists [], s0. repeat split; auto. simpl. intros. lia. }
  induction s as [|c s IH]; intros lo hi p acc k x E; simpl in E.
  - apply Hstop, E.
  - destruct (atom_ok a c && more hi) eqn:Hc; [|apply Hstop, E].
    apply andb_prop in Hc as [Hok Hmore].
    destruct (rep a (Nat.pred lo) (option_map Nat.pred hi) (Some c) (c :: acc) s k)
      as [y|] eqn:Er; [|apply Hstop, E].
    injection E as ->.
    destruct (IH _ _ _ _ _ _ Er) as (w & rest & -> & Hall & Hlo & Hhi & Hk).
    exists (c :: w), rest. rewrite last_of_cons, rev_cons_app.
    repeat split; auto.
    + simpl. lia.
    + intros h ->. simpl in *. destruct h; [discriminate|].
      specialize (Hhi h eq_refl). lia.
Qed.

Lemma rep_complete {R} (a : atom) (w : str) :
  forall (lo : nat) (hi : option nat) (p : option N) (acc rest : str)
         (k : option N -> str -> str -> option R),
  Forall (fun c => atom_ok a c = true) w ->
  lo <= length w -> (forall h, hi = Some h -> length w <= h) ->
  is_Some (k (last_of p w) (rev w ++ acc) rest) ->
  is_Some (rep a lo hi p acc (w ++ rest) k).
Proof.
  induction w as [|c w IH]; intros lo hi p acc rest k Hall Hlo Hhi Hk.
  - simpl in *. assert (lo = 0) as -> by lia.
    destruct rest as [|d rest]; simpl; [exact Hk|].
    destruct (atom_ok a d && more hi); [|exact Hk].
    destruct (rep a _ _ _ _ rest k); [eauto | exact Hk].
  - inversion Hall as [|? ? Hc Hw]; subst. simpl.
    rewrite Hc. simpl.
    assert (more hi = true) as ->.
    { destruct hi as [[|h]|]; try reflexivity. specialize (Hhi 0 eq_refl). simpl in Hhi. lia. }
    rewrite last_of_cons, rev_cons_app in Hk.
    assert (Hrec : is_Some (rep a (Nat.pred lo) (option_map Nat.pred hi) (Some c)
                              (c :: acc) (w ++ rest) k)).
    { apply IH; auto.
      - simpl in Hlo. lia.
      - intros h Eh. destruct hi as [h0|]; [|discriminate].
        injection Eh as <-. specialize (Hhi h0 eq_refl). simpl in Hhi. lia. }
    destruct Hrec as [y ->]. eauto.
Qed.

Lemma run_sound {R} (r : re) :
  forall (p : option N) (acc s : str) (k : option N -> str -> str -> option R) (x : R),
  run r p acc s k = Some x ->
  exists w rest, s = w ++ rest /\ matches r p w rest
    /\ k (last_of p w) (rev w ++ acc) rest = Some x.
Proof.
  induction r as [|a|r1 IH1 r2 IH2|r1 IH1 r2 IH2|a lo hi| | |];
    intros p acc s k x E; simpl in E.
  - exists [], s. repeat split; [constructor | exact E].
  - destruct s as [|c s]; [discriminate|].
    destruct (atom_ok a c) eqn:Hc; [|discriminate].
    exists [c], s. repeat split; [constructor; exact Hc | exact E].
  - apply IH1 in E as (w1 & rest1 & -> & M1 & E).
    apply IH2 in E as (w2 & rest & -> & M2 & E).
    exists (w1 ++ w2), rest. rewrite last_of_app, rev_app_distr, <- !app_assoc.
    repeat split; [econstructor; eassumption | exact E].
  - destruct (run r1 p acc s k) as [y|] eqn:E1.
    + injection E as ->. apply IH1 in E1 as (w & rest & -> & M1 & E).
      exists w, rest. repeat split; [apply matches_alt_l, M1 | exact E].
    + apply IH2 in E as (w & rest & -> & M2 & E).
      exists w, rest. repeat split; [apply matches_alt_r, M2 | exact E].
  - apply rep_sound in E as (w & rest & -> & Hall & Hlo & Hhi & E).
    exists w, rest. repeat split; [constructor; assumption | exact E].
  - destruct p; [discriminate|]. exists [], s. repeat split; [constructor | exact E].
  - exists [], s. repeat split; [|destruct s as [|c [|]]; try discriminate;
                                  [exact E | destruct (N.eqb c LF); [exact E | discriminate]]].
    constructor. destruct s as [|c [|]]; try discriminate; [left; reflexivity|].
    destruct (N.eqb_spec c LF); [subst; right; reflexivity | discriminate].
  - destruct (xorb (isword p) (isword (head s))) eqn:Hb; [|discriminate].
    exists [], s. repeat split; [constructor; exact Hb | exact E].
Qed.

Lemma run_complete {R} (r : re) (p : option N) (w rest : str) :
  matches r p w rest ->
  forall (acc : str) (k : option N -> str -> str -> option R),
  is_Some (k (last_of p w) (rev w ++ acc) rest) ->
  is_Some (run r p acc (w ++ rest) k).
Proof.
  induction 1 as [p n|a c p n Hc|r1 r2 p w1 w2 n _ IH1 _ IH2|r1 r2 p w n _ IH
                 |r1 r2 p w n _ IH|a lo hi p w n Hall Hlo Hhi|n|p n Hn|p n Hb];
    intros acc k Hk; simpl.
  - exact Hk.
  - rewrite Hc. exact Hk.
  - rewrite <- app_assoc. apply IH1. apply IH2.
    rewrite last_of_app, rev_app_distr, <- app_assoc in Hk. exact Hk.
  - destruct (IH acc k Hk) as [y ->]. eauto.
  - destruct (run r1 p acc (w ++ n) k); [eauto | apply IH, Hk].
  - apply rep_complete; assumption.
  - exact Hk.
  - destruct Hn as [-> | ->]; exact Hk.
  - rewrite Hb. exact Hk.
Qed.

(** A pattern without anchors matches the same words in every context. *)
Lemma matches_anchor_free (r : re) (p : option N) (w n : str) :
  matches r p w n -> anchor_free r = true -> forall p' n', matches r p' w n'.
Proof.
  induction 1; simpl; intros Hp p' n'; try discriminate;
    try (apply andb_prop in Hp as [Hp1 Hp2]).
  - constructor.
  - constructor; assumption.
  - constructor; auto.
  - apply matches_alt_l; auto.
  - apply matches_alt_r; auto.
  - constructor; assumption.
Qed.

Lemma run_group_here (r : re) (p : option N) (acc s g : str) :
  run r p acc s group_here = Some g ->
  exists w rest, s = w ++ rest /\ g = rev acc ++ w /\ matches r p w rest.
Proof.
  intros E. apply run_sound in E as (w & rest & -> & Hm & E).
  exists w, rest. repeat split; [|exact Hm].
  unfold group_here in E. injection E as <-.
  rewrite rev_app_distr, rev_involutive. reflexivity.
Qed.

(** What [search] returns is a substring of the subject that the pattern
    matches there. *)
Lemma search_from_sound (r : re) (s : str) :
  forall (p : option N) (g : str),
  search_from r p s = Some g ->
  exists pre rest p', s = pre ++ g ++ rest /\ matches r p' g rest.
Proof.
  induction s as [|c s IH]; intros p g E; simpl in E.
  - destruct (run r p [] [] group_here) as [y|] eqn:E1; [|discriminate].
    injection E as ->. apply run_group_here in E1 as (w & rest & E0 & -> & Hm).
    exists [], rest, p. simpl. split; [exact E0 | exact Hm].
  - destruct (run r p [] (c :: s) group_here) as [y|] eqn:E1.
    + injection E as ->. apply run_group_here in E1 as (w & rest & E0 & -> & Hm).
      exists [], rest, p. simpl. split; [exact E0 | exact Hm].
    + apply IH in E as (pre & rest & p' & -> & Hm).
      exists (c :: pre), rest, p'. split; [reflexivity | exact Hm].
Qed.

Lemma fullmatch_of_matches (r : re) (g : str) :
  matches r None g [] -> re_fullmatch r g = Some g.
Proof.
  intros Hm. unfold re_fullmatch.
  destruct (run_complete r None g [] Hm [] group_at_end) as [y E]; [simpl; eauto|].
  rewrite app_nil_r in E. rewrite E. f_equal.
  apply run_sound in E as (w & rest & -> & _ & E).
  unfold group_at_end in E. destruct rest; [|discriminate].
  injection E as <-. rewrite !app_nil_r, rev_involutive. reflexivity.
Qed.

(** The text found by [search] with a pattern without anchors is itself matched in
    full by the pattern. *)
Lemma search_fullmatch (r : re) (s g : str) :
  anchor_free r = true -> re_search r s = Some g -> re_fullmatch r g = Some g.
Proof.
  intros Hp E. apply search_from_sound in E as (pre & rest & p' & _ & Hm).
  apply fullmatch_of_matches. eapply matches_anchor_free; eassumption.
Qed.

End Matcher.
Section FindSections.
Context `{Library}.

Lemma init_sections_lookup (name : str) :
  name ∈ SECTION_ORDER ->
  (list_to_map (List.map (fun k => (k, [])) SECTION_ORDER) : gmap str str) !! name = Some [].
Proof.
  intros Hin.
  destruct (list_to_map (List.map (fun k => (k, [])) SECTION_ORDER) !! name) as [v|] eqn:E.
  - apply elem_of_list_to_map_2 in E. apply list_elem_of_In, in_map_iff in E.
    destruct E as (k & [= <- <-] & _). reflexivity.
  - apply not_elem_of_list_to_map_2 in E. exfalso. apply E.
    change (name ∈ ((fun k : str => (k, @nil N)) <$> SECTION_ORDER).*1).
    rewrite <- list_fmap_compose, list_fmap_id. exact Hin.
Qed.

Lemma assign_bodies_is_Some (lines : list str) (spans : list (nat * str * nat))
    (m : gmap str str) (name : str) :
  is_Some (m !! name) -> is_Some (fold_left (assign_body lines) spans m !! name).
Proof.
  revert m. induction spans as [|[[start nm] stop] spans IH]; intros m Hm; simpl.
  - exact Hm.
  - apply IH. rewrite lookup_insert. case_decide; [eauto | exact Hm].
Qed.

Lemma headings_of_nil (ln : str) :
  Forall (fun np => is_heading (snd np) ln = false) HEADING_PATTERNS -> headings_of ln = [].
Proof.
  unfold headings_of. induction 1 as [|np l E _ IH]; simpl; [reflexivity|].
  rewrite E. exact IH.
Qed.

Lemma scan_markers_nil (i : nat) (lines : list str) :
  Forall (fun ln => headings_of ln = []) lines -> scan_markers i lines = [].
Proof.
  intros Hall. revert i. induction Hall as [|ln lines E _ IH]; intros i; simpl.
  - reflexivity.
  - rewrite E, IH. reflexivity.
Qed.

Lemma find_sections_has_key (text name : str) :
  name ∈ SECTION_ORDER -> is_Some (find_sections text !! name).
Proof.
  intros Hin. unfold find_sections.
  apply assign_bodies_is_Some. rewrite init_sections_lookup by exact Hin. eauto.
Qed.

(** C4. Whatever the text, each of the eleven names of SECTION_ORDER is a
    key of the mapping find_sections returns; and when no line of the text
    matches any heading pattern, each of them is mapped to the empty
    string. *)
Theorem find_sections_total_keys (text : str) :
  Forall (fun name => is_Some (find_sections text !! name)) SECTION_ORDER
  /\ (no_heading text ->
      Forall (fun name => find_sections text !! name = Some []) SECTION_ORDER).
Proof.
  split.
  - apply Forall_forall. intros name Hin. apply find_sections_has_key, Hin.
  - intros Hno. apply Forall_forall. intros name Hin. unfold find_sections.
    fold (doc_lines text). rewrite scan_markers_nil.
    + simpl. apply init_sections_lookup, Hin.
    + unfold no_heading in Hno. eapply Forall_impl; [exact Hno|].
      intros ln. apply headings_of_nil.
Qed.

End FindSections.

(** *** The order on markers and the sort *)

Section Order.
Context `{Library}.

Lemma str_leb_refl (a : str) : str_leb a a = true.
Proof.
  induction a as [|x a IH]; simpl; [reflexivity|].
  rewrite N.eqb_refl, IH. apply orb_true_r.
Qed.

Lemma str_leb_total (a b : str) : str_leb a b = true \/ str_leb b a = true.
Proof.
  revert b. induction a as [|x a IH]; intros [|y b]; simpl; auto.
  destruct (N.ltb_spec x y); [left; reflexivity|].
  destruct (N.ltb_spec y x); [right; reflexivity|].
  assert (x = y) as -> by lia. rewrite N.eqb_refl. simpl. apply IH.
Qed.

Lemma str_leb_antisym (a b : str) : str_leb a b = true -> str_leb b a = true -> a = b.
Proof.
  revert b. induction a as [|x a IH]; intros [|y b]; simpl; try discriminate; auto.
  intros Ha Hb. apply orb_prop in Ha, Hb.
  destruct Ha as [Ha|Ha]; [apply N.ltb_lt in Ha|apply andb_prop in Ha as [Ea Ha]; apply N.eqb_eq in Ea];
    (destruct Hb as [Hb|Hb]; [apply N.ltb_lt in Hb|apply andb_prop in Hb as [Eb Hb]; apply N.eqb_eq in Eb]);
    try lia.
  subst y. f_equal. apply IH; assumption.
Qed.

Lemma str_leb_trans (a b c : str) :
  str_leb a b = true -> str_leb b c = true -> str_leb a c = true.
Proof.
  revert b c. induction a as [|x a IH]; intros [|y b] [|z c]; simpl; try discriminate; auto.
  intros H1 H2. apply orb_prop in H1, H2.
  destruct H1 as [H1|H1], H2 as [H2|H2].
  - apply N.ltb_lt in H1, H2. rewrite (proj2 (N.ltb_lt x z)) by lia. reflexivity.
  - apply andb_prop in H2 as [H2 _]. apply N.eqb_eq in H2. subst z.
    rewrite H1. reflexivity.
  - apply andb_prop in H1 as [H1 _]. apply N.eqb_eq in H1. subst y.
    rewrite H2. reflexivity.
  - apply andb_prop in H1 as [E1 H1]. apply andb_prop in H2 as [E2 H2].
    apply N.eqb_eq in E1, E2. subst y z. rewrite N.eqb_refl, (IH b c H1 H2).
    apply orb_true_r.
Qed.

Lemma marker_le_cases (a b : nat * str) :
  marker_le a b <-> fst a < fst b \/ (fst a = fst b /\ str_leb (snd a) (snd b) = true).
Proof.
  unfold marker_le, marker_leb.
  rewrite orb_true_iff, andb_true_iff, Nat.ltb_lt, Nat.eqb_eq. reflexivity.
Qed.

Lemma marker_le_total (a b : nat * str) : marker_le a b \/ marker_le b a.
Proof.
  rewrite !marker_le_cases.
  destruct (lt_eq_lt_dec (fst a) (fst b)) as [[Hlt|Heq]|Hgt]; [auto| |auto].
  destruct (str_leb_total (snd a) (snd b)); auto.
Qed.

Lemma marker_le_trans (a b c : nat * str) : marker_le a b -> marker_le b c -> marker_le a c.
Proof.
  rewrite !marker_le_cases. intros [H1|[E1 H1]] [H2|[E2 H2]]; try (left; lia).
  right. split; [lia|]. eapply str_leb_trans; eassumption.
Qed.

Lemma marker_le_antisym (a b : nat * str) : marker_le a b -> marker_le b a -> a = b.
Proof.
  rewrite !marker_le_cases. destruct a as [i n], b as [j m]. simpl.
  intros [H1|[E1 H1]] [H2|[E2 H2]]; try lia.
  subst j. f_equal. apply str_leb_antisym; assumption.
Qed.

Lemma insert_marker_perm (m : nat * str) (ms : list (nat * str)) :
  insert_marker m ms ≡ₚ m :: ms.
Proof.
  induction ms as [|x ms IH]; simpl; [reflexivity|].
  destruct (marker_leb m x); [reflexivity|].
  rewrite IH. apply Permutation_swap.
Qed.

Lemma sort_markers_perm (ms : list (nat * str)) : sort_markers ms ≡ₚ ms.
Proof.
  induction ms as [|m ms IH]; simpl; [reflexivity|].
  rewrite insert_marker_perm, IH. reflexivity.
Qed.

Lemma insert_marker_sorted (m : nat * str) (ms : list (nat * str)) :
  StronglySorted marker_le ms -> StronglySorted marker_le (insert_marker m ms).
Proof.
  induction 1 as [|x ms Hs IH Hx]; simpl.
  - repeat constructor.
  - destruct (marker_leb m x) eqn:E.
    + constructor; [constructor; assumption|]. constructor; [exact E|].
      eapply Forall_impl; [exact Hx|]. intros y Hy. eapply marker_le_trans; eassumption.
    + constructor; [exact IH|]. rewrite insert_marker_perm. constructor; [|exact Hx].
      destruct (marker_le_total m x) as [Hm|Hm]; [unfold marker_le in Hm; congruence|].
      exact Hm.
Qed.

Lemma sort_markers_sorted (ms : list (nat * str)) : StronglySorted marker_le (sort_markers ms).
Proof.
  induction ms as [|m ms IH]; simpl; [constructor | apply insert_marker_sorted, IH].
Qed.

End Order.

(** *** The markers of a document *)

Section Markers.
Context `{Library}.

Lemma headings_of_empty : headings_of [] = [].
Proof. reflexivity. Qed.

Lemma heading_names_NoDup : NoDup (List.map fst HEADING_PATTERNS).
Proof. apply (bool_decide_unpack _). vm_compute. exact I. Qed.

Lemma NoDup_filter_fst {A B} (f : A * B -> bool) (l : list (A * B)) :
  NoDup (List.map fst l) -> NoDup (List.map fst (List.filter f l)).
Proof.
  induction l as [|x l IH]; simpl; intros Hl; [constructor|].
  apply NoDup_cons in Hl as [Hx Hl]. destruct (f x); simpl; [|apply IH, Hl].
  apply NoDup_cons. split; [|apply IH, Hl].
  intros Hin. apply Hx. apply list_elem_of_In in Hin. apply list_elem_of_In.
  apply in_map_iff in Hin as (y & Ey & Hy). apply filter_In in Hy as [Hy _].
  apply in_map_iff. eauto.
Qed.

Lemma headings_of_NoDup (ln : str) : NoDup (headings_of ln).
Proof. apply NoDup_filter_fst, heading_names_NoDup. Qed.

Lemma elem_of_scan_markers (lines : list str) :
  forall (i k : nat) (n : str),
  (k, n) ∈ scan_markers i lines
  <-> i <= k /\ k - i < length lines /\ n ∈ headings_of (nth (k - i) lines []).
Proof.
  induction lines as [|ln rest IH]; intros i k n; simpl.
  - split; [intros Hin; inversion Hin | intros (_ & Hlt & _); lia].
  - rewrite elem_of_app, IH. split.
    + intros [Hin|(Hle & Hlt & Hin)].
      * apply list_elem_of_In, in_map_iff in Hin as (n' & [= <- <-] & Hin).
        rewrite Nat.sub_diag. split; [lia|]. split; [lia|]. apply list_elem_of_In, Hin.
      * split; [lia|]. split; [lia|].
        replace (k - i) with (S (k - S i)) by lia. exact Hin.
    + intros (Hle & Hlt & Hin). destruct (decide (k = i)) as [->|Hne].
      * left. rewrite Nat.sub_diag in Hin. apply list_elem_of_In, in_map_iff.
        exists n. split; [reflexivity | apply list_elem_of_In, Hin].
      * right. split; [lia|]. split; [lia|].
        replace (k - i) with (S (k - S i)) in Hin by lia. exact Hin.
Qed.

Lemma scan_markers_NoDup (lines : list str) :
  forall i : nat, NoDup (scan_markers i lines).
Proof.
  induction lines as [|ln rest IH]; intros i; simpl; [constructor|].
  apply NoDup_app. split; [|split; [|apply IH]].
  - apply (NoDup_fmap_2 (fun name => (i, name))), headings_of_NoDup.
  - intros [k n] Hin Hin2.
    apply list_elem_of_In, in_map_iff in Hin as (n' & [= <- <-] & _).
    apply elem_of_scan_markers in Hin2 as (Hle & _). lia.
Qed.

Lemma elem_of_markers (lines : list str) (k : nat) (n : str) :
  (k, n) ∈ sort_markers (scan_markers 0 lines) <-> k < length lines /\ heading_at lines k n.
Proof.
  rewrite sort_markers_perm, elem_of_scan_markers, Nat.sub_0_r. unfold heading_at.
  split; [intros (_ & ? & ?); auto | intros [? ?]; repeat split; auto; lia].
Qed.

Lemma heading_at_lt (lines : list str) (k : nat) (n : str) :
  heading_at lines k n -> k < length lines.
Proof.
  unfold heading_at. intros Hin. destruct (Nat.lt_ge_cases k (length lines)); [assumption|].
  rewrite nth_overflow in Hin by assumption. rewrite headings_of_empty in Hin.
  inversion Hin.
Qed.

Lemma combine_pair_up (ms : list (nat * str)) (len : nat) :
  combine ms (List.map fst (tl ms) ++ [len]) = pair_up ms len.
Proof.
  induction ms as [|m ms IH]; [reflexivity|].
  destruct ms as [|m' ms]; [reflexivity|].
  simpl in *. f_equal. exact IH.
Qed.

Lemma pair_up_split (ms1 ms2 : list (nat * str)) (m : nat * str) (len : nat) :
  exists spans,
    pair_up (ms1 ++ m :: ms2) len
    = spans ++ (m, List.hd len (List.map fst ms2)) :: pair_up ms2 len.
Proof.
  induction ms1 as [|a ms1 [spans E]]; simpl.
  - exists []. reflexivity.
  - rewrite E. eexists (_ :: spans). reflexivity.
Qed.

Lemma pair_up_names (ms : list (nat * str)) (len : nat) :
  List.map (fun span => snd (fst span)) (pair_up ms len) = List.map snd ms.
Proof. induction ms as [|m ms IH]; simpl; [reflexivity | f_equal; exact IH]. Qed.

Lemma assign_other (lines : list str) (spans : list (nat * str * nat)) (name : str) :
  forall m : gmap str str,
  name ∉ List.map (fun span => snd (fst span)) spans ->
  fold_left (assign_body lines) spans m !! name = m !! name.
Proof.
  induction spans as [|[[start nm] stop] spans IH]; intros m Hn; simpl; [reflexivity|].
  rewrite IH by (intros Hin; apply Hn; right; exact Hin).
  apply lookup_insert_ne. intros ->. apply Hn. left.
Qed.

(** The last assignment to a name is the one that stays. *)
Lemma assign_last (lines : list str) (spans1 spans2 : list (nat * str * nat))
    (j stop : nat) (name : str) (m : gmap str str) :
  name ∉ List.map (fun span => snd (fst span)) spans2 ->
  fold_left (assign_body lines) (spans1 ++ (j, name, stop) :: spans2) m !! name
  = Some (section_body lines j stop).
Proof.
  intros Hn. rewrite fold_left_app. simpl.
  rewrite assign_other by exact Hn. apply lookup_insert_eq.
Qed.

Lemma next_heading_line_spec (rest : list str) :
  forall k d : nat,
  d <= length rest ->
  (forall i, i < d -> headings_of (nth i rest []) = []) ->
  (d = length rest \/ headings_of (nth d rest []) <> []) ->
  next_heading_line k rest = k + d.
Proof.
  induction rest as [|ln rest IH]; intros k d Hd Hbefore Hat; simpl in *.
  - lia.
  - destruct d as [|d].
    + destruct Hat as [Hat|Hat]; [discriminate|].
      destruct (headings_of ln); [contradiction | lia].
    + rewrite (Hbefore 0) by lia.
      rewrite (IH (S k) d); [lia | lia | |].
      * intros i Hi. apply (Hbefore (S i)). lia.
      * destruct Hat as [Hat|Hat]; [left; lia | right; exact Hat].
Qed.

Lemma nth_skipn_add (lines : list str) (a i : nat) :
  nth i (skipn a lines) [] = nth (a + i) lines [].
Proof.
  revert lines. induction a as [|a IH]; intros [|ln lines]; simpl; auto.
  destruct i; reflexivity.
Qed.

End Markers.

Section LastMatchWins.
Context `{Library}.

Lemma marker_le_same_line (j : nat) (n n' : str) :
  marker_le (j, n) (j, n') -> str_leb n n' = true.
Proof. rewrite marker_le_cases. simpl. intros [?|[_ ?]]; [lia | assumption]. Qed.

Lemma marker_le_line (a b : nat * str) : marker_le a b -> fst a <= fst b.
Proof. rewrite marker_le_cases. intros [?|[? _]]; lia. Qed.

(** In the sorted markers, the stop of a marker is the line of the marker
    that follows it, which [span_end] finds in the document. *)
Lemma span_end_next_marker (lines : list str) (ms1 ms2 : list (nat * str))
    (j : nat) (name : str) :
  sort_markers (scan_markers 0 lines) = ms1 ++ (j, name) :: ms2 ->
  List.hd (length lines) (List.map fst ms2) = span_end lines j name.
Proof.
  intros E.
  pose proof (sort_markers_sorted (scan_markers 0 lines)) as Hsorted.
  assert (Hnodup : NoDup (sort_markers (scan_markers 0 lines)))
    by (rewrite sort_markers_perm; apply scan_markers_NoDup).
  pose proof (elem_of_markers lines) as Hmem.
  rewrite E in Hsorted, Hnodup, Hmem.
  apply StronglySorted_app in Hsorted as (Hbefore & _ & Hs2).
  apply StronglySorted_cons in Hs2 as [Hafter Hs2].
  apply NoDup_app in Hnodup as (_ & Hnot1 & Hnd2).
  apply NoDup_cons in Hnd2 as [Hnot2 Hnd2].
  assert (Hj : j < length lines /\ heading_at lines j name).
  { apply Hmem. apply elem_of_app. right. left. }
  destruct Hj as [Hj Hjn].
  (* every other marker is before (in ms1) or after (in ms2) *)
  assert (Hside : forall k n, k < length lines -> heading_at lines k n ->
            (k, n) = (j, name)
            \/ ((k, n) ∈ ms1 /\ marker_le (k, n) (j, name))
            \/ ((k, n) ∈ ms2 /\ marker_le (j, name) (k, n))).
  { intros k n Hk Hkn. assert (Hin : (k, n) ∈ ms1 ++ (j, name) :: ms2) by (apply Hmem; auto).
    apply elem_of_app in Hin as [Hin|Hin].
    - right. left. split; [exact Hin|]. apply (Hbefore _ _ Hin). left.
    - apply elem_of_cons in Hin as [Hin|Hin]; [left; exact Hin|].
      right. right. split; [exact Hin|]. rewrite Forall_forall in Hafter. apply Hafter, Hin. }
  (* no heading on line j sorts after name, unless it heads ms2 *)
  assert (Hlater : forall n', n' ∈ headings_of (nth j lines []) -> str_ltb name n' = true ->
            (j, n') ∈ ms2).
  { intros n' Hn' Hlt. unfold str_ltb in Hlt. apply negb_true_iff in Hlt.
    destruct (Hside j n' Hj Hn') as [[= ->]|[[_ Hle]|[Hin _]]]; [| |exact Hin].
    - rewrite str_leb_refl in Hlt. discriminate.
    - apply marker_le_same_line in Hle. congruence. }
  unfold span_end. destruct ms2 as [|[e n'] ms3]; simpl.
  - (* the marker is the last one *)
    destruct (existsb (str_ltb name) (headings_of (nth j lines []))) eqn:Hex.
    + apply existsb_exists in Hex as (n' & Hn' & Hlt).
      apply list_elem_of_In in Hn'. specialize (Hlater n' Hn' Hlt). inversion Hlater.
    + rewrite (next_heading_line_spec _ (S j) (length lines - S j)).
      * lia.
      * rewrite length_skipn. lia.
      * intros i Hi. rewrite nth_skipn_add.
        destruct (headings_of (nth (S j + i) lines [])) as [|n l] eqn:Eh; [reflexivity|].
        exfalso. assert (Hh : heading_at lines (S j + i) n) by (unfold heading_at; rewrite Eh; left).
        destruct (Hside (S j + i) n ltac:(lia) Hh) as [[= ? ?]|[[_ Hle]|[Hin _]]].
        -- lia.
        -- apply marker_le_line in Hle. simpl in Hle. lia.
        -- inversion Hin.
      * left. rewrite length_skipn. reflexivity.
  - (* the marker is followed by (e, n') *)
    assert (He : e < length lines /\ heading_at lines e n').
    { apply Hmem. apply elem_of_app. right. right. left. }
    destruct He as [He Hen].
    assert (Hle : marker_le (j, name) (e, n')).
    { rewrite Forall_forall in Hafter. apply Hafter. left. }
    apply StronglySorted_cons in Hs2 as [Hafter3 _].
    destruct (decide (e = j)) as [->|Hne].
    + (* on the same line *)
      assert (Hlt : str_ltb name n' = true).
      { unfold str_ltb. apply negb_true_iff. destruct (str_leb n' name) eqn:El; [|reflexivity].
        exfalso. apply Hnot2. apply marker_le_same_line in Hle.
        rewrite (str_leb_antisym name n' Hle El). left. }
      assert (Hex : existsb (str_ltb name) (headings_of (nth j lines [])) = true).
      { apply existsb_exists. exists n'. split; [apply list_elem_of_In, Hen | exact Hlt]. }
      rewrite Hex. reflexivity.
    + (* on a later line *)
      assert (Hje : j < e) by (apply marker_le_line in Hle; simpl in Hle; lia).
      assert (Hfirst : forall k n, (k, n) ∈ (e, n') :: ms3 -> e <= k).
      { intros k n Hin. apply elem_of_cons in Hin as [[= -> ->]|Hin]; [lia|].
        rewrite Forall_forall in Hafter3. apply Hafter3, marker_le_line in Hin. exact Hin. }
      destruct (existsb (str_ltb name) (headings_of (nth j lines []))) eqn:Hex.
      * apply existsb_exists in Hex as (n'' & Hn'' & Hlt).
        apply list_elem_of_In in Hn''. specialize (Hlater n'' Hn'' Hlt).
        apply Hfirst in Hlater. lia.
      * rewrite (next_heading_line_spec _ (S j) (e - S j)).
        -- lia.
        -- rewrite length_skipn. lia.
        -- intros i Hi. rewrite nth_skipn_add.
           destruct (headings_of (nth (S j + i) lines [])) as [|n l] eqn:Eh; [reflexivity|].
           exfalso.
           assert (Hh : heading_at lines (S j + i) n) by (unfold heading_at; rewrite Eh; left).
           destruct (Hside (S j + i) n ltac:(lia) Hh) as [[= ? ?]|[[_ Hl]|[Hin _]]].
           ++ lia.
           ++ apply marker_le_line in Hl. simpl in Hl. lia.
           ++ apply Hfirst in Hin. lia.
        -- right. rewrite nth_skipn_add. replace (S j + (e - S j)) with e by lia.
           intros Eh. unfold heading_at in Hen. rewrite Eh in Hen. inversion Hen.
Qed.

Lemma span_end_single_heading (lines : list str) (j : nat) (name : str) :
  (forall n', heading_at lines j n' -> n' = name) ->
  span_end lines j name = next_heading_line (S j) (skipn (S j) lines).
Proof.
  intros Honly. unfold span_end.
  destruct (existsb (str_ltb name) (headings_of (nth j lines []))) eqn:Hex; [|reflexivity].
  apply existsb_exists in Hex as (n' & Hn' & Hlt). apply list_elem_of_In in Hn'.
  rewrite (Honly n' Hn') in Hlt. unfold str_ltb in Hlt. rewrite str_leb_refl in Hlt.
  discriminate Hlt.
Qed.

Lemma find_sections_last_marker (text name : str) (j : nat) :
  heading_at (doc_lines text) j name ->
  (forall k, j < k -> ~ heading_at (doc_lines text) k name) ->
  find_sections text !! name
  = Some (section_body (doc_lines text) j (span_end (doc_lines text) j name)).
Proof.
  intros Hj Hlast. unfold find_sections. fold (doc_lines text).
  set (lines := doc_lines text) in *.
  assert (Hin : (j, name) ∈ sort_markers (scan_markers 0 lines)).
  { apply elem_of_markers. split; [eapply heading_at_lt, Hj | exact Hj]. }
  apply list_elem_of_split in Hin as (ms1 & ms2 & E).
  rewrite combine_pair_up, E.
  destruct (pair_up_split ms1 ms2 (j, name) (length lines)) as [spans ->].
  rewrite (span_end_next_marker lines ms1 ms2 j name E).
  apply assign_last. rewrite pair_up_names.
  intros Hn. apply list_elem_of_In, in_map_iff in Hn as ([k n] & En & Hk). simpl in En. subst n.
  apply list_elem_of_In in Hk.
  pose proof (sort_markers_sorted (scan_markers 0 lines)) as Hsorted.
  assert (Hnodup : NoDup (sort_markers (scan_markers 0 lines)))
    by (rewrite sort_markers_perm; apply scan_markers_NoDup).
  rewrite E in Hsorted, Hnodup.
  apply StronglySorted_app in Hsorted as (_ & _ & Hs2).
  apply StronglySorted_cons in Hs2 as [Hafter _].
  apply NoDup_app in Hnodup as (_ & _ & Hnd2). apply NoDup_cons in Hnd2 as [Hnot2 _].
  rewrite Forall_forall in Hafter. pose proof (Hafter _ Hk) as Hle.
  apply marker_le_line in Hle. simpl in Hle.
  destruct (decide (k = j)) as [->|Hne]; [contradiction|].
  apply (Hlast k); [lia|].
  assert (Hm : (k, name) ∈ sort_markers (scan_markers 0 lines)).
  { rewrite E. apply elem_of_app. right. right. exact Hk. }
  apply elem_of_markers in Hm as [_ Hm]. exact Hm.
Qed.

(** C5. When the heading pattern of a section name matches at two distinct
    lines of the document, the entry of find_sections for that name is the
    span of the later one (the last line where it matches): the lines
    strictly between that line and the next heading, or the end of the
    document, joined with newlines and stripped; the earlier assignment is
    overwritten.  The next heading is the next marker in sorted order; when
    the later line is a heading of this section only, it is the next line
    that is a heading of any section. *)
Theorem find_sections_last_match_wins (text name : str) (i j : nat) :
  i < j ->
  heading_at (doc_lines text) i name ->
  heading_at (doc_lines text) j name ->
  (forall k, j < k -> ~ heading_at (doc_lines text) k name) ->
  find_sections text !! name
  = Some (section_body (doc_lines text) j (span_end (doc_lines text) j name))
  /\ ((forall n', heading_at (doc_lines text) j n' -> n' = name) ->
      span_end (doc_lines text) j name
      = next_heading_line (S j) (skipn (S j) (doc_lines text))).
Proof.
  intros _ _ Hj Hlast. split.
  - apply find_sections_last_marker; assumption.
  - apply span_end_single_heading.
Qed.

End LastMatchWins.

(** *** Patterns whose characters exclude the separators *)

Section Confined.
Context `{Library}.
Variable P : N -> bool.

Lemma run_prev_irrelevant {R} (r : re) :
  confined P r ->
  forall (p p' : option N) (acc s : str) (k : option N -> str -> str -> option R),
  (forall q q' a t, k q a t = k q' a t) ->
  run r p acc s k = run r p' acc s k.
Proof.
  induction r as [|a|r1 IH1 r2 IH2|r1 IH1 r2 IH2|a lo hi| | |];
    simpl; intros Hc p p' acc s k Hk; try contradiction.
  - apply Hk.
  - reflexivity.
  - destruct Hc as [H1 H2]. apply IH1; [exact H1|].
    intros q q' a t. apply IH2; assumption.
  - destruct Hc as [H1 H2]. rewrite (IH1 H1 p p'), (IH2 H2 p p') by exact Hk. reflexivity.
  - destruct s as [|c s]; simpl; rewrite (Hk p p'); reflexivity.
Qed.

Lemma rep_cut {R} (a : atom) (c : N) (b : str) :
  atom_within P a -> P c = false ->
  forall (s : str) (lo : nat) (hi : option nat) (p : option N) (acc : str)
         (k k' : option N -> str -> str -> option R),
  (forall q acc' s', k q acc' (s' ++ c :: b) = k' q acc' s') ->
  rep a lo hi p acc (s ++ c :: b) k = rep a lo hi p acc s k'.
Proof.
  intros Ha Hc. induction s as [|x s IH]; intros lo hi p acc k k' Hk; simpl.
  - destruct (atom_ok a c) eqn:E; [apply Ha in E; congruence|].
    simpl. pose proof (Hk p acc []) as E0. simpl in E0. rewrite E0. reflexivity.
  - pose proof (Hk p acc (x :: s)) as E0. simpl in E0.
    rewrite (IH _ _ _ _ k k' Hk), E0. reflexivity.
Qed.

(** A character outside [P] stops the pattern as the end of the subject
    does. *)
Lemma run_cut {R} (r : re) (c : N) (b : str) :
  confined P r -> P c = false ->
  forall (p : option N) (acc s : str) (k k' : option N -> str -> str -> option R),
  (forall q acc' s', k q acc' (s' ++ c :: b) = k' q acc' s') ->
  run r p acc (s ++ c :: b) k = run r p acc s k'.
Proof.
  intros Hr Hc.
  induction r as [|a|r1 IH1 r2 IH2|r1 IH1 r2 IH2|a lo hi| | |];
    simpl in Hr; intros p acc s k k' Hk; simpl; try contradiction.
  - apply Hk.
  - destruct s as [|x s]; simpl.
    + destruct (atom_ok a c) eqn:E; [apply Hr in E; congruence | reflexivity].
    + destruct (atom_ok a x); [apply Hk | reflexivity].
  - destruct Hr as [H1 H2]. apply IH1; [exact H1|].
    intros q acc' s'. apply IH2; assumption.
  - destruct Hr as [H1 H2]. rewrite (IH1 H1 _ _ _ k k' Hk), (IH2 H2 _ _ _ k k' Hk).
    reflexivity.
  - apply rep_cut; assumption.
Qed.

Lemma run_nil_none {R} (r : re) :
  forall (p : option N) (acc : str) (k : option N -> str -> str -> option R),
  (forall q a, k q a [] = None) -> run r p acc [] k = None.
Proof.
  induction r as [|a|r1 IH1 r2 IH2|r1 IH1 r2 IH2|a lo hi| | |];
    simpl; intros p acc k Hk; auto.
  - rewrite IH1, IH2; auto.
  - destruct lo; auto.
  - destruct p; auto.
  - destruct (xorb _ _); auto.
Qed.

Lemma run_nil_nonnull {R} (r : re) :
  nullable r = false ->
  forall (p : option N) (acc : str) (k : option N -> str -> str -> option R),
  run r p acc [] k = None.
Proof.
  induction r as [|a|r1 IH1 r2 IH2|r1 IH1 r2 IH2|a lo hi| | |];
    simpl; intros Hn p acc k; try discriminate.
  - reflexivity.
  - apply andb_false_iff in Hn as [Hn|Hn]; [apply IH1, Hn|].
    apply run_nil_none. intros q a. apply IH2, Hn.
  - apply orb_false_iff in Hn as [H1 H2]. rewrite IH1, IH2; auto.
  - destruct lo; [discriminate | reflexivity].
Qed.

Lemma search_prev_irrelevant (r : re) (s : str) (p p' : option N) :
  confined P r -> search_from r p s = search_from r p' s.
Proof.
  intros Hr. destruct s as [|c s]; simpl;
    rewrite (run_prev_irrelevant r Hr p p') by reflexivity; reflexivity.
Qed.

Lemma search_nil (r : re) (p : option N) :
  nullable r = false -> search_from r p [] = None.
Proof. intros Hn. simpl. rewrite run_nil_nonnull by exact Hn. reflexivity. Qed.

(** Searching across a character outside [P]: the part before it first,
    then the part after it. *)
Lemma search_cut (r : re) (c : N) (b : str) :
  confined P r -> nullable r = false -> P c = false ->
  forall (s : str) (p : option N),
  search_from r p (s ++ c :: b) =
    match search_from r p s with
    | Some g => Some g
    | None => search_from r None b
    end.
Proof.
  intros Hr Hn Hc. induction s as [|x s IH]; intros p.
  - rewrite search_nil by exact Hn. simpl.
    pose proof (run_cut r c b Hr Hc p [] [] group_here group_here) as E. simpl in E.
    rewrite E by reflexivity. rewrite run_nil_nonnull by exact Hn.
    apply search_prev_irrelevant, Hr.
  - simpl.
    pose proof (run_cut r c b Hr Hc p [] (x :: s) group_here group_here) as E. simpl in E.
    rewrite E by reflexivity.
    destruct (run r p [] (x :: s) group_here); [reflexivity | apply IH].
Qed.

Lemma search_all_outside (r : re) (s : str) (p : option N) :
  confined P r -> nullable r = false ->
  Forall (fun c => P c = false) s -> search_from r p s = None.
Proof.
  intros Hr Hn Hs. revert p. induction Hs as [|c s Hc _ IH]; intros p.
  - apply search_nil, Hn.
  - pose proof (search_cut r c s Hr Hn Hc [] p) as E. simpl app in E.
    rewrite E, search_nil by exact Hn. apply IH.
Qed.

End Confined.

(** *** Searching a document line by line *)

Section Lines.
Context `{Library}.
Variable r : re.
Variable P : N -> bool.
Hypothesis Hr : confined P r.
Hypothesis Hn : nullable r = false.
Hypothesis Hbreak : forall c, islinebreak c = true -> P c = false.
Hypothesis Hspace : forall c, isspace c = true -> P c = false.

Lemma splitlines_first (s : str) :
  s <> [] ->
  exists l rest,
    splitlines s = l :: splitlines rest /\ length rest < length s
    /\ ((s = l /\ rest = [])
        \/ exists b, islinebreak b = true
                     /\ (s = l ++ b :: rest \/ s = l ++ b :: LF :: rest)).
Proof.
  induction s as [|c s IH]; intros Hs; [contradiction|]. simpl.
  destruct (islinebreak c) eqn:Hc.
  - destruct s as [|d s].
    + exists [], []. split; [reflexivity|]. split; [simpl; lia|].
      right. exists c. split; [exact Hc | left; reflexivity].
    + destruct ((c =? CR)%N && (d =? LF)%N) eqn:Hcr.
      * exists [], s. split; [reflexivity|]. split; [simpl; lia|].
        right. exists c. split; [exact Hc|]. right.
        apply andb_prop in Hcr as [_ Hd]. apply N.eqb_eq in Hd. subst d. reflexivity.
      * exists [], (d :: s). split; [reflexivity|]. split; [simpl; lia|].
        right. exists c. split; [exact Hc | left; reflexivity].
  - destruct s as [|d s].
    + exists [c], []. split; [reflexivity|]. split; [simpl; lia|]. left. split; reflexivity.
    + destruct IH as (l & rest & E & Hlen & Hshape); [discriminate|].
      rewrite E. exists (c :: l), rest. split; [reflexivity|].
      split; [simpl in *; lia|].
      destruct Hshape as [[E1 ->]|(b & Hb & [E1|E1])].
      * left. rewrite E1. split; reflexivity.
      * right. exists b. split; [exact Hb|]. left. rewrite E1. reflexivity.
      * right. exists b. split; [exact Hb|]. right. rewrite E1. reflexivity.
Qed.

Lemma islinebreak_LF : islinebreak LF = true.
Proof. reflexivity. Qed.

(** [search] over a document is [search] over its lines, in order. *)
Lemma search_lines (text : str) :
  re_search r text = first_found r (splitlines text).
Proof.
  unfold re_search. remember (length text) as n eqn:En. revert text En.
  induction n as [n IH] using lt_wf_ind. intros text En.
  destruct (decide (text = [])) as [->|Hne].
  - simpl. rewrite run_nil_nonnull by exact Hn. reflexivity.
  - destruct (splitlines_first text Hne) as (l & rest & E & Hlen & Hshape).
    rewrite E. simpl. fold (re_search r l). unfold re_search.
    rewrite <- (IH (length rest)) by (subst n; auto).
    destruct Hshape as [[-> ->]|(b & Hb & [->| ->])].
    + rewrite (search_nil r None Hn). destruct (search_from r None l); reflexivity.
    + apply (search_cut P r b rest Hr Hn (Hbreak b Hb)).
    + rewrite (search_cut P r b (LF :: rest) Hr Hn (Hbreak b Hb)).
      destruct (search_from r None l); [reflexivity|].
      pose proof (search_cut P r LF rest Hr Hn (Hbreak LF islinebreak_LF) [] None) as E1.
      simpl app in E1. rewrite E1, search_nil by exact Hn. reflexivity.
Qed.

Lemma search_lstrip (s : str) : re_search r (lstrip s) = re_search r s.
Proof.
  unfold re_search. induction s as [|c s IH]; simpl lstrip; [reflexivity|].
  destruct (isspace c) eqn:Hc; [|reflexivity].
  pose proof (search_cut P r c s Hr Hn (Hspace c Hc) [] None) as E. simpl app in E.
  rewrite E, search_nil by exact Hn. exact IH.
Qed.

Lemma lstrip_split (s : str) :
  exists ws, s = ws ++ lstrip s /\ Forall (fun c => isspace c = true) ws.
Proof.
  induction s as [|c s (ws & E & Hws)]; simpl.
  - exists []. split; [reflexivity | constructor].
  - destruct (isspace c) eqn:Hc.
    + exists (c :: ws). split; [simpl; f_equal; exact E | constructor; assumption].
    + exists []. split; [reflexivity | constructor].
Qed.

Lemma search_trailing_space (core ws : str) :
  Forall (fun c => isspace c = true) ws ->
  re_search r (core ++ ws) = re_search r core.
Proof.
  unfold re_search. intros Hws. destruct Hws as [|c ws Hc Hws].
  - rewrite app_nil_r. reflexivity.
  - rewrite (search_cut P r c ws Hr Hn (Hspace c Hc)).
    rewrite (search_all_outside P r ws None Hr Hn).
    + destruct (search_from r None core); reflexivity.
    + eapply Forall_impl; [exact Hws|]. intros x Hx. apply Hspace, Hx.
Qed.

Lemma search_rstrip (s : str) : re_search r (rstrip s) = re_search r s.
Proof.
  unfold rstrip. destruct (lstrip_split (rev s)) as (ws & E & Hws).
  assert (Es : s = rev (lstrip (rev s)) ++ rev ws).
  { rewrite <- rev_app_distr, <- E, rev_involutive. reflexivity. }
  rewrite Es at 2. symmetry. apply search_trailing_space.
  apply List.Forall_rev, Hws.
Qed.

Lemma search_strip (s : str) : re_search r (strip s) = re_search r s.
Proof. unfold strip. rewrite search_rstrip. apply search_lstrip. Qed.

(** Stripping the lines and dropping the empty ones loses no match. *)
Lemma first_found_stripped (ls : list str) :
  first_found r (List.filter nonempty (List.map strip ls)) = first_found r ls.
Proof.
  induction ls as [|l ls IH]; simpl; [reflexivity|].
  rewrite <- (search_strip l).
  destruct (nonempty (strip l)) eqn:El; simpl.
  - rewrite IH. reflexivity.
  - apply nonempty_false in El. rewrite El.
    unfold re_search. rewrite search_nil by exact Hn. exact IH.
Qed.

End Lines.

Section FirstFound.
Context `{Library}.

Lemma first_found_firstn (r : re) (n : nat) (ls : list str) (g : str) :
  first_found r (firstn n ls) = Some g -> first_found r ls = Some g.
Proof.
  revert ls. induction n as [|n IH]; intros ls; [discriminate|].
  destruct ls as [|l ls]; simpl; [discriminate|].
  destruct (re_search r l); [auto | apply IH].
Qed.

Lemma first_group_found (r : re) (ls : list str) :
  first_group r ls = default [] (first_found r ls).
Proof.
  induction ls as [|l ls IH]; simpl; [reflexivity|].
  destruct (re_search r l); [reflexivity | exact IH].
Qed.

Lemma first_found_Exists (r : re) (ls : list str) :
  Exists (fun ln => found r ln = true) ls -> is_Some (first_found r ls).
Proof.
  induction 1 as [l ls Hl|l ls _ IH]; simpl; unfold found in *.
  - destruct (re_search r l); [eauto | discriminate].
  - destruct (re_search r l); [eauto | exact IH].
Qed.

Lemma first_found_Forall (r : re) (ls : list str) :
  Forall (fun ln => found r ln = false) ls -> first_found r ls = None.
Proof.
  induction 1 as [|l ls Hl _ IH]; simpl; [reflexivity|]. unfold found in Hl.
  destruct (re_search r l); [discriminate | exact IH].
Qed.

(** What [first_group] returns was matched in full by the pattern. *)
Lemma first_group_fullmatch (r : re) (ls : list str) :
  anchor_free r = true ->
  first_group r ls = [] \/ re_fullmatch r (first_group r ls) = Some (first_group r ls).
Proof.
  intros Hp. induction ls as [|l ls IH]; simpl; [left; reflexivity|].
  destruct (re_search r l) as [g|] eqn:E; [|exact IH].
  right. eapply search_fullmatch; eassumption.
Qed.

End FirstFound.

Section Printable.
Context `{Library}.

Lemma printable_range (c : N) : printable c = true <-> (33 <= c <= 126)%N.
Proof.
  unfold printable. rewrite andb_true_iff, !N.leb_le. reflexivity.
Qed.

Ltac decide_char c :=
  repeat match goal with
  | |- context [N.eqb c ?k] => rewrite (proj2 (N.eqb_neq c k)) by lia
  | |- context [N.leb c ?k] =>
      first [rewrite (proj2 (N.leb_gt c k)) by lia | rewrite (proj2 (N.leb_le c k)) by lia]
  | |- context [N.leb ?k c] =>
      first [rewrite (proj2 (N.leb_le k c)) by lia | rewrite (proj2 (N.leb_gt k c)) by lia]
  end.

Lemma printable_not_space (c : N) : isspace c = true -> printable c = false.
Proof.
  intros Hs. destruct (printable c) eqn:Hp; [|reflexivity].
  apply printable_range in Hp. revert Hs. unfold isspace. decide_char c. discriminate.
Qed.

Lemma printable_not_linebreak (c : N) : islinebreak c = true -> printable c = false.
Proof.
  intros Hs. destruct (printable c) eqn:Hp; [|reflexivity].
  apply printable_range in Hp. revert Hs. unfold islinebreak. decide_char c. discriminate.
Qed.

Lemma item_printable_within (i : item) (c : N) :
  item_printable i = true -> item_ok i c = true -> printable c = true.
Proof.
  destruct i as [x|lo hi| |]; simpl; try discriminate.
  - intros Hx Hc. apply N.eqb_eq in Hc. subst c. exact Hx.
  - intros Hr Hc. apply andb_prop in Hr as [Hlo Hhi]. apply andb_prop in Hc as [H1 H2].
    apply printable_range in Hlo, Hhi. apply N.leb_le in H1, H2.
    apply printable_range. lia.
Qed.

Lemma atom_printable_within (a : atom) :
  atom_printable a = true -> atom_within printable a.
Proof.
  intros Ha c Hc. destruct a as [x|x| |i|items]; simpl in *; try discriminate.
  - apply N.eqb_eq in Hc. subst c. exact Ha.
  - eapply item_printable_within; eassumption.
  - apply existsb_exists in Hc as (i & Hi & Hc).
    rewrite forallb_forall in Ha. eapply item_printable_within; eauto.
Qed.

Lemma re_printable_confined (r : re) : re_printable r = true -> confined printable r.
Proof.
  induction r; simpl; intros Hr; try discriminate; auto using atom_printable_within.
  - apply andb_prop in Hr as [H1 H2]. auto.
  - apply andb_prop in Hr as [H1 H2]. auto.
Qed.

Lemma email_confined : confined printable EMAIL_RE.
Proof. apply re_printable_confined. vm_compute. reflexivity. Qed.

(** The Email field is found by searching the lines of the window. *)
Lemma email_field (text : str) :
  Email (extract_contact text)
  = default [] (first_found EMAIL_RE (firstn 30 (splitlines text))).
Proof.
  unfold extract_contact, contact_lines. simpl. rewrite first_group_found. f_equal.
  apply (first_found_stripped EMAIL_RE printable email_confined eq_refl printable_not_space).
Qed.

(** C1 (amended). When one of the first 30 lines of the text given to
    extract_contact contains a match of the e-mail pattern, the Email field
    is the first match of the pattern in the whole text, whatever the name
    parser and the entity recogniser answer; when none of those 30 lines
    contains a match, the Email field is the empty string. *)
Theorem email_is_first_match_in_window (text : str) :
  (Exists (fun ln => found EMAIL_RE ln = true) (firstn 30 (splitlines text)) ->
     first_email text = Some (Email (extract_contact text)))
  /\ (Forall (fun ln => found EMAIL_RE ln = false) (firstn 30 (splitlines text)) ->
     Email (extract_contact text) = []).
Proof.
  rewrite email_field. split.
  - intros Hex. apply first_found_Exists in Hex as [g E]. rewrite E. simpl.
    unfold first_email.
    rewrite (search_lines EMAIL_RE printable email_confined eq_refl printable_not_linebreak).
    eapply first_found_firstn, E.
  - intros Hall. rewrite first_found_Forall by exact Hall. reflexivity.
Qed.

End Printable.

Section Contact.
Context `{Library}.

Lemma is_name_line_nonempty (ln : str) : is_name_line ln = true -> nonempty ln = true.
Proof.
  intros Hn. apply nonempty_true. intros ->. discriminate Hn.
Qed.

(** The name fields when there is a name line, and when there is none. *)
Lemma names_from_name_line (text ln : str) :
  name_line_of text = Some ln ->
  First_Name (extract_contact text) = str_title (fst (HumanName ln))
  /\ Last_Name (extract_contact text) = str_title (snd (HumanName ln)).
Proof.
  unfold name_line_of, extract_contact. simpl.
  destruct (List.filter is_name_line (firstn 10 (contact_lines text))) as [|l ls] eqn:E;
    [discriminate|].
  intros [= ->]. simpl.
  assert (Hl : is_name_line ln = true).
  { assert (Hin : In ln (List.filter is_name_line (firstn 10 (contact_lines text))))
      by (rewrite E; left; reflexivity).
    apply filter_In in Hin as [_ Hin]. exact Hin. }
  rewrite (is_name_line_nonempty ln Hl). split; reflexivity.
Qed.

Lemma name_line_exists (text ln : str) :
  ln ∈ firstn 10 (contact_lines text) -> is_name_line ln = true ->
  exists ln', name_line_of text = Some ln' /\ is_name_line ln' = true.
Proof.
  intros Hin Hl. unfold name_line_of.
  destruct (List.filter is_name_line (firstn 10 (contact_lines text))) as [|l ls] eqn:E.
  - exfalso. apply list_elem_of_In in Hin.
    assert (Hf : In ln (List.filter is_name_line (firstn 10 (contact_lines text))))
      by (apply filter_In; split; assumption).
    rewrite E in Hf. exact Hf.
  - exists l. split; [reflexivity|].
    assert (Hf : In l (List.filter is_name_line (firstn 10 (contact_lines text))))
      by (rewrite E; left; reflexivity).
    apply filter_In in Hf as [_ Hf]. exact Hf.
Qed.

Lemma names_unresolved (text : str) :
  unresolvable text ->
  First_Name (extract_contact text) = str_title (fst (HumanName []))
  /\ Last_Name (extract_contact text) = str_title (snd (HumanName [])).
Proof.
  intros (Hline & Hents & Hmail). unfold extract_contact in *. simpl in *.
  unfold name_line_of in Hline.
  destruct (List.filter is_name_line (firstn 10 (contact_lines text))); [|discriminate].
  simpl. rewrite Hents, Hmail. split; reflexivity.
Qed.

(** C8. Whatever the text, extract_contact returns a record of five
    strings; First Name and Last Name are results of title-casing, whichever
    strategy gave the name; Email is empty or is matched in full by the
    e-mail pattern, Phone is empty or is matched in full by the phone
    pattern; and when no strategy resolves a name, First Name and Last Name
    are the empty string (the name parser gives empty parts for the empty
    string, and title-casing the empty string gives the empty string). *)
Theorem extract_contact_record (text : str) :
  (exists first last email phone location,
     extract_contact text = Contact first last email phone location)
  /\ (exists s, First_Name (extract_contact text) = str_title s)
  /\ (exists s, Last_Name (extract_contact text) = str_title s)
  /\ (Email (extract_contact text) = []
      \/ re_fullmatch EMAIL_RE (Email (extract_contact text))
         = Some (Email (extract_contact text)))
  /\ (Phone (extract_contact text) = []
      \/ re_fullmatch PHONE_RE (Phone (extract_contact text))
         = Some (Phone (extract_contact text)))
  /\ (unresolvable text -> HumanName [] = ([], []) -> str_title [] = [] ->
      First_Name (extract_contact text) = [] /\ Last_Name (extract_contact text) = []).
Proof.
  split; [destruct (extract_contact text); eauto 6|].
  split; [unfold extract_contact; simpl; eauto|].
  split; [unfold extract_contact; simpl; eauto|].
  split; [apply first_group_fullmatch; reflexivity|].
  split; [apply first_group_fullmatch; reflexivity|].
  intros Hu Hh Ht. destruct (names_unresolved text Hu) as [-> ->].
  rewrite Hh. simpl. rewrite Ht. split; reflexivity.
Qed.

(** C9 (amended). When one of the first ten non-empty lines among the
    first 30 lines of the text has 2 to 5 tokens and no e-mail or phone
    match, extract_contact takes the first such line as the name: First
    Name and Last Name are the title-cased parts the name parser gives for
    that line.  The location stop words play no part: the line is taken
    even when all its tokens are stop words, and the entity recogniser is
    not consulted for the name. *)
Theorem name_line_ignores_location_stop (text ln : str) :
  ln ∈ firstn 10 (contact_lines text) -> is_name_line ln = true ->
  exists ln',
    name_line_of text = Some ln' /\ is_name_line ln' = true
    /\ First_Name (extract_contact text) = str_title (fst (HumanName ln'))
    /\ Last_Name (extract_contact text) = str_title (snd (HumanName ln')).
Proof.
  intros Hin Hl. destruct (name_line_exists text ln Hin Hl) as (ln' & E & Hl').
  exists ln'. split; [exact E|]. split; [exact Hl'|]. apply names_from_name_line, E.
Qed.

End Contact.

Ltac run_monad :=
  unfold mbind, M_bind, bind, mret, M_ret, ret, raise, print, run_ollama.

Section Service.
Context `{Library}.

Lemma dot_star_no_brace (s : str) :
  forall (p : option N) (acc : str),
  ch "}" ∉ s -> rep Dot 0 None p acc s after_span = None.
Proof.
  induction s as [|c s IH]; intros p acc Hs; simpl.
  - reflexivity.
  - rewrite IH by (intros Hin; apply Hs; right; exact Hin).
    unfold after_span. simpl.
    destruct (N.eqb_spec c (ch "}")) as [->|]; [|reflexivity].
    exfalso. apply Hs. left.
Qed.

Lemma dot_star_last_brace (inner post : str) :
  forall (p : option N) (acc : str),
  ch "}" ∉ post ->
  rep Dot 0 None p acc (inner ++ ch "}" :: post) after_span
  = Some (rev acc ++ inner ++ [ch "}"]).
Proof.
  induction inner as [|c inner IH]; intros p acc Hpost; simpl.
  - rewrite dot_star_no_brace by exact Hpost.
    unfold after_span. simpl. rewrite ?N.eqb_refl. reflexivity.
  - rewrite IH by exact Hpost. simpl. rewrite <- app_assoc. reflexivity.
Qed.

(** [\{.*\}] under [re.S] finds the text from the first opening brace to
    the last closing brace. *)
Lemma json_span_found (pre inner post : str) :
  ch "{" ∉ pre -> ch "}" ∉ post ->
  re_search JSON_SPAN_RE (pre ++ ch "{" :: inner ++ ch "}" :: post)
  = Some (ch "{" :: inner ++ [ch "}"]).
Proof.
  intros Hpre Hpost. unfold re_search. generalize (@None N).
  induction pre as [|c pre IH]; intros p.
  - simpl app. destruct inner; simpl; rewrite ?N.eqb_refl;
      change (fun p a s => run (seq [One (Lit (ch "}"))]) p a s group_here) with after_span.
    + rewrite (dot_star_no_brace post) by exact Hpost.
      unfold after_span. simpl. rewrite ?N.eqb_refl. reflexivity.
    + rewrite (dot_star_last_brace inner post) by exact Hpost. reflexivity.
  - simpl. destruct (N.eqb_spec c (ch "{")) as [->|].
    + exfalso. apply Hpre. left.
    + apply IH. intros Hin. apply Hpre. right. exact Hin.
Qed.

(** The text found by [\{.*\}] begins with a brace. *)
Lemma json_span_starts (s g : str) :
  re_search JSON_SPAN_RE s = Some g -> exists t, g = ch "{" :: t.
Proof.
  intros E. apply search_from_sound in E as (pre & rest & p' & _ & Hm).
  unfold JSON_SPAN_RE in Hm. simpl in Hm.
  inversion Hm as [| |r1 r2 p w1 w2 n H1 H2| | | | | |]; subst.
  inversion H1 as [|a c p n Hc| | | | | | |]; subst.
  simpl in Hc. apply N.eqb_eq in Hc. subst c. eauto.
Qed.

End Service.

Section CallLlm.
Context `{Library}.

Lemma call_llm_blank (section body : str) (w : world) :
  blank body -> call_llm section body w = (Return (sentinel section), w).
Proof.
  intros Hb. unfold call_llm. apply nonempty_false in Hb. rewrite Hb. reflexivity.
Qed.

Lemma call_llm_sent (section body : str) (w : world) :
  ~ blank body ->
  call_llm section body w =
    let reply := ollama (length (requests w)) (full_prompt section body) in
    let w1 := World (requests w ++ [full_prompt section body]) (printed w) in
    match re_search JSON_SPAN_RE reply with
    | None => (Return (sentinel section),
               World (requests w1) (printed w ++ [warn_no_json section]))
    | Some span =>
        match json_loads span with
        | Some (JObj members) => (Return (dict_get members section (JObj members)), w1)
        | Some _ => (Raise AttributeError, w1)
        | None => (Return (sentinel section),
                   World (requests w1) (printed w ++ [warn_invalid_json section]))
        end
    end.
Proof.
  intros Hb. unfold call_llm. apply nonempty_true in Hb. rewrite Hb. simpl.
  run_monad. simpl.
  destruct (re_search JSON_SPAN_RE _) as [span|]; [|reflexivity].
  destruct (json_loads span) as [[]|]; reflexivity.
Qed.



(** With a decoder that answers braces with dicts, call_llm never raises. *)
Lemma call_llm_returns (section body : str) (w : world) :
  decodes_objects -> exists v w', call_llm section body w = (Return v, w').
Proof.
  intros Hdec. destruct (decide (blank body)) as [Hb|Hb].
  - rewrite call_llm_blank by exact Hb. eauto.
  - rewrite call_llm_sent by exact Hb. simpl.
    destruct (re_search JSON_SPAN_RE _) as [span|] eqn:E; [|eauto].
    destruct (json_loads span) as [v|] eqn:Ev; [|eauto].
    apply json_span_starts in E as [t ->].
    apply Hdec in Ev as [members ->]. eauto.
Qed.

End CallLlm.

Section Enrichment.
Context `{Library}.

Lemma getitem_Some {V} (d : gmap str V) (key : str) (v : V) (w : world) :
  d !! key = Some v -> getitem d key w = (Return v, w).
Proof. intros E. unfold getitem. rewrite E. reflexivity. Qed.

Lemma bind_Return {A B} (m : M A) (f : A -> M B) (w w' : world) (a : A) :
  m w = (Return a, w') -> (m ≫= f) w = f a w'.
Proof. intros E. run_monad. rewrite E. reflexivity. Qed.

Lemma ensure_projects_populated (sections : gmap str str) (output : gmap str json)
    (v : json) (w : world) :
  output !! u "Projects" = Some v -> truthy v = true ->
  ensure_projects sections output w = (Return output, w).
Proof.
  intros E Hv. unfold ensure_projects.
  rewrite (bind_Return _ _ _ _ _ (getitem_Some _ _ _ w E)), Hv. reflexivity.
Qed.

Lemma ensure_certifications_populated (sections : gmap str str) (output : gmap str json)
    (v : json) (w : world) :
  output !! u "Certifications" = Some v -> truthy v = true ->
  ensure_certifications sections output w = (Return output, w).
Proof.
  intros E Hv. unfold ensure_certifications.
  rewrite (bind_Return _ _ _ _ _ (getitem_Some _ _ _ w E)), Hv. reflexivity.
Qed.

(** C6. When the Projects value of the record is already non-empty (truthy,
    as the code tests it), ensure_projects returns the record as it was,
    sends nothing and prints nothing, and so does running it a second time;
    likewise ensure_certifications when the Certifications value is
    non-empty. *)
Theorem enrichment_keeps_populated (sections : gmap str str) (output : gmap str json)
    (w : world) :
  (forall v, output !! u "Projects" = Some v -> truthy v = true ->
     ensure_projects sections output w = (Return output, w)
     /\ (ensure_projects sections output ≫= ensure_projects sections) w
        = (Return output, w))
  /\ (forall v, output !! u "Certifications" = Some v -> truthy v = true ->
     ensure_certifications sections output w = (Return output, w)
     /\ (ensure_certifications sections output ≫= ensure_certifications sections) w
        = (Return output, w)).
Proof.
  split; intros v E Hv.
  - pose proof (ensure_projects_populated sections output v w E Hv) as E1.
    split; [exact E1|]. rewrite (bind_Return _ _ _ _ _ E1). exact E1.
  - pose proof (ensure_certifications_populated sections output v w E Hv) as E1.
    split; [exact E1|]. rewrite (bind_Return _ _ _ _ _ E1). exact E1.
Qed.

(** C7. When the Projects value of the record is empty (falsy) and some
    line of the Work Experience body carries a project keyword,
    ensure_projects joins exactly those lines with newlines, calls call_llm
    for "Projects" on that text, and returns the record with Projects
    replaced by the result if the result is non-empty and the record as it
    was otherwise; when no line carries a keyword it returns the record as
    it was, sends nothing and prints nothing. *)
Theorem ensure_projects_mines_work_experience
    (sections : gmap str str) (output : gmap str json) (projects : json) (work : str)
    (w : world) :
  output !! u "Projects" = Some projects -> truthy projects = false ->
  sections !! u "Work Experience" = Some work ->
  (project_lines work <> [] ->
     ensure_projects sections output w =
       match call_llm (u "Projects") (join [LF] (project_lines work)) w with
       | (Return parsed, w') =>
           (Return (if truthy parsed then <[u "Projects" := parsed]> output else output), w')
       | (Raise e, w') => (Raise e, w')
       end)
  /\ (project_lines work = [] -> ensure_projects sections output w = (Return output, w)).
Proof.
  intros Eo Hp Es. unfold ensure_projects.
  rewrite (bind_Return _ _ _ _ _ (getitem_Some _ _ _ w Eo)), Hp.
  rewrite (bind_Return _ _ _ _ _ (getitem_Some _ _ _ w Es)).
  fold (project_lines work). split; intros Hc.
  - destruct (project_lines work) as [|ln lns]; [contradiction|].
    run_monad. destruct (call_llm _ _ w) as [[parsed|e] w']; [|reflexivity].
    destruct (truthy parsed); reflexivity.
  - rewrite Hc. reflexivity.
Qed.

End Enrichment.

Section Assembly.
Context `{Library}.

Lemma ensures_ret {A} (a : A) (w : world) (Q : A -> Prop) : Q a -> ensures (mret a) w Q.
Proof. intros Ha b w' E. injection E as <- _. exact Ha. Qed.

Lemma ensures_bind {A B} (m : M A) (f : A -> M B) (w : world)
    (Q1 : A -> Prop) (Q2 : B -> Prop) :
  ensures m w Q1 -> (forall a w1, Q1 a -> ensures (f a) w1 Q2) -> ensures (m ≫= f) w Q2.
Proof.
  intros Hm Hf b w' E. revert E. run_monad.
  destruct (m w) as [[a|e] w1] eqn:Em; [|discriminate].
  intros E. exact (Hf a w1 (Hm a w1 Em) b w' E).
Qed.

Lemma ensures_any {A} (m : M A) (w : world) : ensures m w (fun _ => True).
Proof. intros a w' _. exact I. Qed.

Lemma yields_ret {A} (a : A) (w : world) (Q : A -> Prop) : Q a -> yields (mret a) w Q.
Proof. intros Ha. exists a, w. split; [reflexivity | exact Ha]. Qed.

Lemma yields_bind {A B} (m : M A) (f : A -> M B) (w : world)
    (Q1 : A -> Prop) (Q2 : B -> Prop) :
  yields m w Q1 -> (forall a w1, Q1 a -> yields (f a) w1 Q2) -> yields (m ≫= f) w Q2.
Proof.
  intros (a & w1 & Em & Ha) Hf. destruct (Hf a w1 Ha) as (b & w2 & Ef & Hb).
  exists b, w2. split; [|exact Hb]. rewrite (bind_Return _ _ _ _ _ Em). exact Ef.
Qed.

Lemma yields_getitem {V} (d : gmap str V) (key : str) (w : world) :
  is_Some (d !! key) -> yields (getitem d key) w (fun _ => True).
Proof. intros [v E]. exists v, w. split; [apply getitem_Some, E | exact I]. Qed.

Lemma yields_both {A} (m : M A) (w : world) (Q1 Q2 : A -> Prop) :
  yields m w Q1 -> ensures m w Q2 -> yields m w (fun a => Q1 a /\ Q2 a).
Proof. intros (a & w' & E & Ha) Hq. exists a, w'. repeat split; eauto. Qed.

(** What each step leaves of the record it is given. *)

Lemma extract_each_keeps (names : list str) (sections : gmap str str) :
  forall (out : gmap str json) (w : world),
  ensures (extract_each names sections out) w
    (fun out' => (forall k, k ∉ names -> out' !! k = out !! k)
                 /\ (forall k, is_Some (out !! k) \/ k ∈ names -> is_Some (out' !! k))).
Proof.
  induction names as [|sec names IH]; intros out w; simpl.
  - apply ensures_ret. split; [reflexivity|]. intros k [Hk|Hk]; [exact Hk|].
    inversion Hk.
  - eapply ensures_bind; [apply ensures_any|]. intros body w1 _.
    eapply ensures_bind; [apply ensures_any|]. intros v w2 _.
    intros out' w' E. apply IH in E as [Hkeep Hsome]. split.
    + intros k Hk. rewrite Hkeep by (intros Hin; apply Hk; right; exact Hin).
      apply lookup_insert_ne. intros ->. apply Hk. left.
    + intros k Hk. destruct (decide (k ∈ names)) as [Hin|Hin]; [apply Hsome; right; exact Hin|].
      apply Hsome. left. rewrite lookup_insert. case_decide; [eauto|].
      destruct Hk as [Hk|Hk]; [exact Hk|].
      apply elem_of_cons in Hk as [->|Hk]; [congruence | contradiction].
Qed.

Lemma extract_each_returns (names : list str) (sections : gmap str str) :
  decodes_objects -> (forall k, k ∈ names -> is_Some (sections !! k)) ->
  forall (out : gmap str json) (w : world),
  yields (extract_each names sections out) w (fun _ => True).
Proof.
  intros Hdec. induction names as [|sec names IH]; intros Hs out w; simpl.
  - apply yields_ret. exact I.
  - eapply yields_bind; [apply yields_getitem, Hs; left|]. intros body w1 _.
    eapply yields_bind.
    + destruct (call_llm_returns sec body w1 Hdec) as (v & w2 & E).
      exists v, w2. split; [exact E | exact I].
    + intros v w2 _. apply IH. intros k Hk. apply Hs. right. exact Hk.
Qed.

Lemma same_but_refl (key : str) (out : gmap str json) : same_but key out out.
Proof. split; auto. Qed.

Lemma same_but_insert (key : str) (out : gmap str json) (v : json) :
  same_but key out (<[key := v]> out).
Proof.
  split.
  - intros k Hk. apply lookup_insert_ne. congruence.
  - intros k Hk. rewrite lookup_insert. case_decide; eauto.
Qed.

Lemma ensure_projects_keeps (sections : gmap str str) (out : gmap str json) (w : world) :
  ensures (ensure_projects sections out) w (same_but (u "Projects") out).
Proof.
  unfold ensure_projects.
  eapply ensures_bind; [apply ensures_any|]. intros projects w1 _.
  destruct (truthy projects); [apply ensures_ret, same_but_refl|].
  eapply ensures_bind; [apply ensures_any|]. intros work w2 _.
  destruct (List.filter _ _); [apply ensures_ret, same_but_refl|].
  eapply ensures_bind; [apply ensures_any|]. intros parsed w3 _.
  destruct (truthy parsed); apply ensures_ret; [apply same_but_insert | apply same_but_refl].
Qed.

Lemma ensure_certifications_keeps (sections : gmap str str) (out : gmap str json)
    (w : world) :
  ensures (ensure_certifications sections out) w (same_but (u "Certifications") out).
Proof.
  unfold ensure_certifications.
  eapply ensures_bind; [apply ensures_any|]. intros certs w1 _.
  destruct (truthy certs); [apply ensures_ret, same_but_refl|].
  destruct (_ ++ _); [apply ensures_ret, same_but_refl|].
  eapply ensures_bind; [apply ensures_any|]. intros parsed w3 _.
  destruct (truthy parsed); apply ensures_ret; [apply same_but_insert | apply same_but_refl].
Qed.

Lemma yields_call_llm (section body : str) (w : world) :
  decodes_objects -> yields (call_llm section body) w (fun _ => True).
Proof.
  intros Hdec. destruct (call_llm_returns section body w Hdec) as (v & w' & E).
  exists v, w'. split; [exact E | exact I].
Qed.

Lemma ensure_projects_returns (sections : gmap str str) (out : gmap str json) (w : world) :
  decodes_objects -> is_Some (out !! u "Projects") ->
  is_Some (sections !! u "Work Experience") ->
  yields (ensure_projects sections out) w (fun _ => True).
Proof.
  intros Hdec Ho Hs. unfold ensure_projects.
  eapply yields_bind; [apply yields_getitem, Ho|]. intros projects w1 _.
  destruct (truthy projects); [apply yields_ret; exact I|].
  eapply yields_bind; [apply yields_getitem, Hs|]. intros work w2 _.
  destruct (List.filter _ _); [apply yields_ret; exact I|].
  eapply yields_bind; [apply yields_call_llm, Hdec|]. intros parsed w3 _.
  destruct (truthy parsed); apply yields_ret; exact I.
Qed.

Lemma ensure_certifications_returns (sections : gmap str str) (out : gmap str json)
    (w : world) :
  decodes_objects -> is_Some (out !! u "Certifications") ->
  yields (ensure_certifications sections out) w (fun _ => True).
Proof.
  intros Hdec Ho. unfold ensure_certifications.
  eapply yields_bind; [apply yields_getitem, Ho|]. intros certs w1 _.
  destruct (truthy certs); [apply yields_ret; exact I|].
  destruct (_ ++ _); [apply yields_ret; exact I|].
  eapply yields_bind; [apply yields_call_llm, Hdec|]. intros parsed w3 _.
  destruct (truthy parsed); apply yields_ret; exact I.
Qed.

Lemma fill_placeholders_lookup (names : list str) (key : str) :
  forall out : gmap str json,
  (out !! key = None /\ key ∈ names) \/ out !! key = Some (JArr []) ->
  fill_placeholders names out !! key = Some (JArr []).
Proof.
  unfold fill_placeholders.
  induction names as [|sec names IH]; intros out Hk; simpl.
  - destruct Hk as [[_ Hin]|Hk]; [inversion Hin | exact Hk].
  - apply IH. rewrite lookup_insert. case_decide as Hs.
    + subst sec. right. destruct Hk as [[-> _]| ->]; reflexivity.
    + destruct Hk as [[Hn Hin]|Hk]; [left|right; exact Hk].
      split; [exact Hn|]. apply elem_of_cons in Hin as [->|Hin]; [congruence | exact Hin].
Qed.

End Assembly.

Ltac in_keys :=
  apply list_elem_of_In; unfold SECTION_ORDER, PLACEHOLDERS; simpl;
  repeat (first [left; reflexivity | right]).

Ltac not_in_keys :=
  let Hin := fresh "Hin" in
  intros Hin;
  repeat (apply elem_of_cons in Hin as [Hin|Hin]; [vm_compute in Hin; discriminate Hin|]);
  inversion Hin.

Section Main.
Context `{Library}.

Lemma main_placeholders (pdf_text : str) (w : world) :
  ensures (main pdf_text) w
    (fun out => Forall (fun k => out !! k = Some (JArr [])) PLACEHOLDERS).
Proof.
  unfold main.
  eapply ensures_bind; [apply ensures_any|]. intros contact_body w1 _.
  eapply ensures_bind; [apply ensures_any|]. intros title_body w2 _.
  eapply ensures_bind; [apply ensures_any|]. intros summary_body w3 _.
  eapply ensures_bind; [apply ensures_any|]. intros summary w4 _.
  eapply ensures_bind; [apply extract_each_keeps|]. intros out1 w5 [K1 _].
  eapply ensures_bind; [apply extract_each_keeps|]. intros out2 w6 [K2 _].
  eapply ensures_bind; [apply ensure_projects_keeps|]. intros out3 w7 [K3 _].
  eapply ensures_bind; [apply ensure_certifications_keeps|]. intros out4 w8 [K4 _].
  apply ensures_ret. apply Forall_forall. intros k Hk.
  apply fill_placeholders_lookup. left. split; [|exact Hk].
  unfold PLACEHOLDERS in Hk.
  repeat (apply elem_of_cons in Hk as [->|Hk]); try (inversion Hk);
    (rewrite K4 by key_ne; rewrite K3 by key_ne;
     rewrite K2 by not_in_keys; rewrite K1 by not_in_keys;
     rewrite !lookup_insert_ne by key_ne; apply lookup_empty).
Qed.

Lemma main_returns (pdf_text : str) (w : world) :
  decodes_objects -> yields (main pdf_text) w (fun _ => True).
Proof.
  intros Hdec. unfold main.
  eapply yields_bind; [apply yields_getitem, find_sections_has_key; in_keys|].
  intros contact_body w1 _.
  eapply yields_bind; [apply yields_getitem, find_sections_has_key; in_keys|].
  intros title_body w2 _.
  eapply yields_bind; [apply yields_getitem, find_sections_has_key; in_keys|].
  intros summary_body w3 _.
  eapply yields_bind; [apply yields_call_llm, Hdec|]. intros summary w4 _.
  eapply yields_bind.
  { apply extract_each_returns; [exact Hdec|]. intros k Hk.
    apply find_sections_has_key.
    repeat (apply elem_of_cons in Hk as [->|Hk]; [in_keys|]). inversion Hk. }
  intros out1 w5 _.
  eapply yields_bind.
  { apply yields_both; [|apply extract_each_keeps].
    apply extract_each_returns; [exact Hdec|]. intros k Hk.
    apply find_sections_has_key.
    repeat (apply elem_of_cons in Hk as [->|Hk]; [in_keys|]). inversion Hk. }
  intros out2 w6 [_ [_ S2]].
  eapply yields_bind.
  { apply yields_both; [|apply ensure_projects_keeps].
    apply ensure_projects_returns; [exact Hdec| |apply find_sections_has_key; in_keys].
    apply S2. right. apply list_elem_of_In. simpl. auto. }
  intros out3 w7 [_ [_ S3]].
  eapply yields_bind.
  { apply ensure_certifications_returns; [exact Hdec|].
    apply S3, S2. right. apply list_elem_of_In. simpl. auto. }
  intros out4 w8 _. apply yields_ret. exact I.
Qed.

(** C10. Whatever the document and whatever the service replies, every
    record the module body produces maps Awards & Scholarships,
    Volunteering & Leadership and Publications to the empty list; and with
    a decoder that answers braces with dicts, it does produce a record. *)
Theorem placeholders_always_empty (pdf_text : str) (w : world) :
  ensures (main pdf_text) w
    (fun out => Forall (fun k => out !! k = Some (JArr [])) PLACEHOLDERS)
  /\ (decodes_objects ->
      yields (main pdf_text) w
        (fun out => Forall (fun k => out !! k = Some (JArr [])) PLACEHOLDERS)).
Proof.
  split; [apply main_placeholders|]. intros Hdec.
  destruct (main_returns pdf_text w Hdec) as (out & w' & E & _).
  exists out, w'. split; [exact E|]. exact (main_placeholders pdf_text w out w' E).
Qed.

End Main.

(** ** More on find_sections *)

Section StripFacts.

Lemma lstrip_id (s : str) :
  match s with c :: _ => isspace c = false | [] => True end -> lstrip s = s.
Proof. destruct s as [|c s]; simpl; [reflexivity|]. intros ->. reflexivity. Qed.

Lemma lstrip_head (s : str) :
  match lstrip s with c :: _ => isspace c = false | [] => True end.
Proof.
  induction s as [|c s IH]; simpl; [exact I|].
  destruct (isspace c) eqn:E; [exact IH | exact E].
Qed.

Lemma lstrip_idem (s : str) : lstrip (lstrip s) = lstrip s.
Proof. apply lstrip_id, lstrip_head. Qed.

Lemma rstrip_split (s : str) :
  exists ws, s = rstrip s ++ ws /\ Forall (fun c => isspace c = true) ws.
Proof.
  unfold rstrip. destruct (lstrip_split (rev s)) as (ws & E & Hws).
  exists (rev ws). split; [|apply List.Forall_rev, Hws].
  rewrite <- rev_app_distr, <- E, rev_involutive. reflexivity.
Qed.

Lemma rstrip_idem (s : str) : rstrip (rstrip s) = rstrip s.
Proof. unfold rstrip. rewrite rev_involutive, lstrip_idem. reflexivity. Qed.

Lemma rstrip_head (s : str) :
  match s with c :: _ => isspace c = false | [] => True end ->
  match rstrip s with c :: _ => isspace c = false | [] => True end.
Proof.
  intros Hs. destruct (rstrip_split s) as (ws & E & _).
  destruct (rstrip s) as [|c t]; [exact I|].
  rewrite E in Hs. exact Hs.
Qed.

(** [strip] leaves a stripped string as it is. *)
Lemma strip_idem (s : str) : strip (strip s) = strip s.
Proof.
  unfold strip.
  rewrite (lstrip_id (rstrip (lstrip s))) by apply rstrip_head, lstrip_head.
  apply rstrip_idem.
Qed.

Lemma strip_nil : strip [] = [].
Proof. reflexivity. Qed.

End StripFacts.

Section FindSectionsMore.
Context `{Library}.

Lemma headings_of_known (ln name : str) :
  name ∈ headings_of ln -> name ∈ SECTION_ORDER.
Proof.
  unfold headings_of. intros Hin.
  apply list_elem_of_In, in_map_iff in Hin as (np & <- & Hnp).
  apply filter_In in Hnp as [Hnp _].
  assert (Hk : List.map fst HEADING_PATTERNS = SECTION_ORDER) by (vm_compute; reflexivity).
  rewrite <- Hk. apply list_elem_of_In, in_map. exact Hnp.
Qed.

Lemma marker_names (lines : list str) (name : str) :
  name ∈ List.map snd (sort_markers (scan_markers 0 lines))
  <-> exists k, heading_at lines k name.
Proof.
  split.
  - intros Hin. apply list_elem_of_In, in_map_iff in Hin as ([k n] & E & Hin).
    simpl in E. subst n. apply list_elem_of_In, elem_of_markers in Hin as [_ Hin]. eauto.
  - intros [k Hk]. apply list_elem_of_In, in_map_iff. exists (k, name).
    split; [reflexivity|]. apply list_elem_of_In, elem_of_markers.
    split; [eapply heading_at_lt, Hk | exact Hk].
Qed.

Lemma assign_keys (lines : list str) (spans : list (nat * str * nat)) (name : str) :
  forall m : gmap str str,
  is_Some (fold_left (assign_body lines) spans m !! name) ->
  is_Some (m !! name) \/ name ∈ List.map (fun span => snd (fst span)) spans.
Proof.
  induction spans as [|[[start nm] stop] spans IH]; intros m Hs; simpl in *; [auto|].
  destruct (IH _ Hs) as [Hm|Hin]; [|right; right; exact Hin].
  rewrite lookup_insert in Hm. case_decide as E; [subst nm; right; left | left; exact Hm].
Qed.

(** A value that every step of the fold keeps stripped. *)
Lemma assign_stripped (lines : list str) (spans : list (nat * str * nat)) :
  forall m : gmap str str,
  (forall k v, m !! k = Some v -> strip v = v) ->
  forall k v, fold_left (assign_body lines) spans m !! k = Some v -> strip v = v.
Proof.
  induction spans as [|[[start nm] stop] spans IH]; intros m Hm k v; simpl; [apply Hm|].
  apply IH. intros k' v'. rewrite lookup_insert. case_decide.
  - intros [= <-]. apply strip_idem.
  - apply Hm.
Qed.

Lemma init_sections_only (name : str) (v : str) :
  (list_to_map (List.map (fun k => (k, [])) SECTION_ORDER) : gmap str str) !! name = Some v ->
  name ∈ SECTION_ORDER /\ v = [].
Proof.
  intros E. apply elem_of_list_to_map_2, list_elem_of_In, in_map_iff in E.
  destruct E as (k & [= <- <-] & Hk). split; [apply list_elem_of_In, Hk | reflexivity].
Qed.

(** X1. The mapping find_sections returns has the eleven names of
    SECTION_ORDER as its keys and no other key, whatever the text. *)
Theorem find_sections_keys_exact (text name : str) :
  is_Some (find_sections text !! name) <-> name ∈ SECTION_ORDER.
Proof.
  split; [|apply find_sections_has_key].
  unfold find_sections. intros Hs. apply assign_keys in Hs as [[v Hv]|Hin].
  - apply init_sections_only in Hv as [Hin _]. exact Hin.
  - rewrite combine_pair_up, pair_up_names in Hin.
    apply marker_names in Hin as [k Hk]. eapply headings_of_known, Hk.
Qed.

(** X2. A section name whose heading pattern matches no line of the
    document is mapped to the empty string, whatever the other headings
    of the document are. *)
Theorem find_sections_unmatched_empty (text name : str) :
  name ∈ SECTION_ORDER ->
  (forall k, ~ heading_at (doc_lines text) k name) ->
  find_sections text !! name = Some [].
Proof.
  intros Hin Hnone. unfold find_sections. fold (doc_lines text).
  rewrite assign_other; [apply init_sections_lookup, Hin|].
  rewrite combine_pair_up, pair_up_names. intros Hm.
  apply marker_names in Hm as [k Hk]. exact (Hnone k Hk).
Qed.

(** X3. Every value of the mapping is stripped: it has no leading and no
    trailing whitespace, so stripping it again changes nothing. *)
Theorem find_sections_values_stripped (text name body : str) :
  find_sections text !! name = Some body -> strip body = body.
Proof.
  unfold find_sections. apply assign_stripped.
  intros k v Hv. apply init_sections_only in Hv as [_ ->]. reflexivity.
Qed.

End FindSectionsMore.

Section SpansMore.
Context `{Library}.

Lemma next_heading_line_bounds (rest : list str) :
  forall k : nat, k <= next_heading_line k rest <= k + length rest.
Proof.
  induction rest as [|ln rest IH]; intros k; simpl; [lia|].
  destruct (headings_of ln); [|lia]. specialize (IH (S k)). lia.
Qed.

Lemma next_heading_line_stops (rest : list str) :
  forall k d : nat,
  headings_of (nth d rest []) <> [] -> next_heading_line k rest <= k + d.
Proof.
  induction rest as [|ln rest IH]; intros k d Hd; simpl.
  - destruct d; simpl in Hd; rewrite headings_of_empty in Hd; contradiction.
  - destruct (headings_of ln) eqn:E; [|lia].
    destruct d as [|d]; simpl in Hd; [congruence|].
    specialize (IH (S k) d Hd). lia.
Qed.

Lemma span_end_bounds (lines : list str) (j : nat) (name : str) :
  j < length lines -> j <= span_end lines j name <= length lines.
Proof.
  intros Hj. unfold span_end.
  destruct (existsb _ _); [lia|].
  pose proof (next_heading_line_bounds (skipn (S j) lines) (S j)) as Hb.
  rewrite length_skipn in Hb. lia.
Qed.

Lemma span_end_before_heading (lines : list str) (j j' : nat) (name name' : str) :
  j < j' -> heading_at lines j' name' -> span_end lines j name <= j'.
Proof.
  intros Hlt Hh. unfold span_end. destruct (existsb _ _); [lia|].
  pose proof (next_heading_line_stops (skipn (S j) lines) (S j) (j' - S j)) as Hs.
  rewrite nth_skipn_add in Hs. replace (S j + (j' - S j)) with j' in Hs by lia.
  apply Hs. intros E. unfold heading_at in Hh. rewrite E in Hh. inversion Hh.
Qed.

(** X4. When the heading of a section occurs on one line only, and that
    line is a heading of no other section, the entry of the section is made
    of the lines strictly between that line and the next line that is a
    heading (or the end of the document), joined with newlines and
    stripped. *)
Theorem find_sections_single_heading (text name : str) (j : nat) :
  heading_at (doc_lines text) j name ->
  (forall k, k <> j -> ~ heading_at (doc_lines text) k name) ->
  (forall n', heading_at (doc_lines text) j n' -> n' = name) ->
  find_sections text !! name
  = Some (section_body (doc_lines text) j
            (next_heading_line (S j) (skipn (S j) (doc_lines text)))).
Proof.
  intros Hj Honce Honly.
  rewrite <- (span_end_single_heading (doc_lines text) j name Honly).
  apply find_sections_last_marker; [exact Hj|].
  intros k Hk. apply Honce. lia.
Qed.

(** X5. The entries of two sections are cut from line ranges that do not
    overlap and follow the order of their headings: when the last heading
    of one section is on line j1 and the last heading of another on a later
    line j2, the first entry is the lines from j1+1 up to some e1 <= j2 and
    the second the lines from j2+1 up to some e2 within the document. *)
Theorem find_sections_spans_disjoint (text n1 n2 : str) (j1 j2 : nat) :
  j1 < j2 ->
  heading_at (doc_lines text) j1 n1 ->
  (forall k, j1 < k -> ~ heading_at (doc_lines text) k n1) ->
  heading_at (doc_lines text) j2 n2 ->
  (forall k, j2 < k -> ~ heading_at (doc_lines text) k n2) ->
  exists e1 e2,
    find_sections text !! n1 = Some (section_body (doc_lines text) j1 e1)
    /\ find_sections text !! n2 = Some (section_body (doc_lines text) j2 e2)
    /\ j1 <= e1 /\ e1 <= j2 /\ j2 <= e2 /\ e2 <= length (doc_lines text).
Proof.
  intros Hlt H1 L1 H2 L2.
  exists (span_end (doc_lines text) j1 n1), (span_end (doc_lines text) j2 n2).
  pose proof (heading_at_lt _ _ _ H1) as B1. pose proof (heading_at_lt _ _ _ H2) as B2.
  pose proof (span_end_bounds (doc_lines text) j1 n1 B1).
  pose proof (span_end_bounds (doc_lines text) j2 n2 B2).
  pose proof (span_end_before_heading (doc_lines text) j1 j2 n1 n2 Hlt H2).
  repeat split; try lia; apply find_sections_last_marker; assumption.
Qed.

End SpansMore.

(** ** More on the service and the module body *)

Section EffectsMore.
Context `{Library}.

Lemma appended_refl (w : world) : appended w w [] [].
Proof. split; rewrite app_nil_r; reflexivity. Qed.

Lemma appended_trans (w w1 w2 : world) (rs ps rs' ps' : list str) :
  appended w w1 rs ps -> appended w1 w2 rs' ps' -> appended w w2 (rs ++ rs') (ps ++ ps').
Proof.
  intros [E1 E2] [E3 E4]. split; [rewrite E3, E1 | rewrite E4, E2]; apply eq_sym, app_assoc.
Qed.

Lemma sends_ret {A} (a : A) : sends_at_most 0 (mret a : M A).
Proof. intros w. exists [], []. split; [apply appended_refl | simpl; lia]. Qed.

Lemma sends_getitem {V} (d : gmap str V) (key : str) : sends_at_most 0 (getitem d key).
Proof.
  intros w. exists [], []. unfold getitem.
  destruct (d !! key); (split; [apply appended_refl | simpl; lia]).
Qed.

Lemma sends_bind {A B} (n1 n2 : nat) (m : M A) (f : A -> M B) :
  sends_at_most n1 m -> (forall a, sends_at_most n2 (f a)) ->
  sends_at_most (n1 + n2) (m ≫= f).
Proof.
  intros Hm Hf w. destruct (Hm w) as (rs & ps & Ha & Hp & Hr).
  run_monad. destruct (m w) as [[a|e] w1]; simpl in Ha.
  - destruct (Hf a w1) as (rs' & ps' & Ha' & Hp' & Hr').
    exists (rs ++ rs'), (ps ++ ps'). split; [exact (appended_trans _ _ _ _ _ _ _ Ha Ha')|].
    rewrite !length_app. lia.
  - exists rs, ps. split; [exact Ha | lia].
Qed.

Lemma sends_weaken {A} (n n' : nat) (m : M A) :
  n <= n' -> sends_at_most n m -> sends_at_most n' m.
Proof.
  intros Hn Hm w. destruct (Hm w) as (rs & ps & Ha & Hp & Hr).
  exists rs, ps. split; [exact Ha | lia].
Qed.


Lemma sends_call_llm (section body : str) : sends_at_most 1 (call_llm section body).
Proof.
  intros w. destruct (decide (blank body)) as [Hb|Hb].
  - rewrite (call_llm_blank section body w Hb). exists [], [].
    split; [apply appended_refl | simpl; lia].
  - rewrite (call_llm_sent section body w Hb). cbv zeta.
    destruct (re_search JSON_SPAN_RE _) as [span|];
      [destruct (json_loads span) as [[]|]|]; simpl.
    all: first
      [ exists [full_prompt section body], [];
        split; [split; simpl; rewrite ?app_nil_r; reflexivity | simpl; lia]
      | exists [full_prompt section body], [warn_invalid_json section];
        split; [split; reflexivity | simpl; lia]
      | exists [full_prompt section body], [warn_no_json section];
        split; [split; reflexivity | simpl; lia] ].
Qed.

Lemma sends_extract_each (names : list str) (sections : gmap str str) :
  forall out : gmap str json,
  sends_at_most (length names) (extract_each names sections out).
Proof.
  induction names as [|sec rest IH]; intros out; simpl.
  - apply sends_ret.
  - apply (sends_bind 0 (S (length rest))); [apply sends_getitem|]. intros body.
    apply (sends_bind 1 (length rest)); [apply sends_call_llm|]. intros v. apply IH.
Qed.

Lemma sends_ensure_projects (sections : gmap str str) (out : gmap str json) :
  sends_at_most 1 (ensure_projects sections out).
Proof.
  unfold ensure_projects.
  apply (sends_bind 0 1); [apply sends_getitem|]. intros projects.
  destruct (truthy projects); [apply (sends_weaken 0); [lia | apply sends_ret]|].
  apply (sends_bind 0 1); [apply sends_getitem|]. intros work.
  destruct (List.filter _ _); [apply (sends_weaken 0); [lia | apply sends_ret]|].
  apply (sends_bind 1 0); [apply sends_call_llm|]. intros parsed.
  destruct (truthy parsed); apply sends_ret.
Qed.

Lemma sends_ensure_certifications (sections : gmap str str) (out : gmap str json) :
  sends_at_most 1 (ensure_certifications sections out).
Proof.
  unfold ensure_certifications.
  apply (sends_bind 0 1); [apply sends_getitem|]. intros certs.
  destruct (truthy certs); [apply (sends_weaken 0); [lia | apply sends_ret]|].
  destruct (_ ++ _); [apply (sends_weaken 0); [lia | apply sends_ret]|].
  apply (sends_bind 1 0); [apply sends_call_llm|]. intros parsed.
  destruct (truthy parsed); apply sends_ret.
Qed.



(** X7. Whatever the document and whatever the service replies, the
    module body sends at most eight requests while it builds the record (the
    summary, five sections and the two enrichment steps) and prints at most
    one warning per request; earlier entries of the log are never changed. *)
Theorem main_sends_at_most_eight (pdf_text : str) : sends_at_most 8 (main pdf_text).
Proof.
  unfold main.
  apply (sends_bind 0 8); [apply sends_getitem|]. intros contact_body.
  apply (sends_bind 0 8); [apply sends_getitem|]. intros title_body.
  apply (sends_bind 0 8); [apply sends_getitem|]. intros summary_body.
  apply (sends_bind 1 7); [apply sends_call_llm|]. intros summary.
  apply (sends_bind 2 5); [apply sends_extract_each|]. intros out1.
  apply (sends_bind 3 2); [apply sends_extract_each|]. intros out2.
  apply (sends_bind 1 1); [apply sends_ensure_projects|]. intros out3.
  apply (sends_bind 1 0); [apply sends_ensure_certifications|]. intros out4.
  apply sends_ret.
Qed.

End EffectsMore.

Section SafetyMore.
Context `{Library}.

Lemma safe_ret {A} (a : A) (w : world) (Q : A -> Prop) : Q a -> no_key_error (mret a) w Q.
Proof. intros Ha. exact Ha. Qed.

Lemma safe_bind {A B} (m : M A) (f : A -> M B) (w : world)
    (Q1 : A -> Prop) (Q2 : B -> Prop) :
  no_key_error m w Q1 -> (forall a w1, Q1 a -> no_key_error (f a) w1 Q2) ->
  no_key_error (m ≫= f) w Q2.
Proof.
  unfold no_key_error. intros Hm Hf. run_monad.
  destruct (m w) as [[a|e] w1]; simpl in *; [exact (Hf a w1 Hm) | exact Hm].
Qed.

Lemma safe_getitem {V} (d : gmap str V) (key : str) (w : world) :
  is_Some (d !! key) -> no_key_error (getitem d key) w (fun v => d !! key = Some v).
Proof. intros [v E]. unfold no_key_error. rewrite (getitem_Some d key v w E). exact E. Qed.

Lemma safe_call_llm (section body : str) (w : world) :
  no_key_error (call_llm section body) w (fun _ => True).
Proof.
  unfold no_key_error. destruct (decide (blank body)) as [Hb|Hb].
  - rewrite (call_llm_blank section body w Hb). exact I.
  - rewrite (call_llm_sent section body w Hb). cbv zeta.
    destruct (re_search JSON_SPAN_RE _) as [span|];
      [destruct (json_loads span) as [[]|]|]; exact I.
Qed.




Lemma safe_ensure_certifications (sections : gmap str str) (out : gmap str json)
    (w : world) :
  is_Some (out !! u "Certifications") ->
  no_key_error (ensure_certifications sections out) w
    (fun out' => forall k, is_Some (out' !! k) <-> is_Some (out !! k)).
Proof.
  intros Ho. unfold ensure_certifications.
  eapply safe_bind; [apply safe_getitem, Ho|]. intros certs w1 _.
  destruct (truthy certs); [apply safe_ret; reflexivity|].
  destruct (_ ++ _); [apply safe_ret; reflexivity|].
  eapply safe_bind; [apply safe_call_llm|]. intros parsed w3 _.
  destruct (truthy parsed); apply safe_ret; [|reflexivity].
  intros k. destruct (decide (k = u "Certifications")) as [->|Hk].
  - rewrite lookup_insert_eq. split; [intros _; exact Ho | intros _; eexists; reflexivity].
  - rewrite lookup_insert_ne by (intros E; apply Hk; symmetry; exact E). reflexivity.
Qed.


End SafetyMore.

Section MainMore.
Context `{Library}.

Lemma fill_placeholders_other (names : list str) (k : str) :
  k ∉ names -> forall out : gmap str json, fill_placeholders names out !! k = out !! k.
Proof.
  unfold fill_placeholders.
  induction names as [|sec rest IH]; intros Hk out; simpl; [reflexivity|].
  rewrite IH by (intros Hin; apply Hk; right; exact Hin).
  apply lookup_insert_ne. intros <-. apply Hk. left.
Qed.

Lemma ensures_getitem {V} (d : gmap str V) (key : str) (w : world) :
  ensures (getitem d key) w (fun v => d !! key = Some v).
Proof.
  intros v w'. unfold getitem. destruct (d !! key) as [v'|]; [|discriminate].
  intros E. injection E as <- _. reflexivity.
Qed.




(** X9. The Contact Information and the Target Title of a record the
    module body builds are fixed by the document alone: no later step, and
    no reply of the service, changes them.  The contact record is read from
    the body under the contact heading, or from the whole document when
    that body is empty; the title is the first line of the title body that
    is not blank, or the empty string. *)
Theorem main_fixed_fields (pdf_text contact_body title_body : str) (w : world) :
  find_sections (remove_char CR pdf_text) !! u "Contact Information" = Some contact_body ->
  find_sections (remove_char CR pdf_text) !! u "Target Title" = Some title_body ->
  ensures (main pdf_text) w
    (fun out =>
       out !! u "Contact Information"
       = Some (contact_json
                 (extract_contact (if nonempty contact_body then contact_body
                                   else remove_char CR pdf_text)))
       /\ out !! u "Target Title" = Some (JStr (target_title title_body))).
Proof.
  intros Ec Et. unfold main.
  eapply ensures_bind; [apply ensures_getitem|]. intros cb w1 Ecb.
  rewrite Ec in Ecb. injection Ecb as <-.
  eapply ensures_bind; [apply ensures_getitem|]. intros tb w2 Etb.
  rewrite Et in Etb. injection Etb as <-.
  eapply ensures_bind; [apply ensures_any|]. intros summary_body w3 _.
  eapply ensures_bind; [apply ensures_any|]. intros summary w4 _.
  eapply ensures_bind; [apply extract_each_keeps|]. intros out1 w5 [K1 _].
  eapply ensures_bind; [apply extract_each_keeps|]. intros out2 w6 [K2 _].
  eapply ensures_bind; [apply ensure_projects_keeps|]. intros out3 w7 [K3 _].
  eapply ensures_bind; [apply ensure_certifications_keeps|]. intros out4 w8 [K4 _].
  apply ensures_ret.
  split; (rewrite fill_placeholders_other by not_in_keys;
          rewrite K4 by key_ne; rewrite K3 by key_ne;
          rewrite K2 by not_in_keys; rewrite K1 by not_in_keys).
  - rewrite !lookup_insert_ne by key_ne. rewrite lookup_insert_eq.
    destruct (nonempty contact_body); reflexivity.
  - rewrite lookup_insert_ne by key_ne. rewrite lookup_insert_eq. reflexivity.
Qed.

End MainMore.

Section QuietRun.
Context `{Library}.

Lemma find_sections_no_heading (text name : str) :
  no_heading text -> name ∈ SECTION_ORDER -> find_sections text !! name = Some [].
Proof.
  intros Hno Hin. unfold find_sections. fold (doc_lines text). rewrite scan_markers_nil.
  - unfold sort_markers. cbn [fold_right combine fold_left].
    apply init_sections_lookup, Hin.
  - unfold no_heading in Hno. eapply Forall_impl; [exact Hno|].
    intros ln. apply headings_of_nil.
Qed.

Lemma extract_each_blank (names : list str) (sections : gmap str str) :
  (forall k, k ∈ names -> sections !! k = Some []) ->
  forall (out : gmap str json) (w : world),
  extract_each names sections out w
  = (Return (fold_left (fun o sec => <[sec := sentinel sec]> o) names out), w).
Proof.
  induction names as [|sec rest IH]; intros Hs out w; simpl; [reflexivity|].
  rewrite (bind_Return _ _ _ _ _ (getitem_Some _ _ _ w (Hs sec ltac:(left)))).
  rewrite (bind_Return _ _ _ _ _ (call_llm_blank sec [] w eq_refl)).
  apply IH. intros k Hk. apply Hs. right. exact Hk.
Qed.

Lemma main_quiet (pdf_text : str) (w : world) :
  no_heading (remove_char CR pdf_text) ->
  exists out,
    main pdf_text w = (Return out, w)
    /\ out !! u "Contact Information"
       = Some (contact_json (extract_contact (remove_char CR pdf_text)))
    /\ out !! u "Target Title" = Some (JStr [])
    /\ out !! u "Professional Summary" = Some (JStr [])
    /\ Forall (fun k => out !! k = Some (JArr []))
         [u "Work Experience"; u "Education"; u "Skills & Interests"; u "Certifications";
          u "Awards & Scholarships"; u "Projects"; u "Volunteering & Leadership";
          u "Publications"].
Proof.
  intros Hno.
  assert (Hs : forall k, k ∈ SECTION_ORDER ->
                 find_sections (remove_char CR pdf_text) !! k = Some [])
    by (intros k; apply find_sections_no_heading, Hno).
  assert (Hs1 : forall k, k ∈ [u "Work Experience"; u "Education"] ->
                  find_sections (remove_char CR pdf_text) !! k = Some []).
  { intros k Hk. apply Hs.
    repeat (apply elem_of_cons in Hk as [->|Hk]; [in_keys|]). inversion Hk. }
  assert (Hs2 : forall k, k ∈ [u "Skills & Interests"; u "Certifications"; u "Projects"] ->
                  find_sections (remove_char CR pdf_text) !! k = Some []).
  { intros k Hk. apply Hs.
    repeat (apply elem_of_cons in Hk as [->|Hk]; [in_keys|]). inversion Hk. }
  eexists. split.
  - unfold main. cbv zeta.
    rewrite (bind_Return _ _ _ _ _
               (getitem_Some _ _ _ w (Hs (u "Contact Information") ltac:(in_keys)))).
    rewrite (bind_Return _ _ _ _ _
               (getitem_Some _ _ _ w (Hs (u "Target Title") ltac:(in_keys)))).
    rewrite (bind_Return _ _ _ _ _
               (getitem_Some _ _ _ w (Hs (u "Professional Summary") ltac:(in_keys)))).
    rewrite (bind_Return _ _ _ _ _ (call_llm_blank _ [] w eq_refl)).
    rewrite (bind_Return _ _ _ _ _ (extract_each_blank _ _ Hs1 _ w)).
    rewrite (bind_Return _ _ _ _ _ (extract_each_blank _ _ Hs2 _ w)).
    simpl fold_left.
    match goal with |- (ensure_projects ?s ?o ≫= _) w = _ =>
      assert (Ep : ensure_projects s o w = (Return o, w))
    end.
    { unfold ensure_projects.
      rewrite (bind_Return _ _ _ _ _ (getitem_Some _ _ (sentinel (u "Projects")) w
                 ltac:(apply lookup_insert_eq))).
      replace (truthy (sentinel (u "Projects"))) with false by (vm_compute; reflexivity).
      rewrite (bind_Return _ _ _ _ _
                 (getitem_Some _ _ _ w (Hs (u "Work Experience") ltac:(in_keys)))).
      reflexivity. }
    rewrite (bind_Return _ _ _ _ _ Ep).
    match goal with |- (ensure_certifications ?s ?o ≫= _) w = _ =>
      assert (Ec : ensure_certifications s o w = (Return o, w))
    end.
    { match goal with |- ensure_certifications _ ?o _ = _ =>
        assert (Eg : o !! u "Certifications" = Some (sentinel (u "Certifications")))
          by (rewrite lookup_insert_ne by key_ne; apply lookup_insert_eq)
      end.
      unfold ensure_certifications.
      rewrite (bind_Return _ _ _ _ _ (getitem_Some _ _ _ w Eg)).
      replace (truthy (sentinel (u "Certifications"))) with false
        by (vm_compute; reflexivity).
      rewrite (Hs (u "Skills & Interests") ltac:(in_keys)).
      rewrite (Hs (u "Work Experience") ltac:(in_keys)). reflexivity. }
    rewrite (bind_Return _ _ _ _ _ Ec). reflexivity.
  - split; [|split; [|split]].
    + rewrite fill_placeholders_other by not_in_keys.
      rewrite !lookup_insert_ne by key_ne. rewrite lookup_insert_eq. reflexivity.
    + rewrite fill_placeholders_other by not_in_keys.
      rewrite !lookup_insert_ne by key_ne. rewrite lookup_insert_eq. reflexivity.
    + rewrite fill_placeholders_other by not_in_keys.
      rewrite !lookup_insert_ne by key_ne. rewrite lookup_insert_eq. reflexivity.
    + repeat apply List.Forall_cons; try apply List.Forall_nil.
      all: first
        [ apply fill_placeholders_lookup; left; split; [|in_keys];
          rewrite !lookup_insert_ne by key_ne; apply lookup_empty
        | rewrite fill_placeholders_other by not_in_keys;
          rewrite ?lookup_insert_ne by key_ne; rewrite lookup_insert_eq;
          vm_compute; reflexivity ].
Qed.

(** X10. A document in which no line is a heading is analysed without the
    service: the module body sends no request, prints no warning and builds
    a record whose contact information is read from the whole document,
    whose Target Title and Professional Summary are the empty string and
    whose eight other entries are the empty list. *)
Theorem main_without_headings (pdf_text : str) (w : world) :
  no_heading (remove_char CR pdf_text) ->
  exists out,
    main pdf_text w = (Return out, w)
    /\ out !! u "Contact Information"
       = Some (contact_json (extract_contact (remove_char CR pdf_text)))
    /\ out !! u "Target Title" = Some (JStr [])
    /\ out !! u "Professional Summary" = Some (JStr [])
    /\ Forall (fun k => out !! k = Some (JArr []))
         [u "Work Experience"; u "Education"; u "Skills & Interests"; u "Certifications";
          u "Awards & Scholarships"; u "Projects"; u "Volunteering & Leadership";
          u "Publications"].
Proof. exact (main_quiet pdf_text w). Qed.

End QuietRun.

(** ** More on the enrichment steps *)

Section EnrichmentMore.
Context `{Library}.

(** X11. The two enrichment steps read the record with a subscript, so a
    record without the key makes them raise KeyError and leave the log as
    it was.  They differ on the sections: ensure_projects subscripts the
    Work Experience section and raises KeyError when it is missing, while
    ensure_certifications reads its two sections with a default and never
    raises KeyError once the record has a Certifications key. *)
Theorem enrichment_lookup_errors (sections : gmap str str) (output : gmap str json)
    (w : world) :
  (output !! u "Projects" = None ->
     ensure_projects sections output w = (Raise (KeyError (u "Projects")), w))
  /\ (forall v, output !! u "Projects" = Some v -> truthy v = false ->
      sections !! u "Work Experience" = None ->
      ensure_projects sections output w = (Raise (KeyError (u "Work Experience")), w))
  /\ (output !! u "Certifications" = None ->
     ensure_certifications sections output w
     = (Raise (KeyError (u "Certifications")), w))
  /\ (is_Some (output !! u "Certifications") ->
      forall k, fst (ensure_certifications sections output w) <> Raise (KeyError k)).
Proof.
  split; [|split; [|split]].
  - intros E. unfold ensure_projects, getitem. rewrite E. reflexivity.
  - intros v E Hv Es. unfold ensure_projects.
    rewrite (bind_Return _ _ _ _ _ (getitem_Some _ _ _ w E)), Hv.
    unfold getitem. rewrite Es. reflexivity.
  - intros E. unfold ensure_certifications, getitem. rewrite E. reflexivity.
  - intros Hs k Ek.
    pose proof (safe_ensure_certifications sections output w Hs) as Hsafe.
    unfold no_key_error in Hsafe. rewrite Ek in Hsafe. exact Hsafe.
Qed.

Lemma ensure_projects_improves (sections : gmap str str) (out : gmap str json)
    (w : world) :
  ensures (ensure_projects sections out) w (improved (u "Projects") out).
Proof.
  unfold ensure_projects.
  eapply ensures_bind; [apply ensures_getitem|]. intros projects w1 Ep. cbv beta in Ep.
  destruct (truthy projects) eqn:Hp; [apply ensures_ret; left; reflexivity|].
  eapply ensures_bind; [apply ensures_any|]. intros work w2 _.
  destruct (List.filter _ _); [apply ensures_ret; left; reflexivity|].
  eapply ensures_bind; [apply ensures_any|]. intros parsed w3 _.
  destruct (truthy parsed) eqn:Hv; apply ensures_ret; [|left; reflexivity].
  right. exists projects, parsed. auto.
Qed.

Lemma ensure_certifications_improves (sections : gmap str str) (out : gmap str json)
    (w : world) :
  ensures (ensure_certifications sections out) w (improved (u "Certifications") out).
Proof.
  unfold ensure_certifications.
  eapply ensures_bind; [apply ensures_getitem|]. intros certs w1 Ep. cbv beta in Ep.
  destruct (truthy certs) eqn:Hp; [apply ensures_ret; left; reflexivity|].
  destruct (_ ++ _); [apply ensures_ret; left; reflexivity|].
  eapply ensures_bind; [apply ensures_any|]. intros parsed w3 _.
  destruct (truthy parsed) eqn:Hv; apply ensures_ret; [|left; reflexivity].
  right. exists certs, parsed. auto.
Qed.

(** X12. An enrichment step only ever improves the record: what it returns
    is the record it was given, or that record with an empty (falsy)
    Projects, respectively Certifications, value replaced by a non-empty
    (truthy) one.  It never stores an empty value, never removes a key and
    never touches another key. *)
Theorem enrichment_only_improves (sections : gmap str str) (out : gmap str json)
    (w : world) :
  ensures (ensure_projects sections out) w (improved (u "Projects") out)
  /\ ensures (ensure_certifications sections out) w (improved (u "Certifications") out).
Proof. split; [apply ensure_projects_improves | apply ensure_certifications_improves]. Qed.

(** X13. When the Certifications value of the record is empty (falsy),
    ensure_certifications gathers the lines that contain "cert" in any
    letter case, those of the Skills & Interests body first and then those
    of the Work Experience body, a missing section counting as empty.  With
    no such line it returns the record as it was and sends nothing;
    otherwise it calls call_llm for "Certifications" on the lines joined
    with newlines and stores the result only if it is non-empty. *)
Theorem ensure_certifications_mines_two_sections
    (sections : gmap str str) (output : gmap str json) (certs : json) (w : world) :
  output !! u "Certifications" = Some certs -> truthy certs = false ->
  (cert_lines sections <> [] ->
     ensure_certifications sections output w =
       match call_llm (u "Certifications") (join [LF] (cert_lines sections)) w with
       | (Return parsed, w') =>
           (Return (if truthy parsed then <[u "Certifications" := parsed]> output
                    else output), w')
       | (Raise e, w') => (Raise e, w')
       end)
  /\ (cert_lines sections = [] -> ensure_certifications sections output w = (Return output, w)).
Proof.
  intros Eo Hc. unfold ensure_certifications.
  rewrite (bind_Return _ _ _ _ _ (getitem_Some _ _ _ w Eo)), Hc.
  fold (cert_lines sections). split; intros Hl.
  - destruct (cert_lines sections) as [|ln lns]; [contradiction|].
    run_monad. destruct (call_llm _ _ w) as [[parsed|e] w']; [|reflexivity].
    destruct (truthy parsed); reflexivity.
  - rewrite Hl. reflexivity.
Qed.

End EnrichmentMore.

(** ** More on the JSON span *)

Section SpanMore.
Context `{Library}.

Lemma json_span_at (c : N) (s : str) (p : option N) :
  run JSON_SPAN_RE p [] (c :: s) group_here
  = if N.eqb c (ch "{") then rep Dot 0 None (Some c) [c] s after_span else None.
Proof. reflexivity. Qed.

Lemma json_span_no_close (s : str) :
  ch "}" ∉ s -> forall p : option N, search_from JSON_SPAN_RE p s = None.
Proof.
  induction s as [|c s IH]; intros Hs p.
  - reflexivity.
  - assert (Hs' : ch "}" ∉ s) by (intros Hin; apply Hs; right; exact Hin).
    cbn [search_from]. rewrite json_span_at, (dot_star_no_brace s) by exact Hs'.
    destruct (N.eqb c (ch "{")); apply IH, Hs'.
Qed.

Lemma json_span_no_open (s : str) :
  ch "{" ∉ s -> forall p : option N, search_from JSON_SPAN_RE p s = None.
Proof.
  induction s as [|c s IH]; intros Hs p.
  - reflexivity.
  - cbn [search_from]. rewrite json_span_at.
    destruct (N.eqb_spec c (ch "{")) as [->|_]; [exfalso; apply Hs; left|].
    apply IH. intros Hin. apply Hs. right. exact Hin.
Qed.

Lemma json_span_skip (pre s : str) :
  ch "{" ∉ pre ->
  forall p : option N,
  exists p', search_from JSON_SPAN_RE p (pre ++ s) = search_from JSON_SPAN_RE p' s.
Proof.
  induction pre as [|c pre IH]; intros Hpre p; [exists p; reflexivity|].
  simpl app. cbn [search_from]. rewrite json_span_at.
  destruct (N.eqb_spec c (ch "{")) as [->|_]; [exfalso; apply Hpre; left|].
  apply IH. intros Hin. apply Hpre. right. exact Hin.
Qed.

(** What follows the first occurrence of [c] contains what follows any
    occurrence. *)
Lemma after_first (c : N) (pre rest pre' rest' : str) :
  c ∉ pre -> pre ++ c :: rest = pre' ++ c :: rest' -> exists z, rest = z ++ rest'.
Proof.
  revert pre'. induction pre as [|a pre IH]; intros pre' Hpre E.
  - destruct pre' as [|a' pre']; simpl in E.
    + injection E as E2. exists []. exact E2.
    + injection E as E1 E2. exists (pre' ++ [c]). rewrite <- app_assoc. exact E2.
  - destruct pre' as [|a' pre']; simpl in E; injection E as E1 E2.
    + exfalso. apply Hpre. subst a. left.
    + apply (IH pre'); [|exact E2]. intros Hin. apply Hpre. right. exact Hin.
Qed.

(** X14. The search for a JSON span in a reply succeeds exactly when some
    opening brace is followed, anywhere later and across line breaks, by a
    closing brace; what it then finds runs from the first opening brace of
    the reply to the last closing brace. *)
Theorem json_span_first_to_last (s : str) :
  (re_search JSON_SPAN_RE s = None
   <-> forall pre inner post, s <> pre ++ ch "{" :: inner ++ ch "}" :: post)
  /\ (forall g, re_search JSON_SPAN_RE s = Some g ->
      exists pre inner post,
        s = pre ++ g ++ post /\ g = ch "{" :: inner ++ [ch "}"]
        /\ (ch "{" ∉ pre) /\ (ch "}" ∉ post)).
Proof.
  destruct (decide (ch "{" ∈ s)) as [Ho|Ho].
  - apply list_elem_of_split_l in Ho as (pre & rest & -> & Hpre).
    destruct (decide (ch "}" ∈ rest)) as [Hc|Hc].
    + apply list_elem_of_split_r in Hc as (inner & post & -> & Hpost).
      rewrite (json_span_found pre inner post Hpre Hpost). split.
      * split; [discriminate|]. intros Hno. exfalso. exact (Hno pre inner post eq_refl).
      * intros g [= <-]. exists pre, inner, post. repeat split; auto.
        simpl. rewrite <- app_assoc. reflexivity.
    + assert (E : re_search JSON_SPAN_RE (pre ++ ch "{" :: rest) = None).
      { unfold re_search. destruct (json_span_skip pre (ch "{" :: rest) Hpre None) as [p' ->].
        cbn [search_from]. rewrite json_span_at, N.eqb_refl.
        rewrite (dot_star_no_brace rest) by exact Hc. apply json_span_no_close, Hc. }
      rewrite E. split; [|discriminate].
      split; [|reflexivity]. intros _ pre' inner post E'.
      destruct (after_first _ _ _ _ _ Hpre E') as [z ->].
      apply Hc. apply elem_of_app. right. apply elem_of_app. right. left.
  - rewrite (json_span_no_open s Ho None : re_search JSON_SPAN_RE s = None).
    split; [|discriminate]. split; [|reflexivity].
    intros _ pre inner post ->. apply Ho. apply elem_of_app. right. left.
Qed.

End SpanMore.

(** ** More on extract_contact *)

Section ContactMore.
Context `{Library}.

(** [max(ents, key=len)] returns the first of the longest entities. *)
Lemma max_by_len_first_longest (rest : list str) :
  forall best : str,
  exists l1 l2,
    best :: rest = l1 ++ max_by_len best rest :: l2
    /\ Forall (fun e => length e < length (max_by_len best rest)) l1
    /\ Forall (fun e => length e <= length (max_by_len best rest)) l2.
Proof.
  induction rest as [|e rest IH]; intros best; simpl.
  - exists [], []. repeat split; constructor.
  - destruct (Nat.ltb_spec (length best) (length e)) as [Hlt|Hge].
    + destruct (IH e) as (l1 & l2 & E & H1 & H2).
      exists (best :: l1), l2. split; [simpl; rewrite <- E; reflexivity|].
      split; [|exact H2]. constructor; [|exact H1].
      destruct l1 as [|x l1]; simpl in E; injection E as E1 E2.
      * rewrite <- E1. exact Hlt.
      * subst x. apply List.Forall_inv in H1. cbv beta in H1. lia.
    + destruct (IH best) as (l1 & l2 & E & H1 & H2).
      destruct l1 as [|x l1]; simpl in E; injection E as E1 E2.
      * exists [], (e :: l2). split; [simpl; rewrite <- E1, E2; reflexivity|].
        split; [constructor|]. constructor; [rewrite <- E1; exact Hge | exact H2].
      * subst x. exists (best :: e :: l1), l2.
        split; [simpl; rewrite <- E2; reflexivity|]. split; [|exact H2].
        pose proof (List.Forall_inv H1) as Hb. cbv beta in Hb.
        constructor; [exact Hb|]. constructor; [lia|].
        exact (List.Forall_inv_tail H1).
Qed.

Lemma person_ents_qualify (text ent : str) :
  ent ∈ person_ents text ->
  (ent, u "PERSON") ∈ nlp text /\ 2 <= length (split_ws ent) /\ no_location_word ent.
Proof.
  unfold person_ents. intros Hin.
  apply list_elem_of_In, in_map_iff in Hin as ([e label] & <- & Hin).
  apply filter_In in Hin as [Hin Hq]. simpl in *.
  apply andb_prop in Hq as [Hq Hstop]. apply andb_prop in Hq as [Hlabel Hlen].
  unfold str_eqb in Hlabel. apply bool_decide_eq_true in Hlabel. subst label.
  split; [apply list_elem_of_In, Hin|]. split; [apply Nat.leb_le, Hlen|].
  unfold no_location_word. apply Forall_forall. intros tok Htok.
  apply negb_true_iff in Hstop.
  destruct (in_list (str_lower tok) LOCATION_STOP) eqn:E; [|reflexivity].
  rewrite <- Hstop. symmetry. apply existsb_exists. exists tok.
  split; [apply list_elem_of_In, Htok | exact E].
Qed.

Lemma names_from_entities (text e : str) (ents : list str) :
  name_line_of text = None ->
  person_ents (person_text text) = e :: ents ->
  First_Name (extract_contact text) = str_title (fst (HumanName (max_by_len e ents)))
  /\ Last_Name (extract_contact text) = str_title (snd (HumanName (max_by_len e ents))).
Proof.
  unfold name_line_of, person_text, extract_contact. simpl. intros Hn He.
  destruct (List.filter is_name_line (firstn 10 (contact_lines text))); [|discriminate].
  simpl. rewrite He. split; reflexivity.
Qed.

(** X15. When none of the first ten lines of the window is a name line and
    the recogniser reports qualifying PERSON entities in the first fifteen,
    the name is parsed from the longest of them, the first one among equally
    long ones; that entity has at least two tokens and none of its tokens is
    a location stop word. *)
Theorem name_from_longest_person (text : str) :
  name_line_of text = None ->
  person_ents (person_text text) <> [] ->
  exists e l1 l2,
    person_ents (person_text text) = l1 ++ e :: l2
    /\ Forall (fun x => length x < length e) l1
    /\ Forall (fun x => length x <= length e) l2
    /\ (e, u "PERSON") ∈ nlp (person_text text)
    /\ 2 <= length (split_ws e)
    /\ no_location_word e
    /\ First_Name (extract_contact text) = str_title (fst (HumanName e))
    /\ Last_Name (extract_contact text) = str_title (snd (HumanName e)).
Proof.
  intros Hn Hne.
  destruct (person_ents (person_text text)) as [|e0 ents] eqn:E; [contradiction|].
  destruct (max_by_len_first_longest ents e0) as (l1 & l2 & Es & H1 & H2).
  destruct (names_from_entities text e0 ents Hn E) as [Hf Hl].
  assert (Hin : max_by_len e0 ents ∈ person_ents (person_text text)).
  { rewrite E, Es. apply elem_of_app. right. left. }
  destruct (person_ents_qualify _ _ Hin) as (Hp & Ht & Hs).
  exists (max_by_len e0 ents), l1, l2. repeat split; assumption.
Qed.

Lemma splitlines_nil (s : str) : splitlines s = [] -> s = [].
Proof.
  destruct s as [|c s]; [reflexivity|]. simpl.
  destruct (islinebreak c); [discriminate|]. destruct (splitlines s); discriminate.
Qed.

Lemma splitlines_cons (c : N) (s : str) :
  splitlines (c :: s)
  = if islinebreak c then
      [] :: match s with
            | d :: s'' => if (c =? CR)%N && (d =? LF)%N then splitlines s'' else splitlines s
            | [] => []
            end
    else match splitlines s with
         | [] => [[c]]
         | l :: ls => (c :: l) :: ls
         end.
Proof. reflexivity. Qed.

(** A line feed closes the line it ends, whatever follows. *)
Lemma splitlines_app_LF (b : str) :
  forall a : str, splitlines (a ++ LF :: b) = splitlines (a ++ [LF]) ++ splitlines b.
Proof.
  intros a. remember (length a) as n eqn:En. revert a En.
  induction n as [n IH] using lt_wf_ind. intros a En.
  destruct a as [|c a].
  - simpl. destruct b; reflexivity.
  - rewrite <- !app_comm_cons. rewrite (splitlines_cons c (a ++ LF :: b)), (splitlines_cons c (a ++ [LF])).
    destruct (islinebreak c) eqn:Hc.
    + destruct a as [|d a]; rewrite <- ?app_comm_cons, ?app_nil_l.
      * rewrite N.eqb_refl, andb_true_r.
        destruct (N.eqb_spec c CR) as [->|_]; [reflexivity|].
        simpl. destruct b; reflexivity.
      * destruct ((c =? CR)%N && (d =? LF)%N).
        -- simpl. f_equal. apply (IH (length a)); [subst n; simpl; lia | reflexivity].
        -- simpl. f_equal.
           apply (IH (length (d :: a)) ltac:(subst n; simpl; lia) (d :: a) eq_refl).
    + rewrite (IH (length a) ltac:(subst n; simpl; lia) a eq_refl).
      destruct (splitlines (a ++ [LF])) as [|l ls] eqn:E; [|reflexivity].
      apply splitlines_nil in E. destruct a; discriminate.
Qed.

(** X16. The contact record depends on the first thirty lines only: once
    thirty lines have been closed by a line feed, what follows changes no
    field of the record. *)
Theorem extract_contact_window (first_lines more_text : str) :
  30 <= length (splitlines (first_lines ++ [LF])) ->
  extract_contact (first_lines ++ LF :: more_text) = extract_contact (first_lines ++ [LF]).
Proof.
  intros Hlen.
  assert (E : contact_lines (first_lines ++ LF :: more_text)
              = contact_lines (first_lines ++ [LF])).
  { unfold contact_lines. rewrite splitlines_app_LF.
    rewrite firstn_app. replace (30 - _) with 0 by lia.
    simpl firstn at 2. rewrite app_nil_r. reflexivity. }
  unfold extract_contact. rewrite E. reflexivity.
Qed.

End ContactMore.

Section Substitution.
Context `{Library}.

Lemma matches_nonnull (r : re) (p : option N) (w n : str) :
  matches r p w n -> nullable r = false -> w <> [].
Proof.
  induction 1 as [| | r1 r2 p w1 w2 n _ IH1 _ IH2 | r1 r2 p w n _ IH | r1 r2 p w n _ IH
                 | a lo hi p w n _ Hlo _ | | |]; simpl; intros Hn; try discriminate.
  - apply andb_false_iff in Hn as [Hn|Hn].
    + specialize (IH1 Hn). destruct w1; [contradiction | discriminate].
    + specialize (IH2 Hn). destruct w1; [exact IH2 | discriminate].
  - apply orb_false_iff in Hn as [Hn _]. exact (IH Hn).
  - apply orb_false_iff in Hn as [_ Hn]. exact (IH Hn).
  - apply Nat.eqb_neq in Hn. destruct w; [simpl in Hlo; lia | discriminate].
Qed.

(** What [re.sub] leaves in a text: every character of the result comes
    from a replacement or is a character of the subject at which the
    pattern did not match. *)
Lemma sub_from_chars (r : re) (repl : str -> str) (ok : N -> Prop) :
  nullable r = false ->
  (forall p s g, run r p [] s group_here = Some g ->
     Forall (fun c => c = ch " " \/ (c ∈ g /\ ok c)) (repl g)) ->
  (forall p c s, run r p [] (c :: s) group_here = None -> ok c) ->
  forall (fuel : nat) (p : option N) (s : str),
  length s < fuel ->
  Forall (fun c => c = ch " " \/ (c ∈ s /\ ok c)) (sub_from fuel r repl p s).
Proof.
  intros Hn Hrepl Hraw.
  induction fuel as [|fuel IH]; intros p s Hlen; [lia|].
  cbn [sub_from]. destruct (run r p [] s group_here) as [g|] eqn:E.
  - pose proof (Hrepl p s g E) as Hg.
    apply run_group_here in E as (w & rest & -> & -> & Hm). simpl in Hg |- *.
    pose proof (matches_nonnull r p w rest Hm Hn) as Hw.
    destruct w as [|x w]; [contradiction|].
    apply Forall_app. split.
    + eapply Forall_impl; [exact Hg|]. intros c [Hc|[Hc Hok]]; [left; exact Hc|].
      right. split; [apply elem_of_app; left; exact Hc | exact Hok].
    + rewrite skipn_app, skipn_all, Nat.sub_diag, drop_0, app_nil_l.
      eapply Forall_impl; [apply IH; rewrite length_app in Hlen; simpl in Hlen; lia|].
      intros c [Hc|[Hc Hok]]; [left; exact Hc|].
      right. split; [apply elem_of_app; right; exact Hc | exact Hok].
  - destruct s as [|c s]; [constructor|]. constructor.
    + right. split; [left | exact (Hraw p c s E)].
    + eapply Forall_impl; [apply IH; simpl in Hlen; lia|].
      intros d [Hd|[Hd Hok]]; [left; exact Hd|].
      right. split; [right; exact Hd | exact Hok].
Qed.

Lemma re_sub_chars (r : re) (repl : str -> str) (ok : N -> Prop) (s : str) :
  nullable r = false ->
  (forall p s g, run r p [] s group_here = Some g ->
     Forall (fun c => c = ch " " \/ (c ∈ g /\ ok c)) (repl g)) ->
  (forall p c s, run r p [] (c :: s) group_here = None -> ok c) ->
  Forall (fun c => c = ch " " \/ (c ∈ s /\ ok c)) (re_sub r repl s).
Proof. intros Hn Hrepl Hraw. apply sub_from_chars; auto. Qed.

Lemma separators_removed (s : str) :
  Forall (fun c => c = ch " " \/ (c ∈ s /\ is_separator c = false))
         (re_sub SEPARATORS_RE (fun _ => u " ") s).
Proof.
  apply re_sub_chars; [reflexivity| |].
  - intros p t g _. constructor; [left; reflexivity | constructor].
  - intros p c t E. unfold is_separator.
    destruct (atom_ok _ c) eqn:Hc; [|reflexivity]. exfalso.
    assert (Hs : is_Some (run SEPARATORS_RE p [] ([c] ++ t) group_here)).
    { apply (rep_complete _ [c] 1 None p [] t group_here).
      - constructor; [exact Hc | constructor].
      - simpl. lia.
      - discriminate.
      - eexists. reflexivity. }
    simpl app in Hs. rewrite E in Hs. destruct Hs as [? Hs]. discriminate Hs.
Qed.

Lemma camel_split_chars (s : str) :
  Forall (fun c => c = ch " " \/ (c ∈ s /\ True)) (re_sub CAMEL_RE camel_repl s).
Proof.
  apply re_sub_chars; [reflexivity| |auto].
  intros p t g _. unfold camel_repl.
  destruct g as [|a [|b [|c g]]].
  1,2,4: apply Forall_forall; intros x Hx; right; split; [exact Hx | exact I].
  constructor; [right; split; [left | exact I]|].
  constructor; [left; reflexivity|].
  constructor; [right; split; [right; left | exact I] | constructor].
Qed.

Lemma before_chars (sep : N) (s : str) :
  Forall (fun c => c ∈ s /\ c <> sep) (before sep s).
Proof.
  induction s as [|c s IH]; simpl; [constructor|].
  destruct (N.eqb_spec c sep) as [->|Hc]; constructor.
  - split; [left | exact Hc].
  - eapply Forall_impl; [exact IH|]. intros d [Hd Hne]. split; [right; exact Hd | exact Hne].
Qed.

Lemma email_words_chars (email : str) :
  Forall (fun c => c = ch " "
                   \/ (c ∈ email /\ is_separator c = false /\ c <> ch "@"))
         (email_words email).
Proof.
  unfold email_words. apply Forall_forall. intros c Hc.
  pose proof (camel_split_chars
                (re_sub SEPARATORS_RE (fun _ => u " ") (before (ch "@") email))) as H1.
  rewrite Forall_forall in H1. destruct (H1 c Hc) as [->|[Hc1 _]]; [left; reflexivity|].
  pose proof (separators_removed (before (ch "@") email)) as H2.
  rewrite Forall_forall in H2. destruct (H2 c Hc1) as [->|[Hc2 Hsep]]; [left; reflexivity|].
  pose proof (before_chars (ch "@") email) as H3.
  rewrite Forall_forall in H3. destruct (H3 c Hc2) as [Hc3 Hat].
  right. auto.
Qed.

(** X17. When there is no name line among the first ten lines of the window
    and no qualifying PERSON entity, the name is parsed from the e-mail
    address found in the window: from the part before its first [@], in
    which the dots, underscores and hyphens have been replaced by spaces
    and camel case has been split.  So every character given to the name
    parser is a space or a character of the address that is neither a
    separator nor [@]. *)
Theorem name_from_email_address (text : str) :
  name_line_of text = None ->
  person_ents (person_text text) = [] ->
  First_Name (extract_contact text)
  = str_title (fst (HumanName (email_words (Email (extract_contact text)))))
  /\ Last_Name (extract_contact text)
     = str_title (snd (HumanName (email_words (Email (extract_contact text)))))
  /\ Forall (fun c => c = ch " "
                      \/ (c ∈ Email (extract_contact text)
                          /\ is_separator c = false /\ c <> ch "@"))
            (email_words (Email (extract_contact text))).
Proof.
  intros Hn He. split; [|split; [|apply email_words_chars]].
  - revert Hn He. unfold name_line_of, person_text, extract_contact. simpl.
    destruct (List.filter is_name_line (firstn 10 (contact_lines text))); [|discriminate].
    intros _ ->. reflexivity.
  - revert Hn He. unfold name_line_of, person_text, extract_contact. simpl.
    destruct (List.filter is_name_line (firstn 10 (contact_lines text))); [|discriminate].
    intros _ ->. reflexivity.
Qed.

End Substitution.

(** ** The record in the hands of load_inputs *)

Section Consumer.
Context `{Library}.
Import QuestionGenerator.

Lemma dict_find_sound (members : list (str * json)) (key : str) (v : json) :
  dict_find members key = Some v -> (key, v) ∈ members.
Proof.
  induction members as [|[k x] rest IH]; simpl; [discriminate|].
  unfold str_eqb. case_bool_decide as E.
  - intros [= ->]. subst k. apply elem_of_cons. left. reflexivity.
  - intros Hf. apply elem_of_cons. right. exact (IH Hf).
Qed.

Lemma dict_find_none (members : list (str * json)) (key : str) :
  dict_find members key = None -> forall v, (key, v) ∉ members.
Proof.
  induction members as [|[k x] rest IH]; simpl; intros Hf v Hin; [inversion Hin|].
  revert Hf. unfold str_eqb. case_bool_decide as E; [discriminate|]. intros Hf.
  apply elem_of_cons in Hin as [[= -> ->]|Hin]; [exact (E eq_refl) | exact (IH Hf v Hin)].
Qed.

(** Looking a key up in the record read back is looking it up in the
    record written. *)
Lemma dict_find_record (out : gmap str json) (key : str) :
  dict_find (map_to_list out) key = out !! key.
Proof.
  destruct (dict_find (map_to_list out) key) as [v|] eqn:E.
  - symmetry. apply elem_of_map_to_list, dict_find_sound, E.
  - destruct (out !! key) as [v|] eqn:Eo; [|reflexivity].
    exfalso. apply (dict_find_none _ _ E v). apply elem_of_map_to_list, Eo.
Qed.

Lemma dict_get_find (members : list (str * json)) (key : str) (d : json) :
  dict_get members key d = default d (dict_find members key).
Proof.
  induction members as [|[k x] rest IH]; simpl; [reflexivity|].
  destruct (str_eqb k key); [reflexivity | exact IH].
Qed.

Lemma subscript_record (out : gmap str json) (key : str) (v : json) :
  out !! key = Some v -> subscript (record_json out) key = Ok v.
Proof. intros E. unfold subscript, record_json. rewrite dict_find_record, E. reflexivity. Qed.

Lemma get_record (out : gmap str json) (key : str) (d : json) :
  get (record_json out) key d = Ok (default d (out !! key)).
Proof. unfold get, record_json. rewrite dict_get_find, dict_find_record. reflexivity. Qed.

Lemma subscript_contact (c : ContactRecord) :
  subscript (contact_json c) (u "First Name") = Ok (JStr (First_Name c))
  /\ subscript (contact_json c) (u "Last Name") = Ok (JStr (Last_Name c)).
Proof. destruct c. split; vm_compute; reflexivity. Qed.

(** With a Work Experience or a Skills & Interests entry that is the empty
    list, [load_inputs] raises. *)
Lemma load_inputs_rejects (py_repr : json -> str) (out : gmap str json)
    (c : ContactRecord) (job_offer : str) :
  out !! u "Contact Information" = Some (contact_json c) ->
  out !! u "Work Experience" = Some (JArr [])
  \/ out !! u "Skills & Interests" = Some (JArr []) ->
  exists e, load_inputs py_repr (record_json out) job_offer = Raised e.
Proof.
  intros Ec Hempty. unfold load_inputs.
  rewrite (subscript_record out _ _ Ec). cbn [mbind result_bind].
  destruct (subscript_contact c) as [-> ->]. cbn [mbind result_bind].
  rewrite !get_record. cbn [mbind result_bind].
  destruct (slice_to 300 _) as [summary|e]; [|eauto].
  destruct Hempty as [Ew|Es].
  - rewrite Ew. simpl. eauto.
  - destruct (first_item _) as [last_job|e]; [|eauto].
    rewrite Es. simpl. eauto.
Qed.

Lemma load_inputs_index_error (py_repr : json -> str) (out : gmap str json)
    (c : ContactRecord) (summary job_offer : str) :
  out !! u "Contact Information" = Some (contact_json c) ->
  out !! u "Professional Summary" = Some (JStr summary) ->
  out !! u "Work Experience" = Some (JArr []) ->
  load_inputs py_repr (record_json out) job_offer = Raised IndexError.
Proof.
  intros Ec Ep Ew. unfold load_inputs.
  rewrite (subscript_record out _ _ Ec). cbn [mbind result_bind].
  destruct (subscript_contact c) as [-> ->]. cbn [mbind result_bind].
  rewrite !get_record, Ep, Ew. reflexivity.
Qed.

Lemma ensures_call_llm_blank (section body : str) (w : world) :
  blank body -> ensures (call_llm section body) w (fun v => v = sentinel section).
Proof.
  intros Hb v w' E. rewrite (call_llm_blank section body w Hb) in E.
  injection E as <- _. reflexivity.
Qed.

(** A section of [names] whose body is blank ends up mapped to its
    sentinel. *)
Lemma extract_each_blank_entry (sections : gmap str str) (sec body : str) :
  sections !! sec = Some body -> blank body ->
  forall (names : list str) (out : gmap str json) (w : world),
  sec ∈ names ->
  ensures (extract_each names sections out) w (fun out' => out' !! sec = Some (sentinel sec)).
Proof.
  intros Es Hb. induction names as [|n rest IH]; intros out w Hin; [inversion Hin|].
  cbn [extract_each].
  eapply ensures_bind; [apply ensures_getitem|]. intros body' w1 Eb. cbv beta in Eb.
  destruct (decide (sec ∈ rest)) as [Hr|Hr].
  - eapply ensures_bind; [apply ensures_any|]. intros v w2 _. apply IH, Hr.
  - apply elem_of_cons in Hin as [<-|Hin]; [|contradiction].
    rewrite Es in Eb. injection Eb as <-.
    eapply ensures_bind; [apply ensures_call_llm_blank, Hb|]. intros v w2 ->.
    intros out' w' E. destruct (extract_each_keeps rest sections _ w2 out' w' E) as [Hk _].
    rewrite (Hk sec Hr). apply lookup_insert_eq.
Qed.

Lemma ensures_conj {A} (m : M A) (w : world) (Q1 Q2 : A -> Prop) :
  ensures m w Q1 -> ensures m w Q2 -> ensures m w (fun a => Q1 a /\ Q2 a).
Proof. intros H1 H2 a w' E. split; [exact (H1 a w' E) | exact (H2 a w' E)]. Qed.

Lemma ensures_impl {A} (m : M A) (w : world) (P : Prop) (Q : A -> Prop) :
  (P -> ensures m w Q) -> ensures m w (fun a => P -> Q a).
Proof. intros Hm a w' E HP. exact (Hm HP a w' E). Qed.

Lemma main_record_facts (pdf_text work skills : str) (w : world) :
  find_sections (remove_char CR pdf_text) !! u "Work Experience" = Some work ->
  find_sections (remove_char CR pdf_text) !! u "Skills & Interests" = Some skills ->
  ensures (main pdf_text) w
    (fun out =>
       (exists c, out !! u "Contact Information" = Some (contact_json c))
       /\ (blank work -> out !! u "Work Experience" = Some (JArr []))
       /\ (blank skills -> out !! u "Skills & Interests" = Some (JArr []))).
Proof.
  intros Ew Es. unfold main.
  eapply ensures_bind; [apply ensures_any|]. intros contact_body w1 _.
  eapply ensures_bind; [apply ensures_any|]. intros title_body w2 _.
  eapply ensures_bind; [apply ensures_any|]. intros summary_body w3 _.
  eapply ensures_bind; [apply ensures_any|]. intros summary w4 _.
  eapply ensures_bind.
  { apply ensures_conj; [apply extract_each_keeps|].
    apply ensures_impl. intros Hb. apply (extract_each_blank_entry _ _ _ Ew Hb).
    apply list_elem_of_In. simpl. auto. }
  intros out1 w5 [[K1 _] B1].
  eapply ensures_bind.
  { apply ensures_conj; [apply extract_each_keeps|].
    apply ensures_impl. intros Hb. apply (extract_each_blank_entry _ _ _ Es Hb).
    apply list_elem_of_In. simpl. auto. }
  intros out2 w6 [[K2 _] B2].
  eapply ensures_bind; [apply ensure_projects_keeps|]. intros out3 w7 [K3 _].
  eapply ensures_bind; [apply ensure_certifications_keeps|]. intros out4 w8 [K4 _].
  apply ensures_ret.
  split; [|split]; [|intros Hb|intros Hb];
    (rewrite fill_placeholders_other by not_in_keys;
     rewrite K4 by key_ne; rewrite K3 by key_ne).
  - rewrite K2 by not_in_keys. rewrite K1 by not_in_keys.
    rewrite !lookup_insert_ne by key_ne. rewrite lookup_insert_eq. eauto.
  - rewrite K2 by not_in_keys. exact (B1 Hb).
  - exact (B2 Hb).
Qed.

(** X18. The question generator cannot use the record of a résumé whose
    Work Experience or Skills & Interests body is blank: the analyzer
    stores the empty list for such a section, and load_inputs, which takes
    the first item of the one and calls get on the other, raises instead of
    returning an overview. *)
Theorem load_inputs_needs_work_and_skills
    (py_repr : json -> str) (pdf_text work skills job_offer : str) (w : world) :
  find_sections (remove_char CR pdf_text) !! u "Work Experience" = Some work ->
  find_sections (remove_char CR pdf_text) !! u "Skills & Interests" = Some skills ->
  blank work \/ blank skills ->
  ensures (main pdf_text) w
    (fun out => exists e, load_inputs py_repr (record_json out) job_offer = Raised e).
Proof.
  intros Ew Es Hb out w' E.
  destruct (main_record_facts pdf_text work skills w Ew Es out w' E) as ([c Ec] & Bw & Bs).
  apply (load_inputs_rejects py_repr out c job_offer Ec).
  destruct Hb as [Hb|Hb]; [left; exact (Bw Hb) | right; exact (Bs Hb)].
Qed.

(** X19. For a document in which no line is a heading the analyzer returns
    a record, and load_inputs raises IndexError on it: the overview is
    never built. *)
Theorem load_inputs_rejects_unstructured_text
    (py_repr : json -> str) (pdf_text job_offer : str) (w : world) :
  no_heading (remove_char CR pdf_text) ->
  exists out,
    main pdf_text w = (Return out, w)
    /\ load_inputs py_repr (record_json out) job_offer = Raised IndexError.
Proof.
  intros Hno.
  destruct (main_quiet pdf_text w Hno) as (out & E & Ec & _ & Ep & Hrest).
  exists out. split; [exact E|].
  apply (load_inputs_index_error py_repr out _ [] job_offer Ec Ep).
  exact (List.Forall_inv Hrest).
Qed.

End Consumer.

(** ** The theorems at work on concrete documents *)

Section Examples.
#[local] Existing Instance Sample.plain.

(** The patterns on a few subjects, as CPython's [re] answers. *)
Example email_search :
  re_search EMAIL_RE (u "mail: john.doe@mail.com, jane@x.org") = Some (u "john.doe@mail.com").
Proof. vm_compute. reflexivity. Qed.

Example email_needs_two_letters : re_search EMAIL_RE (u "a@b.c") = None.
Proof. vm_compute. reflexivity. Qed.

Example phone_search :
  re_search PHONE_RE (u "tel +212 6 12 34 56 78.") = Some (u "+212 6 12 34 56 78").
Proof. vm_compute. reflexivity. Qed.

Example heading_with_colon :
  headings_of (u "COMPÉTENCES :") = [u "Skills & Interests"].
Proof. vm_compute. reflexivity. Qed.

Example heading_must_fill_the_line : headings_of (u "my education") = [].
Proof. vm_compute. reflexivity. Qed.

Example keyword_needs_word_boundaries :
  List.map is_project_line [u "We built it"; u "builtin types"; u "(Created)"]
  = [true; false; true].
Proof. vm_compute. reflexivity. Qed.

Example span_is_greedy :
  re_search JSON_SPAN_RE (u "a {b} c {d} e") = Some (u "{b} c {d}").
Proof. vm_compute. reflexivity. Qed.

Example camel_case_split :
  re_sub CAMEL_RE camel_repl (re_sub SEPARATORS_RE (fun _ => u " ") (u "johnDoe_smith"))
  = u "john Doe smith".
Proof. vm_compute. reflexivity. Qed.

Example splitlines_crlf :
  splitlines (u "a" ++ [CR; LF] ++ u "b" ++ [LF; LF]) = [u "a"; u "b"; []].
Proof. vm_compute. reflexivity. Qed.

(** The sample résumé: Education is a heading twice, the second one wins. *)
Example resume_markers :
  sort_markers (scan_markers 0 (doc_lines Sample.resume))
  = [(3, u "Education"); (5, u "Skills & Interests"); (7, u "Education")].
Proof. vm_compute. reflexivity. Qed.

Example resume_education :
  find_sections Sample.resume !! u "Education"
  = Some (u "MSc Paris 2017" ++ [LF] ++ u "PhD Lyon 2021").
Proof. vm_compute. reflexivity. Qed.

Example resume_contact :
  extract_contact Sample.resume
  = Contact (u "John") (u "Smith") (u "john.smith@example.org") (u "+212 6 12 34 56 78") [].
Proof. vm_compute. reflexivity. Qed.

(** The whole pipeline on the sample résumé, with a service that answers
    its first request with a Projects object in commentary and the second
    with nothing: Education gets the whole object (it has no Education
    key), Skills & Interests the sentinel and a warning. *)
Example resume_record :
  match main (H := Sample.polite_lib) Sample.resume Sample.w0 with
  | (Return out, w') =>
      out !! u "Target Title" = Some (JStr [])
      /\ out !! u "Education" = Some Sample.projects_value
      /\ out !! u "Skills & Interests" = Some (JArr [])
      /\ out !! u "Projects" = Some (JArr [])
      /\ out !! u "Publications" = Some (JArr [])
      /\ printed w' = [warn_no_json (u "Skills & Interests")]
      /\ length (requests w') = 2
  | (Raise _, _) => False
  end.
Proof. vm_compute. repeat split; reflexivity. Qed.

End Examples.

Ltac by_computation := apply (bool_decide_unpack _); vm_compute; exact I.

(** C1 as stated fails: the first e-mail match of this document is on its
    31st line, outside the window, and the Email field is empty. *)
Lemma email_past_window_is_missed :
  first_email (H := Sample.plain) late_email_doc = Some (u "a@b.co")
  /\ Email (extract_contact (H := Sample.plain) late_email_doc) = [].
Proof. split; vm_compute; reflexivity. Qed.

Lemma email_is_first_match_in_window_witness :
  first_email (H := Sample.plain) Sample.resume
    = Some (Email (extract_contact (H := Sample.plain) Sample.resume))
  /\ Email (extract_contact (H := Sample.plain) late_email_doc) = [].
Proof.
  split.
  - apply (proj1 (email_is_first_match_in_window (H := Sample.plain) Sample.resume)).
    by_computation.
  - apply (proj2 (email_is_first_match_in_window (H := Sample.plain) late_email_doc)).
    by_computation.
Defined.





Lemma find_sections_total_keys_witness :
  Forall (fun name => find_sections (H := Sample.plain) (u "John Smith" ++ [LF] ++ u "Rabat")
                        !! name = Some [])
         SECTION_ORDER.
Proof.
  apply (proj2 (find_sections_total_keys (H := Sample.plain) _)).
  unfold no_heading. by_computation.
Defined.

Lemma find_sections_last_match_wins_witness :
  find_sections (H := Sample.plain) Sample.resume !! u "Education"
  = Some (section_body (doc_lines Sample.resume) 7
            (span_end (H := Sample.plain) (doc_lines Sample.resume) 7 (u "Education")))
  /\ span_end (H := Sample.plain) (doc_lines Sample.resume) 7 (u "Education")
     = next_heading_line (H := Sample.plain) 8 (skipn 8 (doc_lines Sample.resume)).
Proof.
  assert (Hlast : forall k, 7 < k ->
            ~ heading_at (H := Sample.plain) (doc_lines Sample.resume) k (u "Education")).
  { intros k Hk Hh. pose proof (heading_at_lt _ _ _ Hh) as Hlt. vm_compute in Hlt.
    assert (Hcases : k = 8 \/ k = 9) by lia.
    destruct Hcases as [-> | ->]; vm_compute in Hh; inversion Hh. }
  assert (H3 : heading_at (H := Sample.plain) (doc_lines Sample.resume) 3 (u "Education"))
    by (unfold heading_at; by_computation).
  assert (H7 : heading_at (H := Sample.plain) (doc_lines Sample.resume) 7 (u "Education"))
    by (unfold heading_at; by_computation).
  destruct (find_sections_last_match_wins (H := Sample.plain) Sample.resume (u "Education")
              3 7 ltac:(lia) H3 H7 Hlast) as [Hspan Hstop].
  split; [exact Hspan|]. apply Hstop.
  intros n' Hn'. vm_compute in Hn'.
  apply elem_of_cons in Hn' as [->|Hn']; [reflexivity | inversion Hn'].
Defined.

Lemma enrichment_keeps_populated_witness :
  ensure_projects (H := Sample.plain) ∅ Sample.with_projects Sample.w0
    = (Return Sample.with_projects, Sample.w0)
  /\ ensure_certifications (H := Sample.plain) ∅ Sample.with_certifications Sample.w0
    = (Return Sample.with_certifications, Sample.w0).
Proof.
  split.
  - apply (proj1 (enrichment_keeps_populated (H := Sample.plain)
                    ∅ Sample.with_projects Sample.w0) (JArr [JStr (u "Compiler")]));
      vm_compute; reflexivity.
  - apply (proj2 (enrichment_keeps_populated (H := Sample.plain)
                    ∅ Sample.with_certifications Sample.w0) (JArr [JStr (u "AWS")]));
      vm_compute; reflexivity.
Defined.

Lemma ensure_projects_mines_work_experience_witness :
  ensure_projects (H := Sample.polite_lib) Sample.work_sections Sample.no_projects Sample.w0
  = match call_llm (H := Sample.polite_lib) (u "Projects")
            (join [LF] (project_lines (H := Sample.polite_lib) Sample.work_body)) Sample.w0 with
    | (Return parsed, w') =>
        (Return (if truthy parsed then <[u "Projects" := parsed]> Sample.no_projects
                 else Sample.no_projects), w')
    | (Raise e, w') => (Raise e, w')
    end.
Proof.
  assert (Eo : Sample.no_projects !! u "Projects" = Some (JArr []))
    by (vm_compute; reflexivity).
  assert (Es : Sample.work_sections !! u "Work Experience" = Some Sample.work_body)
    by (vm_compute; reflexivity).
  apply (proj1 (ensure_projects_mines_work_experience (H := Sample.polite_lib)
                  Sample.work_sections Sample.no_projects (JArr []) Sample.work_body
                  Sample.w0 Eo eq_refl Es)).
  vm_compute. discriminate.
Defined.

Lemma extract_contact_record_witness :
  First_Name (extract_contact (H := Sample.plain) (u "hello")) = []
  /\ Last_Name (extract_contact (H := Sample.plain) (u "hello")) = [].
Proof.
  apply (extract_contact_record (H := Sample.plain) (u "hello")).
  - repeat split; vm_compute; reflexivity.
  - reflexivity.
  - reflexivity.
Defined.

(** C9 as stated fails: "Rabat Morocco" is the first non-empty line of this
    document and qualifies as a name line, but it is the 31st line, outside
    the window, and no name is taken from it. *)
Lemma name_line_past_window_is_missed :
  u "Rabat Morocco" ∈ firstn 10 (nonempty_lines late_name_doc)
  /\ is_name_line (H := Sample.plain) (u "Rabat Morocco") = true
  /\ str_title (Library := Sample.plain)
       (fst (HumanName (Library := Sample.plain) (u "Rabat Morocco"))) = u "Rabat"
  /\ First_Name (extract_contact (H := Sample.plain) late_name_doc) = []
  /\ Last_Name (extract_contact (H := Sample.plain) late_name_doc) = [].
Proof. split; [by_computation|]. repeat split; vm_compute; reflexivity. Qed.

Lemma name_line_ignores_location_stop_witness :
  all_location_words (H := Sample.plain) (u "Rabat Morocco") = true
  /\ exists ln',
       name_line_of (H := Sample.plain) (u "Rabat Morocco") = Some ln'
       /\ is_name_line (H := Sample.plain) ln' = true
       /\ First_Name (extract_contact (H := Sample.plain) (u "Rabat Morocco"))
          = str_title (Library := Sample.plain) (fst (HumanName (Library := Sample.plain) ln'))
       /\ Last_Name (extract_contact (H := Sample.plain) (u "Rabat Morocco"))
          = str_title (Library := Sample.plain) (snd (HumanName (Library := Sample.plain) ln')).
Proof.
  split; [vm_compute; reflexivity|].
  apply (name_line_ignores_location_stop (H := Sample.plain)
           (u "Rabat Morocco") (u "Rabat Morocco")).
  - by_computation.
  - vm_compute. reflexivity.
Defined.

Lemma placeholders_always_empty_witness :
  yields (main (H := Sample.polite_lib) Sample.resume) Sample.w0
    (fun out => Forall (fun k => out !! k = Some (JArr [])) PLACEHOLDERS).
Proof.
  apply (proj2 (placeholders_always_empty (H := Sample.polite_lib) Sample.resume Sample.w0)).
  intros s v E. simpl in E. destruct (str_eqb Sample.projects_doc (ch "{" :: s)).
  - injection E as <-. eexists. reflexivity.
  - discriminate E.
Defined.

(** ** The further properties at work on concrete documents *)

(** A decidable hypothesis that evaluates to false. *)
Ltac refuted H := unfold heading_at in H; apply (bool_decide_pack _) in H; vm_compute in H; exact H.

Lemma find_sections_keys_exact_witness :
  is_Some (find_sections (H := Sample.plain) Sample.resume !! u "Education").
Proof.
  apply (proj2 (find_sections_keys_exact (H := Sample.plain) Sample.resume (u "Education"))).
  in_keys.
Defined.

Lemma find_sections_unmatched_empty_witness :
  find_sections (H := Sample.plain) Sample.resume !! u "Projects" = Some [].
Proof.
  apply (find_sections_unmatched_empty (H := Sample.plain) Sample.resume (u "Projects")).
  - in_keys.
  - intros k Hh. pose proof (heading_at_lt _ _ _ Hh) as Hlt. vm_compute in Hlt.
    assert (Hcases : k = 0 \/ k = 1 \/ k = 2 \/ k = 3 \/ k = 4 \/ k = 5 \/ k = 6 \/ k = 7 \/ k = 8 \/ k = 9) by lia.
    repeat (destruct Hcases as [->|Hcases]; [refuted Hh|]).
    all: try subst k; first [contradiction | lia | refuted Hh].
Defined.

Lemma find_sections_values_stripped_witness :
  strip (u "MSc Paris 2017" ++ [LF] ++ u "PhD Lyon 2021")
  = u "MSc Paris 2017" ++ [LF] ++ u "PhD Lyon 2021".
Proof.
  apply (find_sections_values_stripped (H := Sample.plain) Sample.resume (u "Education")).
  vm_compute. reflexivity.
Defined.

Lemma find_sections_single_heading_witness :
  find_sections (H := Sample.plain) Sample.resume !! u "Skills & Interests"
  = Some (section_body (doc_lines Sample.resume) 5
            (next_heading_line (H := Sample.plain) 6 (skipn 6 (doc_lines Sample.resume)))).
Proof.
  apply (find_sections_single_heading (H := Sample.plain) Sample.resume
           (u "Skills & Interests") 5).
  - unfold heading_at. by_computation.
  - intros k Hk Hh. pose proof (heading_at_lt _ _ _ Hh) as Hlt. vm_compute in Hlt.
    assert (Hcases : k = 0 \/ k = 1 \/ k = 2 \/ k = 3 \/ k = 4 \/ k = 5 \/ k = 6 \/ k = 7 \/ k = 8 \/ k = 9) by lia.
    repeat (destruct Hcases as [->|Hcases];
            [first [contradiction | refuted Hh]|]).
    all: try subst k; first [contradiction | lia | refuted Hh].
  - intros n' Hn'. vm_compute in Hn'.
    apply elem_of_cons in Hn' as [->|Hn']; [reflexivity | inversion Hn'].
Defined.

Lemma find_sections_spans_disjoint_witness :
  exists e1 e2,
    find_sections (H := Sample.plain) Sample.resume !! u "Skills & Interests"
    = Some (section_body (doc_lines Sample.resume) 5 e1)
    /\ find_sections (H := Sample.plain) Sample.resume !! u "Education"
       = Some (section_body (doc_lines Sample.resume) 7 e2)
    /\ 5 <= e1 /\ e1 <= 7 /\ 7 <= e2 /\ e2 <= length (doc_lines Sample.resume).
Proof.
  apply (find_sections_spans_disjoint (H := Sample.plain) Sample.resume
           (u "Skills & Interests") (u "Education") 5 7).
  - lia.
  - unfold heading_at. by_computation.
  - intros k Hk Hh. pose proof (heading_at_lt _ _ _ Hh) as Hlt. vm_compute in Hlt.
    assert (Hcases : k = 0 \/ k = 1 \/ k = 2 \/ k = 3 \/ k = 4 \/ k = 5 \/ k = 6 \/ k = 7 \/ k = 8 \/ k = 9) by lia.
    repeat (destruct Hcases as [->|Hcases];
            [first [lia | refuted Hh]|]).
    all: try subst k; first [contradiction | lia | refuted Hh].
  - unfold heading_at. by_computation.
  - intros k Hk Hh. pose proof (heading_at_lt _ _ _ Hh) as Hlt. vm_compute in Hlt.
    assert (Hcases : k = 0 \/ k = 1 \/ k = 2 \/ k = 3 \/ k = 4 \/ k = 5 \/ k = 6 \/ k = 7 \/ k = 8 \/ k = 9) by lia.
    repeat (destruct Hcases as [->|Hcases];
            [first [lia | refuted Hh]|]).
    all: try subst k; first [contradiction | lia | refuted Hh].
Defined.


Lemma main_fixed_fields_witness :
  ensures (main (H := Sample.plain) Sample.resume) Sample.w0
    (fun out =>
       out !! u "Contact Information"
       = Some (contact_json
                 (extract_contact (H := Sample.plain)
                    (if nonempty [] then [] else remove_char CR Sample.resume)))
       /\ out !! u "Target Title" = Some (JStr (target_title []))).
Proof.
  apply (main_fixed_fields (H := Sample.plain) Sample.resume [] [] Sample.w0).
  - vm_compute. reflexivity.
  - vm_compute. reflexivity.
Defined.

Lemma main_without_headings_witness :
  exists out,
    main (H := Sample.plain) Cases.unstructured Sample.w0 = (Return out, Sample.w0)
    /\ out !! u "Contact Information"
       = Some (contact_json
                 (extract_contact (H := Sample.plain) (remove_char CR Cases.unstructured)))
    /\ out !! u "Target Title" = Some (JStr [])
    /\ out !! u "Professional Summary" = Some (JStr [])
    /\ Forall (fun k => out !! k = Some (JArr []))
         [u "Work Experience"; u "Education"; u "Skills & Interests"; u "Certifications";
          u "Awards & Scholarships"; u "Projects"; u "Volunteering & Leadership";
          u "Publications"].
Proof.
  apply (main_without_headings (H := Sample.plain) Cases.unstructured Sample.w0).
  unfold no_heading. by_computation.
Defined.

Lemma enrichment_lookup_errors_witness :
  ensure_projects (H := Sample.plain) ∅ ∅ Sample.w0
    = (Raise (KeyError (u "Projects")), Sample.w0)
  /\ ensure_projects (H := Sample.plain) ∅ Sample.no_projects Sample.w0
     = (Raise (KeyError (u "Work Experience")), Sample.w0)
  /\ forall k, fst (ensure_certifications (H := Sample.plain) ∅ Cases.no_certifications
                      Sample.w0) <> Raise (KeyError k).
Proof.
  pose proof (enrichment_lookup_errors (H := Sample.plain) ∅ ∅ Sample.w0) as (H1 & _).
  pose proof (enrichment_lookup_errors (H := Sample.plain) ∅ Sample.no_projects Sample.w0)
    as (_ & H2 & _).
  pose proof (enrichment_lookup_errors (H := Sample.plain) ∅ Cases.no_certifications
                Sample.w0) as (_ & _ & _ & H4).
  split; [apply H1; reflexivity|].
  split; [apply (H2 (JArr [])); vm_compute; reflexivity|].
  apply H4. vm_compute. eexists. reflexivity.
Defined.

Lemma ensure_certifications_mines_two_sections_witness :
  ensure_certifications (H := Sample.plain) Cases.cert_sections Cases.no_certifications
    Sample.w0
  = match call_llm (H := Sample.plain) (u "Certifications")
            (join [LF] (cert_lines (H := Sample.plain) Cases.cert_sections)) Sample.w0 with
    | (Return parsed, w') =>
        (Return (if truthy parsed then <[u "Certifications" := parsed]> Cases.no_certifications
                 else Cases.no_certifications), w')
    | (Raise e, w') => (Raise e, w')
    end.
Proof.
  assert (Eo : Cases.no_certifications !! u "Certifications" = Some (JArr []))
    by (vm_compute; reflexivity).
  apply (proj1 (ensure_certifications_mines_two_sections (H := Sample.plain)
                  Cases.cert_sections Cases.no_certifications (JArr []) Sample.w0
                  Eo eq_refl)).
  vm_compute. discriminate.
Defined.

Lemma json_span_first_to_last_witness :
  exists pre inner post,
    u "Sure: {a} and {b}." = pre ++ u "{a} and {b}" ++ post
    /\ u "{a} and {b}" = ch "{" :: inner ++ [ch "}"]
    /\ (ch "{" ∉ pre) /\ (ch "}" ∉ post).
Proof.
  apply (proj2 (json_span_first_to_last (H := Sample.plain) (u "Sure: {a} and {b}."))
           (u "{a} and {b}")).
  vm_compute. reflexivity.
Defined.

Lemma name_from_longest_person_witness :
  exists e l1 l2,
    person_ents (H := Cases.team_lib) (person_text Cases.team_line)
    = l1 ++ e :: l2
    /\ Forall (fun x => length x < length e) l1
    /\ Forall (fun x => length x <= length e) l2
    /\ (e, u "PERSON") ∈ nlp (Library := Cases.team_lib)
                           (person_text Cases.team_line)
    /\ 2 <= length (split_ws e)
    /\ no_location_word (H := Cases.team_lib) e
    /\ First_Name (extract_contact (H := Cases.team_lib) Cases.team_line)
       = str_title (Library := Cases.team_lib)
           (fst (HumanName (Library := Cases.team_lib) e))
    /\ Last_Name (extract_contact (H := Cases.team_lib) Cases.team_line)
       = str_title (Library := Cases.team_lib)
           (snd (HumanName (Library := Cases.team_lib) e)).
Proof.
  apply (name_from_longest_person (H := Cases.team_lib) Cases.team_line).
  - vm_compute. reflexivity.
  - vm_compute. discriminate.
Defined.

Lemma extract_contact_window_witness :
  extract_contact (H := Sample.plain) (repeat LF 30 ++ LF :: u "a@b.co")
  = extract_contact (H := Sample.plain) (repeat LF 30 ++ [LF]).
Proof.
  apply (extract_contact_window (H := Sample.plain) (repeat LF 30) (u "a@b.co")).
  vm_compute. lia.
Defined.

Lemma name_from_email_address_witness :
  First_Name (extract_contact (H := Sample.plain) Cases.address_only)
  = str_title (Library := Sample.plain)
      (fst (HumanName (Library := Sample.plain)
              (email_words (H := Sample.plain)
                 (Email (extract_contact (H := Sample.plain) Cases.address_only))))).
Proof.
  apply (name_from_email_address (H := Sample.plain) Cases.address_only).
  - vm_compute. reflexivity.
  - vm_compute. reflexivity.
Defined.

Lemma load_inputs_needs_work_and_skills_witness :
  ensures (main (H := Sample.plain) Sample.resume) Sample.w0
    (fun out =>
       exists e,
         QuestionGenerator.load_inputs Cases.no_repr (QuestionGenerator.record_json out) []
         = QuestionGenerator.Raised e).
Proof.
  apply (load_inputs_needs_work_and_skills (H := Sample.plain) Cases.no_repr
           Sample.resume [] (u "Python, Rocq") [] Sample.w0).
  - vm_compute. reflexivity.
  - vm_compute. reflexivity.
  - left. reflexivity.
Defined.

Lemma load_inputs_rejects_unstructured_text_witness :
  exists out,
    main (H := Sample.plain) Cases.unstructured Sample.w0 = (Return out, Sample.w0)
    /\ QuestionGenerator.load_inputs Cases.no_repr (QuestionGenerator.record_json out) []
       = QuestionGenerator.Raised QuestionGenerator.IndexError.
Proof.
  apply (load_inputs_rejects_unstructured_text (H := Sample.plain) Cases.no_repr
           Cases.unstructured [] Sample.w0).
  unfold no_heading. by_computation.
Defined.
